(** * METEORICA: the parameter engines and the EMI fusion, embedded in Rocq

    Shallow embedding of the numerical core of the [meteorica] Python package
    ([emi.py], [utils/mahalanobis.py], [parameters/*.py]) together with the
    properties its specification states about it.

    Number model.  Python floats are modelled by exact numbers: by the
    rationals [Q] in the modules whose code only uses field operations and
    comparisons (EMI, SMG, TWI, PBDR), where every definition evaluates, and
    by the reals [R] in the modules that call [sqrt], [log] or [exp]
    (Mahalanobis, MCC, IAF, CNEA, ATP).  Rounding, overflow and the special
    float values are outside this model, except where the behaviour of the
    code turns on them: the validity filter of PBDR tests for non-finite
    values and fails on a Python int that numpy cannot convert, the IAF
    score underflows to 0 for a distant observation, and the singularity
    test of [np.linalg.inv] is exact only on some matrices (see
    [Mahalanobis.linalg_inv]).

    The first part of the file holds the definitions, one module per source
    file; the second part holds the lemmas and theorems. *)

From Stdlib Require Import List String Ascii Bool Arith ZArith Lia.
From Stdlib Require Import QArith Qminmax Lqa.
From Stdlib Require Import Reals Lra Psatz.
Import ListNotations.

(* ================================================================== *)
(** * Part I: definitions                                              *)
(* ================================================================== *)

(** ** Python values shared by the modules *)

Module Py.

(** A [dict] keeps its items in insertion order; keys are strings. *)
Definition dict (V : Type) := list (string * V).

Fixpoint get {V : Type} (k : string) (d : dict V) : option V :=
  match d with
  | [] => None
  | (k', v) :: d' => if String.eqb k k' then Some v else get k d'
  end.

(** [k in d] *)
Definition contains {V : Type} (k : string) (d : dict V) : bool :=
  match get k d with Some _ => true | None => false end.

(** [d.get(k, dflt)] *)
Definition get_default {V : Type} (k : string) (dflt : V) (d : dict V) : V :=
  match get k d with Some v => v | None => dflt end.

(** [d[k] = v]: an existing key keeps its position, a new key goes last. *)
Fixpoint set {V : Type} (k : string) (v : V) (d : dict V) : dict V :=
  match d with
  | [] => [(k, v)]
  | (k', v') :: d' =>
      if String.eqb k k' then (k', v) :: d' else (k', v') :: set k v d'
  end.

Definition keys {V : Type} (d : dict V) : list string := map fst d.
Definition values {V : Type} (d : dict V) : list V := map snd d.

(** The exceptions the modelled functions can raise. *)
Inductive exn : Type :=
| ValueError (msg : string)
| KeyError (key : string)
| TypeError
| LinAlgError (msg : string).

Inductive result (A : Type) : Type :=
| Ok (a : A)
| Raise (e : exn).
Arguments Ok {A} a.
Arguments Raise {A} e.

(** Python's [min(a, b)] and [max(a, b)] on numbers: the second argument
    is returned only when it is strictly smaller (larger). *)
Definition py_min (a b : Q) : Q := if Qlt_le_dec b a then b else a.
Definition py_max (a b : Q) : Q := if Qlt_le_dec a b then b else a.

(** [a < b] on floats, as a boolean *)
Definition Rltb (a b : R) : bool := if Rlt_dec a b then true else false.

Definition py_min_R (a b : R) : R := if Rlt_dec b a then b else a.
Definition py_max_R (a b : R) : R := if Rlt_dec a b then b else a.

(** [np.exp(x)] where the argument can lie far below zero: a value under
    half the smallest positive double, [2^-1075], is returned as the
    float 0.0 (for [x] below about -745.13). *)
Definition np_exp (x : R) : R :=
  if Rlt_dec x (- 1075 * ln 2) then 0 else exp x.

Definition bind {A B : Type} (r : result A) (f : A -> result B) : result B :=
  match r with
  | Ok a => f a
  | Raise e => Raise e
  end.

End Py.

Notation "x <- r ;; k" := (Py.bind r (fun x => k))
  (at level 61, r at next level, right associativity).

(** ** [meteorica/emi.py] *)

Module Emi.
Import Py.
Local Open Scope Q_scope.
Local Open Scope string_scope.

Record threshold : Type := mkThreshold { t_min : Q; t_max : Q }.

Definition DEFAULT_WEIGHTS : dict Q :=
  [ ("mcc", 0.26); ("smg", 0.19); ("twi", 0.18); ("iaf", 0.17);
    ("atp", 0.10); ("pbdr", 0.06); ("cnea", 0.04) ].

Definition CRITICAL_THRESHOLDS : dict threshold :=
  [ ("mcc", mkThreshold 0 1); ("smg", mkThreshold 0 1);
    ("twi", mkThreshold 0 1); ("iaf", mkThreshold 0 1);
    ("atp", mkThreshold 0 6000); ("pbdr", mkThreshold 0 1);
    ("cnea", mkThreshold 0 100) ].

(** [np.clip(a, a_min, a_max)] is [minimum(a_max, maximum(a, a_min))]. *)
Definition np_clip (a a_min a_max : Q) : Q := Qmin a_max (Qmax a a_min).

(** [if thresholds is None: thresholds = CRITICAL_THRESHOLDS] *)
Definition table (thresholds : option (dict threshold)) : dict threshold :=
  match thresholds with None => CRITICAL_THRESHOLDS | Some t => t end.

Definition normalize_parameter (value : Q) (param_name : string)
    (thresholds : option (dict threshold)) : result Q :=
  let thresholds := table thresholds in
  match get param_name thresholds with
  | None => Raise (ValueError ("Unknown parameter: " ++ param_name))
  | Some t =>
      let clipped := np_clip value (t_min t) (t_max t) in
      if Qeq_bool (t_max t) (t_min t) then Ok 0.5
      else Ok ((clipped - t_min t) / (t_max t - t_min t))
  end.

(** First loop of [calculate_emi]: over [weights.keys()], filling
    [available_params] and [missing_params]. *)
Fixpoint collect_available (params : list string) (parameters : dict Q)
    (available_params : dict Q) (missing_params : list string)
    : dict Q * list string :=
  match params with
  | [] => (available_params, missing_params)
  | param :: rest =>
      match get param parameters with
      | Some v =>
          collect_available rest parameters (set param v available_params)
            missing_params
      | None =>
          collect_available rest parameters available_params
            (missing_params ++ [param])
      end
  end.

(** Second loop: over [available_params.items()], accumulating
    [(weighted_sum, total_weight)]. *)
Fixpoint accumulate (items : dict Q) (weights : dict Q)
    (thresholds : option (dict threshold)) (weighted_sum total_weight : Q)
    : result (Q * Q) :=
  match items with
  | [] => Ok (weighted_sum, total_weight)
  | (param, value) :: rest =>
      match get param weights with
      | None => Raise (KeyError param)
      | Some weight =>
          norm_val <- normalize_parameter value param thresholds ;;
          accumulate rest weights thresholds
            (weighted_sum + weight * norm_val) (total_weight + weight)
      end
  end.

Definition calculate_emi (parameters : dict Q) (weights : option (dict Q))
    (thresholds : option (dict threshold)) : result Q :=
  let weights :=
    match weights with None => DEFAULT_WEIGHTS | Some w => w end in
  let '(available_params, _) :=
    collect_available (keys weights) parameters [] [] in
  match available_params with
  | [] => Ok 0
  | _ :: _ =>
      acc <- accumulate available_params weights thresholds 0 0 ;;
      let '(weighted_sum, total_weight) := acc in
      if Qlt_le_dec 0 total_weight
      then Ok (weighted_sum / total_weight)
      else Ok 0
  end.

(** What [normalize_parameter] computes once the threshold is found. *)
Definition rescale (value : Q) (t : threshold) : Q :=
  if Qeq_bool (t_max t) (t_min t) then 0.5
  else (np_clip value (t_min t) (t_max t) - t_min t) / (t_max t - t_min t).

(** The items the first loop gathers from a list of parameter names. *)
Definition gathered (parameters : dict Q) (params : list string) : dict Q :=
  flat_map
    (fun p => match get p parameters with Some v => [(p, v)] | None => [] end)
    params.

(** The formula of the specification, written independently of the two
    loops: the supplied parameters among the seven, in the order of the
    weight table, each normalised against the default thresholds. *)
Definition normalized (param : string) (value : Q) : Q :=
  match normalize_parameter value param None with
  | Ok n => n
  | Raise _ => 0
  end.

Definition Qsum (l : list Q) : Q := fold_right Qplus 0 l.

(** The supplied triples [(param, weight, value)] drawn from a part of
    the weight table. *)
Definition supplied_in (weights : dict Q) (parameters : dict Q)
    : list (string * Q * Q) :=
  flat_map
    (fun '(param, weight) =>
       match get param parameters with
       | Some v => [(param, weight, v)]
       | None => []
       end)
    weights.

Definition weighted_terms (s : list (string * Q * Q)) : list Q :=
  map (fun '(param, weight, v) => weight * normalized param v) s.

Definition weight_terms (s : list (string * Q * Q)) : list Q :=
  map (fun '(_, weight, _) => weight) s.

Definition supplied (parameters : dict Q) : list (string * Q * Q) :=
  supplied_in DEFAULT_WEIGHTS parameters.

Definition emi_formula (parameters : dict Q) : Q :=
  match supplied parameters with
  | [] => 0
  | s => Qsum (weighted_terms s) / Qsum (weight_terms s)
  end.

(** A row of the weight table that the second loop can process. *)
Definition usable_row (weights : dict Q) (row : string * Q) : Prop :=
  get (fst row) weights = Some (snd row)
  /\ 0 < snd row
  /\ exists t, get (fst row) (table None) = Some t.

End Emi.

(** ** [meteorica/parameters/smg.py] *)

Module Smg.
Import Py.
Local Open Scope Q_scope.
Local Open Scope string_scope.

Definition INDICATOR_WEIGHTS : dict Q :=
  [ ("olivine_planar", 0.28); ("feldspar_state", 0.24);
    ("metal_melting", 0.18); ("high_pressure_phases", 0.16);
    ("sulfide_state", 0.09); ("porosity", 0.05) ].

Definition olivine_to_pressure (indicator_value : Q) : Q :=
  if Qlt_le_dec indicator_value 0.1 then 4
  else if Qlt_le_dec indicator_value 0.25 then 8
  else if Qlt_le_dec indicator_value 0.45 then 15
  else if Qlt_le_dec indicator_value 0.65 then 28
  else if Qlt_le_dec indicator_value 0.85 then 45
  else 70.

Definition feldspar_to_pressure (indicator_value : Q) : Q :=
  if Qlt_le_dec indicator_value 0.2 then 4
  else if Qlt_le_dec indicator_value 0.4 then 12
  else if Qlt_le_dec indicator_value 0.6 then 25
  else if Qlt_le_dec indicator_value 0.8 then 40
  else 65.

Definition metal_to_pressure (indicator_value : Q) : Q :=
  8 + indicator_value * 55.

Definition high_pressure_to_pressure (indicator_value : Q) : Q :=
  if Qlt_le_dec indicator_value 0.1 then 0
  else if Qlt_le_dec indicator_value 0.3 then 22
  else if Qlt_le_dec indicator_value 0.6 then 38
  else 58.

Definition sulfide_to_pressure (indicator_value : Q) : Q :=
  4 + indicator_value * 38.

Definition porosity_to_pressure (indicator_value : Q) : Q :=
  2 + (1 - indicator_value) * 48.

Definition INDICATOR_FUNCTIONS : dict (Q -> Q) :=
  [ ("olivine_planar", olivine_to_pressure);
    ("feldspar_state", feldspar_to_pressure);
    ("metal_melting", metal_to_pressure);
    ("high_pressure_phases", high_pressure_to_pressure);
    ("sulfide_state", sulfide_to_pressure);
    ("porosity", porosity_to_pressure) ].

Definition get_shock_stage (pressure_gpa : Q) : string :=
  if Qlt_le_dec pressure_gpa 5 then "S1"
  else if Qlt_le_dec pressure_gpa 10 then "S2"
  else if Qlt_le_dec pressure_gpa 20 then "S3"
  else if Qlt_le_dec pressure_gpa 35 then "S4"
  else if Qlt_le_dec pressure_gpa 55 then "S5"
  else "S6".

(** The returned dictionary; the early return for [weight_sum == 0] has
    no ['pressures'] key, which is [None] here. *)
Record smg_result : Type := mkSmg {
  smg : Q;
  peak_pressure_gpa : Q;
  shock_stage : string;
  pressures : option (dict Q)
}.

Fixpoint smg_loop (items : dict Q) (weighted_pressure_sum weight_sum : Q)
    (pressures : dict Q) : Q * Q * dict Q :=
  match items with
  | [] => (weighted_pressure_sum, weight_sum, pressures)
  | (indicator, value) :: rest =>
      match get indicator INDICATOR_WEIGHTS,
            get indicator INDICATOR_FUNCTIONS with
      | Some weight, Some f =>
          let pressure := f value in
          smg_loop rest (weighted_pressure_sum + weight * pressure)
            (weight_sum + weight) (set indicator pressure pressures)
      | _, _ => smg_loop rest weighted_pressure_sum weight_sum pressures
      end
  end.

Definition calculate_smg (shock_data : dict Q) : smg_result :=
  let '(weighted_pressure_sum, weight_sum, pressures) :=
    smg_loop shock_data 0 0 [] in
  if Qeq_bool weight_sum 0
  then mkSmg 0 0 "S1" None
  else
    let peak_pressure := weighted_pressure_sum / weight_sum in
    mkSmg (py_min 1 (peak_pressure / 90)) peak_pressure
      (get_shock_stage peak_pressure) (Some pressures).

(** Monotonicity of an indicator mapping on the indicator range. *)
Definition nondecreasing_on_unit (f : Q -> Q) : Prop :=
  forall a b : Q, 0 <= a -> a <= b -> b <= 1 -> f a <= f b.

Definition nonincreasing_on_unit (f : Q -> Q) : Prop :=
  forall a b : Q, 0 <= a -> a <= b -> b <= 1 -> f b <= f a.

Definition monotone_on_unit (f : Q -> Q) : Prop :=
  nondecreasing_on_unit f \/ nonincreasing_on_unit f.

(** An indicator the loop of [calculate_smg] takes into account. *)
Definition known_indicator (entry : string * Q) : bool :=
  contains (fst entry) INDICATOR_WEIGHTS
  && contains (fst entry) INDICATOR_FUNCTIONS.

(** The stage annotated on each band of [olivine_to_pressure]. *)
Definition olivine_stage (indicator_value : Q) : string :=
  if Qlt_le_dec indicator_value 0.1 then "S1"
  else if Qlt_le_dec indicator_value 0.25 then "S2"
  else if Qlt_le_dec indicator_value 0.45 then "S3"
  else if Qlt_le_dec indicator_value 0.65 then "S4"
  else if Qlt_le_dec indicator_value 0.85 then "S5"
  else "S6".

End Smg.

(** ** [meteorica/parameters/twi.py] *)

Module Twi.
Import Py.
Local Open Scope Q_scope.
Local Open Scope string_scope.

Definition calculate_twi (weathering_data : dict Q) : Q :=
  let metal_ox := get_default "metal_oxidation" 0 weathering_data in
  let phyllo := get_default "phyllosilicate" 0 weathering_data in
  let carbonate := get_default "carbonate_veins" 0 weathering_data in
  let be_ne_dev := get_default "be_ne_deviation" 0 weathering_data in
  let fe_ni_dev := get_default "fe_ni_deviation" 0 weathering_data in
  let twi :=
    0.30 * metal_ox + 0.25 * phyllo + 0.20 * carbonate
    + 0.15 * be_ne_dev + 0.10 * fe_ni_dev in
  py_min 1 (py_max 0 twi).

End Twi.

(** ** [meteorica/parameters/pbdr.py] *)

Module Pbdr.
Import Py.
Local Open Scope Q_scope.
Local Open Scope string_scope.

(** The values an HSE mapping can hold: [None], a string (any
    non-numeric object), a finite float, a Python int of any size (a
    [bool] is the int 0 or 1), or one of the three non-finite floats. *)
Inductive pyval : Type :=
| PyNone
| PyStr (s : string)
| PyNum (q : Q)
| PyInt (z : Z)
| PyInf
| PyNegInf
| PyNaN.

Definition is_none (v : pyval) : bool :=
  match v with PyNone => true | _ => false end.

(** [isinstance(v, (int, float))] *)
Definition is_number (v : pyval) : bool :=
  match v with PyNone | PyStr _ => false | _ => true end.

(** [v <= 0], for a number *)
Definition le_zero (v : pyval) : bool :=
  match v with
  | PyNum q => Qle_bool q 0
  | PyInt z => (z <=? 0)%Z
  | PyNegInf => true
  | _ => false
  end.

(** [np.isfinite(v)].  numpy holds a Python int in a 64-bit integer
    (signed, or unsigned from [2^63] on); an int outside that range
    becomes an object array, on which the ufunc raises [TypeError], as it
    does on [None] and on a string. *)
Definition isfinite (v : pyval) : result bool :=
  match v with
  | PyNum _ => Ok true
  | PyInt z =>
      if ((- 2 ^ 63 <=? z) && (z <? 2 ^ 64))%Z then Ok true
      else Raise TypeError
  | PyInf | PyNegInf | PyNaN => Ok false
  | PyNone | PyStr _ => Raise TypeError
  end.

(** The number a finite value stands for in arithmetic. *)
Definition number_of (v : pyval) : option Q :=
  match v with
  | PyNum q => Some q
  | PyInt z => Some (inject_Z z)
  | _ => None
  end.

(** [v < bound], for a number *)
Definition lt_bound (v : pyval) (bound : Q) : bool :=
  match v with
  | PyNum q => negb (Qle_bool bound q)
  | PyInt z => negb (Qle_bool bound (inject_Z z))
  | PyNegInf => true
  | _ => false
  end.

(** The filter line of [calculate_pbdr] and [validate_hse_data],
    [value is None or not isinstance(value, (int, float)) or value <= 0
    or not np.isfinite(value)], evaluated from left to right. *)
Definition excluded (value : pyval) : result bool :=
  if is_none value || negb (is_number value) || le_zero value then Ok true
  else finite <- isfinite value ;; Ok (negb finite).

Definition CI_HSE_ABUNDANCES : dict Q :=
  [ ("os", 486); ("ir", 481); ("ru", 712); ("pt", 1010);
    ("pd", 560); ("re", 37); ("au", 140) ].

Record pbdr_result : Type := mkPbdr {
  pbdr : Q;
  avg_hse_ratio : Q;
  differentiation : string;
  parent_body_type : string;
  elements_analyzed : list string
}.

Definition interpret_differentiation (pbdr : Q) : string :=
  if Qlt_le_dec pbdr 0.1 then "Undifferentiated (Chondritic)"
  else if Qlt_le_dec pbdr 0.35 then "Partially differentiated"
  else if Qlt_le_dec pbdr 0.65 then "Moderately differentiated"
  else if Qlt_le_dec pbdr 0.85 then "Highly differentiated"
  else "Fully differentiated (Core/Mantle)".

Definition estimate_parent_body (pbdr : Q) (hse_data : dict pyval) : string :=
  if Qlt_le_dec pbdr 0.1 then "Undifferentiated asteroid (chondritic)"
  else if Qlt_le_dec pbdr 0.3 then "Partially differentiated body"
  else if Qlt_le_dec pbdr 0.6
       then "Differentiated asteroid (e.g., Vesta-like)"
  else if Qlt_le_dec pbdr 0.9
       then "Highly differentiated body (mantle/crust sample)"
  else
    match hse_data with
    | [] => "Core material (fully differentiated)"
    | _ :: _ =>
        if forallb (fun v => lt_bound v 50)
             (filter is_number (values hse_data))
        then "Vesta-like differentiated body (mantle sample)"
        else "Core material (fully differentiated)"
    end.

(** The loop of [calculate_pbdr] over [hse_data.items()]. *)
Fixpoint pbdr_loop (items : dict pyval) (ratios : list Q)
    (elements : list string) : result (list Q * list string) :=
  match items with
  | [] => Ok (ratios, elements)
  | (element, value) :: rest =>
      skip <- excluded value ;;
      if skip then pbdr_loop rest ratios elements
      else
        match number_of value, get element CI_HSE_ABUNDANCES with
        | Some q, Some ci_value =>
            if Qle_bool ci_value 0
            then pbdr_loop rest ratios elements
            else pbdr_loop rest (ratios ++ [q / ci_value])
                   (elements ++ [element])
        | _, _ => pbdr_loop rest ratios elements
        end
  end.

Definition Qsum (l : list Q) : Q := fold_right Qplus 0 l.

(** [np.mean] of a non-empty list *)
Definition np_mean (l : list Q) : Q :=
  Qsum l / inject_Z (Z.of_nat (List.length l)).

Definition calculate_pbdr (hse_data : dict pyval) : result pbdr_result :=
  loop <- pbdr_loop hse_data [] [] ;;
  let '(ratios, elements) := loop in
  match ratios with
  | [] =>
      Ok (mkPbdr 0 0 "Undifferentiated (Chondritic)"
            "Undifferentiated asteroid" [])
  | _ :: _ =>
      let avg_ratio := np_mean ratios in
      let pbdr := py_max 0 (py_min 1 (1 - avg_ratio)) in
      Ok (mkPbdr pbdr avg_ratio (interpret_differentiation pbdr)
            (estimate_parent_body pbdr hse_data) elements)
  end.

(** The validity filter of the specification, written on its own: the
    entries whose value is a finite positive number and whose element has
    a chondritic reference, with that reference. *)
Definition retained_entry (entry : string * pyval) : option (string * Q * Q) :=
  match number_of (snd entry), get (fst entry) CI_HSE_ABUNDANCES with
  | Some q, Some reference =>
      if Qlt_le_dec 0 q then Some (fst entry, q, reference) else None
  | _, _ => None
  end.

Definition retained (hse_data : dict pyval) : list (string * Q * Q) :=
  flat_map
    (fun entry =>
       match retained_entry entry with Some r => [r] | None => [] end)
    hse_data.

Definition ratios_of (r : list (string * Q * Q)) : list Q :=
  map (fun '(_, measured, reference) => measured / reference) r.

Definition elements_of (r : list (string * Q * Q)) : list string :=
  map (fun '(element, _, _) => element) r.

Definition clamp (x lo hi : Q) : Q := Qmax lo (Qmin hi x).

Definition pbdr_formula (hse_data : dict pyval) : Q :=
  let ratios := ratios_of (retained hse_data) in
  clamp (1 - Qsum ratios / inject_Z (Z.of_nat (List.length ratios))) 0 1.

(** A Python int of [2^64] or more: the first three tests of the filter
    let it through and [np.isfinite] cannot convert it. *)
Definition int_overflow (v : pyval) : bool :=
  match v with
  | PyInt z => (2 ^ 64 <=? z)%Z
  | _ => false
  end.

Definition overflowing (hse_data : dict pyval) : bool :=
  existsb int_overflow (values hse_data).

(** The loop of [validate_hse_data]. *)
Fixpoint validate_loop (items : dict pyval) (validated : dict pyval)
    : result (dict pyval) :=
  match items with
  | [] => Ok validated
  | (element, value) :: rest =>
      skip <- excluded value ;;
      if skip then validate_loop rest validated
      else
        if contains element CI_HSE_ABUNDANCES
        then validate_loop rest (set element value validated)
        else validate_loop rest validated
  end.

Definition validate_hse_data (hse_data : dict pyval)
    : result (dict pyval) :=
  validate_loop hse_data [].

(** The retained entries as [validate_hse_data] returns them: with the
    value the mapping holds. *)
Definition validated_of (hse_data : dict pyval) : dict pyval :=
  filter
    (fun entry =>
       match retained_entry entry with Some _ => true | None => false end)
    hse_data.

End Pbdr.

(** [calculate_core_formation_extent] of [pbdr.py], over the reals because
    of [np.exp]. *)

Module PbdrCore.
Import Py.
Local Open Scope R_scope.
Local Open Scope string_scope.

Definition HSE_PARTITION_COEFFICIENTS : dict R :=
  [ ("os", 10000); ("ir", 10000); ("ru", 8000); ("pt", 5000);
    ("pd", 2000); ("re", 5000); ("au", 1000) ].

Definition np_mean (l : list R) : R :=
  fold_right Rplus 0 l / INR (List.length l).

Definition calculate_core_formation_extent (pbdr : R)
    (partition_coeffs : option (dict R)) : R :=
  let pbdr := py_max_R 0 (py_min_R 1 pbdr) in
  let avg_d :=
    match partition_coeffs with
    | None => np_mean (values HSE_PARTITION_COEFFICIENTS)
    | Some coeffs =>
        match filter (fun v => Rltb 0 v) (values coeffs) with
        | [] => 1000
        | valid_coeffs => np_mean valid_coeffs
        end
    end in
  if Rle_dec 0.99 pbdr then 1
  else if Rle_dec pbdr 0 then 0
  else
    let F := 1 - exp (- pbdr * 5) in
    py_min_R 1 (py_max_R 0 F).

End PbdrCore.

(** ** [meteorica/utils/mahalanobis.py]

    [parameters/mcc.py] holds a second, identical copy of
    [mahalanobis_distance]; this module stands for both. *)

Module Mahalanobis.
Import Py.
Local Open Scope R_scope.
Local Open Scope string_scope.

(** One-dimensional and two-dimensional arrays; a matrix is the list of
    its rows. *)
Definition vector : Type := list R.
Definition matrix : Type := list (list R).

(** A float returned by [np.sqrt]: a number, or [nan] for a negative
    argument. *)
Inductive npfloat : Type :=
| Fin (r : R)
| NaN.

Definition np_sqrt (r : R) : npfloat :=
  if Rlt_dec r 0 then NaN else Fin (sqrt r).

Fixpoint zip_with (f : R -> R -> R) (u v : vector) : vector :=
  match u, v with
  | a :: u', b :: v' => f a b :: zip_with f u' v'
  | _, _ => []
  end.

(** [x - centroid] on one-dimensional arrays: equal lengths, or one of
    the two of length one (broadcasting). *)
Definition np_sub (x centroid : vector) : result vector :=
  if Nat.eqb (List.length x) (List.length centroid)
  then Ok (zip_with Rminus x centroid)
  else
    match x, centroid with
    | [a], _ => Ok (map (fun b => a - b) centroid)
    | _, [b] => Ok (map (fun a => a - b) x)
    | _, _ =>
        Raise (ValueError "operands could not be broadcast together")
    end.

Definition np_sum (v : vector) : R := fold_right Rplus 0 v.

Definition all_zero (v : vector) : Prop := Forall (fun d => d = 0) v.

(** [np.sum(diff ** 2)] *)
Definition sum_squares (diff : vector) : R :=
  np_sum (map (fun d => d ^ 2) diff).

Fixpoint remove_nth {A : Type} (n : nat) (l : list A) : list A :=
  match l with
  | [] => []
  | a :: l' =>
      match n with
      | O => l'
      | S n' => a :: remove_nth n' l'
      end
  end.

(** The determinant, by expansion along the first row. *)
Fixpoint det_rec (n : nat) (M : matrix) : R :=
  match n with
  | O => 1
  | S n' =>
      match M with
      | [] => 0
      | row :: rest =>
          np_sum
            (map (fun j =>
                    (-1) ^ j * nth j row 0
                    * det_rec n' (map (remove_nth j) rest))
               (seq 0 (S n')))
      end
  end.

Definition det (M : matrix) : R := det_rec (List.length M) M.

Definition minor (i j : nat) (M : matrix) : matrix :=
  map (remove_nth j) (remove_nth i M).

Definition cofactor (i j : nat) (M : matrix) : R :=
  (-1) ^ (i + j) * det (minor i j M).

(** The inverse of an invertible matrix: the transposed cofactors over
    the determinant. *)
Definition inverse (M : matrix) : matrix :=
  let n := List.length M in
  map (fun i => map (fun j => cofactor j i M / det M) (seq 0 n)) (seq 0 n).

Definition is_square (M : matrix) : bool :=
  forallb (fun row => Nat.eqb (List.length row) (List.length M)) M.

(** [np.linalg.inv]: [LinAlgError] on a matrix that is not square, and
    on a square one when the LU factorisation meets a pivot that is
    exactly zero.  In exact arithmetic that is [det M = 0], which is the
    test modelled here.  In floating point rounding can leave a tiny
    non-zero pivot in a singular matrix, which numpy then inverts without
    an error; what is proved below about the singular branch is therefore
    stated for matrices on which the two tests agree (see
    [has_zero_row]). *)
Definition linalg_inv (M : matrix) : result matrix :=
  if is_square M
  then
    if Req_dec_T (det M) 0
    then Raise (LinAlgError "Singular matrix")
    else Ok (inverse M)
  else Raise (LinAlgError "Last 2 dimensions of the array must be square").

Definition column (j : nat) (M : matrix) : vector :=
  map (fun row => nth j row 0) M.

Definition ncols (M : matrix) : nat :=
  match M with
  | [] => O
  | row :: _ => List.length row
  end.

(** [np.dot] of two vectors, and of a vector with a matrix. *)
Definition dot_vv (u v : vector) : result R :=
  if Nat.eqb (List.length u) (List.length v)
  then Ok (np_sum (zip_with Rmult u v))
  else Raise (ValueError "shapes not aligned").

Definition dot_vm (u : vector) (M : matrix) : result vector :=
  if Nat.eqb (List.length u) (List.length M)
  then Ok (map (fun j => np_sum (zip_with Rmult u (column j M)))
             (seq 0 (ncols M)))
  else Raise (ValueError "shapes not aligned").

(** [np.dot(np.dot(diff, inv_cov), diff)] for operands of matching
    dimension *)
Definition quadratic_form (diff : vector) (inv_cov : matrix) : R :=
  np_sum
    (zip_with Rmult
       (map (fun j => np_sum (zip_with Rmult diff (column j inv_cov)))
          (seq 0 (ncols inv_cov)))
       diff).

Definition mahalanobis_distance (x centroid : vector) (cov : matrix)
    : result npfloat :=
  diff <- np_sub x centroid ;;
  match linalg_inv cov with
  | Ok inv_cov =>
      t <- dot_vm diff inv_cov ;;
      q <- dot_vv t diff ;;
      Ok (np_sqrt q)
  | Raise (LinAlgError _) => Ok (np_sqrt (sum_squares diff))
  | Raise e => Raise e
  end.

Definition euclidean_distance (x centroid : vector) : result npfloat :=
  diff <- np_sub x centroid ;;
  Ok (np_sqrt (sum_squares diff)).



(** [s * np.eye(3)] *)
Definition scaled_identity_3 (s : R) : matrix :=
  [[s; 0; 0]; [0; s; 0]; [0; 0; s]].

End Mahalanobis.

(** ** [meteorica/parameters/mcc.py] *)

Module Mcc.
Import Py Mahalanobis.
Local Open Scope R_scope.
Local Open Scope string_scope.

(** One entry of [GROUP_CENTROIDS]; [None] is Python's [None]. *)
Record centroid_row : Type := mkRow {
  fa : option R;
  fs : option R;
  d17O : option R;
  ni : option R
}.

Definition GROUP_CENTROIDS : dict centroid_row :=
  [ ("H", mkRow (Some 18.5) (Some 16.5) (Some 0.75) None);
    ("L", mkRow (Some 24.5) (Some 21.0) (Some 1.05) None);
    ("LL", mkRow (Some 29.0) (Some 24.5) (Some 1.25) None);
    ("CI", mkRow None None (Some (-2.5)) None);
    ("CM", mkRow None None (Some (-3.0)) None);
    ("CO", mkRow (Some 12.0) (Some 3.5) (Some (-4.5)) None);
    ("CV", mkRow (Some 8.5) (Some 2.0) (Some (-3.8)) None);
    ("CR", mkRow (Some 3.5) (Some 2.0) (Some (-1.5)) None);
    ("IAB", mkRow None None None (Some 8.5));
    ("IIAB", mkRow None None None (Some 5.6));
    ("IIIAB", mkRow None None None (Some 8.2));
    ("IVA", mkRow None None None (Some 8.0));
    ("IVB", mkRow None None None (Some 16.5)) ].

Definition GROUP_COVARIANCES : dict matrix :=
  [ ("H", [[2.5; 1.2; 0.1]; [1.2; 2.3; 0.08]; [0.1; 0.08; 0.04]]);
    ("L", [[2.8; 1.4; 0.12]; [1.4; 2.6; 0.1]; [0.12; 0.1; 0.05]]);
    ("LL", [[3.0; 1.5; 0.15]; [1.5; 2.8; 0.12]; [0.15; 0.12; 0.06]]) ].

(** [np.eye(3) * 2.0] *)
Definition default_covariance : matrix :=
  [[2; 0; 0]; [0; 2; 0]; [0; 0; 2]].

(** [GROUP_COVARIANCES.get(g, np.eye(3) * 2.0)] *)
Definition covariance_of (g : string) : matrix :=
  get_default g default_covariance GROUP_COVARIANCES.

(** [min_distance]: [float('inf')] until a group has been accepted. *)
Inductive min_dist : Type :=
| PosInf
| Dist (d : R).

(** [distance < min_distance]; every comparison with [nan] is false. *)
Definition closer (distance : npfloat) (min_distance : min_dist) : bool :=
  match distance, min_distance with
  | NaN, _ => false
  | Fin _, PosInf => true
  | Fin d, Dist m => if Rlt_dec d m then true else false
  end.

(** [max(0, 1 - min_distance / d_max)]; with [min_distance = inf] the
    second argument is [-inf] and the result is 0. *)
Definition score (min_distance : min_dist) (d_max : R) : R :=
  match min_distance with
  | Dist d => py_max_R 0 (1 - d / d_max)
  | PosInf => 0
  end.

(** The returned dictionary; the stony path sets ['centroid'] and the
    iron path ['ni_content'], the other key is absent. *)
Record mcc_result : Type := mkMcc {
  mcc : R;
  group : option string;
  distance : min_dist;
  centroid : option (option vector);
  ni_content : option R
}.

(** An array built from dictionary values is usable in arithmetic only
    when no entry is [None]. *)
Fixpoint float_array (l : list (option R)) : result vector :=
  match l with
  | [] => Ok []
  | Some r :: l' => v <- float_array l' ;; Ok (r :: v)
  | None :: _ => Raise TypeError
  end.

Record search_state : Type := mkSearch {
  min_distance : min_dist;
  best_group : option string;
  best_centroid : option vector
}.

Definition initial_search : search_state := mkSearch PosInf None None.

Fixpoint stony_loop (groups : dict centroid_row) (obs : list (option R))
    (st : search_state) : result search_state :=
  match groups with
  | [] => Ok st
  | (g, centroid_data) :: rest =>
      match fa centroid_data with
      | None => stony_loop rest obs st
      | Some _ =>
          let cov := covariance_of g in
          x <- float_array obs ;;
          centroid <- float_array [fa centroid_data; fs centroid_data;
                                   d17O centroid_data] ;;
          distance <- mahalanobis_distance x centroid cov ;;
          stony_loop rest obs
            (if closer distance (min_distance st)
             then
               match distance with
               | Fin d => mkSearch (Dist d) (Some g) (Some centroid)
               | NaN => st
               end
             else st)
      end
  end.

Definition _calculate_mcc_stony (mineral_data : dict (option R))
    (group : option string) : result mcc_result :=
  let obs := [ get_default "fa" (Some 0) mineral_data;
               get_default "fs" (Some 0) mineral_data;
               get_default "d17O" (Some 0) mineral_data ] in
  st <- stony_loop GROUP_CENTROIDS obs initial_search ;;
  let d_max := 5 in
  Ok (mkMcc (score (min_distance st) d_max) (best_group st)
        (min_distance st) (Some (best_centroid st)) None).

Fixpoint iron_loop (groups : dict centroid_row) (ni_content : R)
    (min_distance : min_dist) (best_group : option string)
    : min_dist * option string :=
  match groups with
  | [] => (min_distance, best_group)
  | (g, centroid_data) :: rest =>
      match ni centroid_data with
      | None => iron_loop rest ni_content min_distance best_group
      | Some c =>
          let distance := Rabs (ni_content - c) in
          if closer (Fin distance) min_distance
          then iron_loop rest ni_content (Dist distance) (Some g)
          else iron_loop rest ni_content min_distance best_group
      end
  end.

Definition _calculate_mcc_iron (mineral_data : dict (option R))
    (group : option string) : result mcc_result :=
  match get_default "ni" (Some 0) mineral_data with
  | None => Raise TypeError
  | Some ni_content =>
      let '(min_distance, best_group) :=
        iron_loop GROUP_CENTROIDS ni_content PosInf None in
      let d_max := 5 in
      Ok (mkMcc (score min_distance d_max) best_group min_distance None
            (Some ni_content))
  end.

Definition calculate_mcc (mineral_data : dict (option R))
    (group : option string) : result mcc_result :=
  match get "ni" mineral_data with
  | Some (Some _) => _calculate_mcc_iron mineral_data group
  | _ => _calculate_mcc_stony mineral_data group
  end.

(** The candidates of the stony search among some rows of the centroid
    table: the rows with all three stony fields, with their centroid and
    covariance. *)
Definition stony_groups_of (rows : dict centroid_row)
    : list (string * vector * matrix) :=
  flat_map
    (fun '(g, row) =>
       match fa row, fs row, d17O row with
       | Some a, Some b, Some c => [(g, [a; b; c], covariance_of g)]
       | _, _, _ => []
       end)
    rows.

Definition stony_groups : list (string * vector * matrix) :=
  stony_groups_of GROUP_CENTROIDS.

Definition distance_to (x : vector) (entry : string * vector * matrix)
    : result npfloat :=
  let '(_, c, cov) := entry in mahalanobis_distance x c cov.

(** A row the search can process for the observation [x]: skipped, or
    complete with a distance that is computed without an exception. *)
Definition row_ok (x : vector) (entry : string * centroid_row) : Prop :=
  fa (snd entry) = None
  \/ exists a b c f,
       fa (snd entry) = Some a /\ fs (snd entry) = Some b
       /\ d17O (snd entry) = Some c
       /\ mahalanobis_distance x [a; b; c] (covariance_of (fst entry)) = Ok f.

(** The search state after the candidates [seen]: nothing accepted and
    every distance so far [nan], or the first nearest candidate. *)
Definition nearest_so_far (x : vector) (st : search_state)
    (seen : list (string * vector * matrix)) : Prop :=
  match min_distance st with
  | PosInf =>
      best_group st = None /\ best_centroid st = None
      /\ forall entry, In entry seen -> distance_to x entry = Ok NaN
  | Dist d =>
      exists g c cov,
        In (g, c, cov) seen
        /\ best_group st = Some g /\ best_centroid st = Some c
        /\ mahalanobis_distance x c cov = Ok (Fin d)
        /\ forall entry d',
             In entry seen -> distance_to x entry = Ok (Fin d') -> d <= d'
  end.

(** A stony field of the input is usable when the key is absent or holds
    a number. *)
Definition field_usable (k : string) (mineral_data : dict (option R)) : Prop :=
  get k mineral_data <> Some None.

(** The observation vector with absent fields replaced by 0. *)
Definition zero_filled (mineral_data : dict (option R)) : vector :=
  map (fun k =>
         match get k mineral_data with
         | Some (Some r) => r
         | _ => 0
         end)
    ["fa"; "fs"; "d17O"].

(** The squared distance of the all-zero observation to each stony
    group. *)
Definition squared_distance_from_zero (g : string) : R :=
  if String.eqb g "H" then 1044199 / 6104
  else if String.eqb g "L" then 2990715 / 11708
  else if String.eqb g "LL" then 21947 / 66
  else if String.eqb g "CO" then 353 / 4
  else if String.eqb g "CV" then 9069 / 200
  else 37 / 4.

(** The candidates of the iron search: the rows with a nickel value. *)
Definition iron_groups_of (rows : dict centroid_row) : list (string * R) :=
  flat_map
    (fun '(g, row) =>
       match ni row with
       | Some c => [(g, c)]
       | None => []
       end)
    rows.

Definition iron_groups : list (string * R) := iron_groups_of GROUP_CENTROIDS.

(** The state of the iron search after the candidates [seen]. *)
Definition iron_nearest (ni_content : R) (min_distance : min_dist)
    (best_group : option string) (seen : list (string * R)) : Prop :=
  match min_distance with
  | PosInf => best_group = None /\ seen = []
  | Dist d =>
      exists g c,
        In (g, c) seen /\ best_group = Some g
        /\ d = Rabs (ni_content - c)
        /\ forall g' c', In (g', c') seen -> d <= Rabs (ni_content - c')
  end.

(** An accepted distance is never negative. *)
Definition nonneg_min (min_distance : min_dist) : Prop :=
  match min_distance with
  | PosInf => True
  | Dist d => 0 <= d
  end.

End Mcc.

(** ** [meteorica/parameters/iaf.py] *)

Module Iaf.
Import Py Mahalanobis.
Local Open Scope R_scope.
Local Open Scope string_scope.

Definition GROUP_ISOTOPE_CENTROIDS : dict vector :=
  [ ("CI", [0.0; 0.0; 0.0; 0.0; 0.0; 0.0; 0.0]);
    ("CM", [1.2; 0.88; -0.3; -0.2; 0.1; -0.1; 0.0]);
    ("CR", [2.1; 1.53; -0.8; -0.5; 0.3; -0.2; -0.1]);
    ("CO", [1.8; 1.20; -0.5; -0.3; 0.2; -0.15; -0.05]);
    ("CV", [1.5; 1.05; -0.4; -0.25; 0.15; -0.12; -0.03]);
    ("H", [0.5; 0.3; 0.1; 0.05; 0.02; 0.01; 0.0]);
    ("L", [0.6; 0.4; 0.15; 0.08; 0.03; 0.02; 0.0]);
    ("LL", [0.7; 0.5; 0.2; 0.1; 0.04; 0.03; 0.0]);
    ("EH", [-0.2; -0.1; 0.0; 0.0; 0.0; 0.0; 0.0]);
    ("EL", [-0.15; -0.05; 0.0; 0.0; 0.0; 0.0; 0.0]) ].

Definition GROUP_DISPERSION : dict R :=
  [ ("CI", 0.5); ("CM", 0.6); ("CR", 0.7); ("CO", 0.6); ("CV", 0.6);
    ("H", 0.4); ("L", 0.4); ("LL", 0.4); ("EH", 0.3); ("EL", 0.3) ].

Definition ISOTOPE_NAMES : list string :=
  [ "ε⁵⁰Ti"; "ε⁵⁴Cr"; "ε⁹⁶Mo"; "ε¹⁰⁰Mo"; "ε⁹²Ru"; "ε¹³⁷Ba"; "ε¹⁴²Nd" ].

(** The observation built from an input without any isotope key. *)
Definition zeros7 : vector := [0; 0; 0; 0; 0; 0; 0].

Record iaf_result : Type := mkIaf {
  iaf : R;
  group : option string;
  distance : Mcc.min_dist;
  sigma : R;
  is_outlier : bool;
  all_distances : dict npfloat;
  centroid : option vector
}.

Record search_state : Type := mkSearch {
  min_distance : Mcc.min_dist;
  best_group : option string;
  best_centroid : option vector;
  distances : dict npfloat
}.

Fixpoint iaf_loop (groups : dict vector) (obs : vector) (st : search_state)
    : result search_state :=
  match groups with
  | [] => Ok st
  | (g, centroid) :: rest =>
      diff <- np_sub obs centroid ;;
      let distance := np_sqrt (sum_squares diff) in
      let all_distances := set g distance (distances st) in
      iaf_loop rest obs
        (if Mcc.closer distance (min_distance st)
         then
           match distance with
           | Fin d => mkSearch (Mcc.Dist d) (Some g) (Some centroid)
                        all_distances
           | NaN => mkSearch (min_distance st) (best_group st)
                      (best_centroid st) all_distances
           end
         else mkSearch (min_distance st) (best_group st) (best_centroid st)
                all_distances)
  end.

(** [best_group] may be [None] in [GROUP_DISPERSION.get(best_group, 0.5)]. *)
Definition dispersion_of (best_group : option string) : R :=
  match best_group with
  | Some g => get_default g 0.5 GROUP_DISPERSION
  | None => 0.5
  end.

(** [np.exp(-(min_distance ** 2) / (2 * sigma ** 2))]; [exp(-inf)] is 0,
    and so is the result for a group far enough away. *)
Definition gaussian_match (min_distance : Mcc.min_dist) (sigma : R) : R :=
  match min_distance with
  | Mcc.Dist d => np_exp (- (d ^ 2) / (2 * sigma ^ 2))
  | Mcc.PosInf => 0
  end.

Definition calculate_iaf (isotope_data : dict R) : result iaf_result :=
  let obs := map (fun name => get_default name 0 isotope_data)
               ISOTOPE_NAMES in
  st <- iaf_loop GROUP_ISOTOPE_CENTROIDS obs
          (mkSearch Mcc.PosInf None None []) ;;
  let sigma := dispersion_of (best_group st) in
  let iaf := gaussian_match (min_distance st) sigma in
  let is_outlier := if Rlt_dec iaf 0.3 then true else false in
  Ok (mkIaf iaf (best_group st) (min_distance st) sigma is_outlier
        (distances st) (best_centroid st)).

(** The dictionary returned by [detect_presolar_grains]; the
    ['recommendation'] key is present only when a signature is detected. *)
Record presolar_result : Type := mkPresolar {
  presolar_detected : bool;
  presolar_iaf : R;
  nearest_group : option string;
  confidence : R;
  recommendation : option string
}.

Definition detect_presolar_grains (isotope_data : dict R) (threshold : R)
    : result presolar_result :=
  iaf_result <- calculate_iaf isotope_data ;;
  if is_outlier iaf_result
  then Ok (mkPresolar true (iaf iaf_result) (group iaf_result)
             (1 - iaf iaf_result) (Some "NanoSIMS analysis recommended"))
  else Ok (mkPresolar false (iaf iaf_result) (group iaf_result)
             (iaf iaf_result) None).

(** The observation vector [calculate_iaf] builds from its input. *)
Definition observation (isotope_data : dict R) : vector :=
  map (fun name => get_default name 0 isotope_data) ISOTOPE_NAMES.

(** [np.sqrt(np.sum((obs - centroid) ** 2))] for vectors of equal length *)
Definition euclid (obs centroid : vector) : R :=
  sqrt (sum_squares (zip_with Rminus obs centroid)).

(** The search state after the groups [seen]. *)
Definition iaf_nearest (obs : vector) (st : search_state)
    (seen : dict vector) : Prop :=
  match min_distance st with
  | Mcc.PosInf =>
      seen = [] /\ best_group st = None /\ best_centroid st = None
  | Mcc.Dist d =>
      exists g c,
        In (g, c) seen /\ best_group st = Some g /\ best_centroid st = Some c
        /\ d = euclid obs c
        /\ forall g' c', In (g', c') seen -> d <= euclid obs c'
  end.

End Iaf.

(** ** [meteorica/parameters/cnea.py] *)

Module Cnea.
Import Py.
Local Open Scope R_scope.
Local Open Scope string_scope.

Definition PRODUCTION_RATES : dict R :=
  [ ("he3", 1.5); ("ne21", 0.35); ("ar38", 0.08);
    ("be10", 0.05); ("al26", 0.07); ("cl36", 0.03) ].

Definition HALF_LIVES : dict R :=
  [ ("be10", 1.387); ("al26", 0.717); ("cl36", 0.301) ].

Definition STABLE : list string := ["he3"; "ne21"; "ar38"].
Definition RADIOACTIVE : list string := ["be10"; "al26"; "cl36"].

(** The dictionary returned by [check_concordance]. *)
Record concordance : Type := mkConcordance {
  mean_age : R;
  max_deviation_sigma : R;
  threshold_sigma : R;
  deviations : dict R;
  concordant : bool
}.

(** The dictionary returned by [calculate_cnea]; the early return for no
    usable nuclide has no ['concordia'] key. *)
Record cnea_result : Type := mkCnea {
  cnea : R;
  age_ma : R;
  exposure_history : string;
  is_concordant : bool;
  ages : dict R;
  uncertainties : dict R;
  concordia : option concordance;
  nuclides_analyzed : list string
}.

(** First loop: the stable nuclides. *)
Fixpoint stable_loop (nuclides : list string)
    (nuclide_data : dict (option R)) (ages uncertainties : dict R)
    : dict R * dict R :=
  match nuclides with
  | [] => (ages, uncertainties)
  | nuclide :: rest =>
      match get nuclide nuclide_data with
      | Some (Some concentration) =>
          if Rle_dec concentration 0
          then stable_loop rest nuclide_data ages uncertainties
          else
            let P := get_default nuclide 0 PRODUCTION_RATES in
            if Rlt_dec 0 P
            then
              let age := concentration / P in
              stable_loop rest nuclide_data (set nuclide age ages)
                (set nuclide (0.08 * age) uncertainties)
            else stable_loop rest nuclide_data ages uncertainties
      | _ => stable_loop rest nuclide_data ages uncertainties
      end
  end.

(** The age and uncertainty of one radioactive nuclide (saturation
    model), as the body of the second loop computes them. *)
Definition saturation_age (P half_life concentration : R) : R * R :=
  let decay_const := ln 2 / half_life in
  let N_sat := P / decay_const in
  if Rlt_dec concentration N_sat
  then
    let age := - ln (1 - concentration / N_sat) / decay_const in
    (age, 0.12 * age)
  else
    let age := 3 * half_life in
    (age, 0.20 * age).

(** Second loop: the radioactive nuclides. *)
Fixpoint radioactive_loop (nuclides : list string)
    (nuclide_data : dict (option R)) (ages uncertainties : dict R)
    : dict R * dict R :=
  match nuclides with
  | [] => (ages, uncertainties)
  | nuclide :: rest =>
      match get nuclide nuclide_data with
      | Some (Some concentration) =>
          if Rle_dec concentration 0
          then radioactive_loop rest nuclide_data ages uncertainties
          else
            let P := get_default nuclide 0 PRODUCTION_RATES in
            match get nuclide HALF_LIVES with
            | Some half_life =>
                if Rlt_dec 0 P
                then
                  if Req_dec_T half_life 0
                  then radioactive_loop rest nuclide_data ages uncertainties
                  else
                    let '(age, uncertainty) :=
                      saturation_age P half_life concentration in
                    radioactive_loop rest nuclide_data
                      (set nuclide age ages)
                      (set nuclide uncertainty uncertainties)
                else radioactive_loop rest nuclide_data ages uncertainties
            | None => radioactive_loop rest nuclide_data ages uncertainties
            end
      | _ => radioactive_loop rest nuclide_data ages uncertainties
      end
  end.

Definition np_sum (l : list R) : R := fold_right Rplus 0 l.

Definition np_mean (l : list R) : R := np_sum l / INR (List.length l).

(** [np.average(values, weights=weights)] *)
Definition np_average (values weights : list R) : R :=
  np_sum (map (fun '(v, w) => v * w) (combine values weights))
  / np_sum weights.

(** The numerator of [np.average]. *)
Definition weighted (vals weights : list R) : R :=
  np_sum (map (fun '(v, w) => v * w) (combine vals weights)).

(** The loop collecting inverse-variance weights. *)
Fixpoint weight_loop (items : dict R) (uncertainties : dict R)
    (weights values : list R) : list R * list R :=
  match items with
  | [] => (weights, values)
  | (nuclide, age) :: rest =>
      let sigma := get_default nuclide 0 uncertainties in
      if Rlt_dec 0 sigma
      then weight_loop rest uncertainties (weights ++ [1 / sigma ^ 2])
             (values ++ [age])
      else weight_loop rest uncertainties weights values
  end.

Fixpoint deviation_loop (items : dict R) (uncertainties : dict R)
    (mean_age max_dev : R) (deviations : dict R) : R * dict R :=
  match items with
  | [] => (max_dev, deviations)
  | (nuclide, age) :: rest =>
      let sigma := get_default nuclide 0 uncertainties in
      if Rlt_dec 0 sigma
      then
        let dev := Rabs (age - mean_age) / sigma in
        deviation_loop rest uncertainties mean_age (py_max_R max_dev dev)
          (set nuclide dev deviations)
      else deviation_loop rest uncertainties mean_age max_dev deviations
  end.

Definition check_concordance (ages uncertainties : dict R) (threshold : R)
    : bool * concordance :=
  if Nat.ltb (List.length ages) 2
  then
    let mean := match values ages with v :: _ => v | [] => 0 end in
    (true, mkConcordance mean 0 threshold [] true)
  else
    let mean_age := np_mean (values ages) in
    let '(max_dev, deviations) :=
      deviation_loop ages uncertainties mean_age 0 [] in
    let is_concordant := if Rle_dec max_dev threshold then true else false in
    (is_concordant,
     mkConcordance mean_age max_dev threshold deviations is_concordant).

Definition calculate_cnea (nuclide_data : dict (option R)) : cnea_result :=
  let '(ages, uncertainties) := stable_loop STABLE nuclide_data [] [] in
  let '(ages, uncertainties) :=
    radioactive_loop RADIOACTIVE nuclide_data ages uncertainties in
  match ages with
  | [] => mkCnea 0 0 "Unknown" true [] [] None []
  | _ :: _ =>
      let '(weights, vals) := weight_loop ages uncertainties [] [] in
      let mean_age :=
        match weights with
        | [] => np_mean (values ages)
        | _ :: _ => np_average vals weights
        end in
      let '(is_concordant, concordance) :=
        check_concordance ages uncertainties 2 in
      let exposure_history :=
        if is_concordant then "Single-stage" else "Multi-stage" in
      mkCnea (mean_age / 100) mean_age exposure_history is_concordant
        ages uncertainties (Some concordance) (keys ages)
  end.

Definition estimate_shielding_depth (ne21_al26_ratio : R) : R :=
  if Rle_dec ne21_al26_ratio 0 then 0
  else if Rlt_dec ne21_al26_ratio 5 then 10
  else if Rlt_dec ne21_al26_ratio 10 then 25
  else if Rlt_dec ne21_al26_ratio 20 then 50
  else 100.

(** A nuclide of the input that the two loops can use: one of the six
    known nuclides with a positive concentration. *)
Definition usable (nuclide_data : dict (option R)) (nuclide : string) : Prop :=
  In nuclide (STABLE ++ RADIOACTIVE)%list
  /\ exists concentration,
       get nuclide nuclide_data = Some (Some concentration)
       /\ 0 < concentration.

(** What the two loops maintain about the dictionaries they fill. *)
Definition recorded_ok (nuclide_data : dict (option R))
    (ages uncertainties : dict R) : Prop :=
  forall nuclide age,
    get nuclide ages = Some age ->
    usable nuclide_data nuclide /\ 0 < age
    /\ exists uncertainty,
         get nuclide uncertainties = Some uncertainty /\ 0 < uncertainty.

(** The dictionaries as the two loops leave them. *)
Definition recorded (nuclide_data : dict (option R)) : dict R * dict R :=
  let stable := stable_loop STABLE nuclide_data [] [] in
  radioactive_loop RADIOACTIVE nuclide_data (fst stable) (snd stable).

End Cnea.

(** ** [meteorica/parameters/atp.py] *)

Module Atp.
Import Py.
Local Open Scope R_scope.
Local Open Scope string_scope.

Definition STEFAN_BOLTZMANN : R := 5.67 / 10 ^ 8.

(** The entry dictionary, one optional field per key the function reads
    ([None]: the key is absent and [get] supplies the default). *)
Record entry_params : Type := mkEntry {
  velocity_km_s : option R;
  angle_deg : option R;
  diameter_m : option R;
  density_kg_m3 : option R;
  composition : option string
}.

Definition or_default {A : Type} (o : option A) (dflt : A) : A :=
  match o with Some a => a | None => dflt end.

(** [np.linspace(120, 0, n_steps)[i]] *)
Definition altitude (n_steps i : nat) : R :=
  120 + INR i * ((0 - 120) / INR (n_steps - 1)).

Definition atmos_density (alt_km : R) : R :=
  if Rlt_dec 100 alt_km
  then 1.225 * exp (- alt_km / 8.5)
  else 1.225 * (1 - alt_km / 100) ^ 4.

(** The variables the main loop updates. *)
Record loop_state : Type := mkLoop {
  T : R;
  T_max : R;
  t_peak : R;
  peak_idx : nat;
  heat_flux_profile : list R
}.

(** One pass of the loop body at index [i]; [None] is the [break]. *)
Definition loop_body (velocity diameter density : R) (n_steps i : nat)
    (st : loop_state) : option loop_state :=
  let C_H := 0.15 in
  let emissivity := 0.88 in
  let c_p := 1000 in
  let k := 2 in
  let T0 := 250 in
  let dt := 0.01 in
  let h := altitude n_steps i in
  if Rlt_dec h 10 then None
  else
    let rho_atm := atmos_density h in
    let v :=
      if Rlt_dec 80 h
      then velocity * exp (- (120 - h) / 50)
      else velocity * 0.5 in
    let q := 0.5 * C_H * rho_atm * v ^ 3 in
    let profile := (heat_flux_profile st ++ [q / 10 ^ 6])%list in
    let q_rad := STEFAN_BOLTZMANN * emissivity * T st ^ 4 in
    let q_cond := k * (T st - T0) / (diameter / 2) in
    let dT := (q - q_rad - q_cond) * dt / (density * c_p * (diameter / 2)) in
    let T' := T st + dT in
    if Rlt_dec (T_max st) T'
    then Some (mkLoop T' T' (INR i * dt) i profile)
    else Some (mkLoop T' (T_max st) (t_peak st) (peak_idx st) profile).

(** [for i in range(i, i + steps)] *)
Fixpoint main_loop (velocity diameter density : R) (n_steps : nat)
    (steps i : nat) (st : loop_state) : loop_state :=
  match steps with
  | O => st
  | S steps' =>
      match loop_body velocity diameter density n_steps i st with
      | None => st
      | Some st' =>
          main_loop velocity diameter density n_steps steps' (S i) st'
      end
  end.

Definition calculate_crust_thickness (T_max duration : R) : R :=
  let alpha := 1 / 10 ^ 6 in
  let skin_depth_m := if Rlt_dec 0 duration then sqrt (alpha * duration) else 0 in
  let skin_depth_mm := skin_depth_m * 1000 in
  if Rlt_dec 3000 T_max
  then py_min_R 2 (skin_depth_mm * 1.5)
  else py_min_R 1 skin_depth_mm.

Record airburst : Type := mkAirburst {
  detected : bool;
  burst_altitude : R;
  energy_kt : R
}.

Definition detect_airburst (T_max altitude : R) : airburst :=
  if Rltb 4500 T_max && Rltb 20 altitude
  then mkAirburst true altitude 500
  else if Rltb 4000 T_max && Rltb 15 altitude
  then mkAirburst true altitude 100
  else mkAirburst false 0 0.

Record atp_result : Type := mkAtp {
  T_max_c : R;
  T_max_k : R;
  T_max_precision : R;
  heat_flux_peak_mw_m2 : R;
  result_heat_flux_profile : list R;
  time_to_peak_s : R;
  peak_altitude_km : R;
  fusion_crust_mm : R;
  airburst_detected : bool;
  airburst_altitude_km : R;
  airburst_energy_kt : R;
  model : string
}.

(** Everything [calculate_atp] does after the main loop, as a function
    of the state the loop ended in. *)
Definition finish (velocity diameter : R) (n_steps : nat) (st : loop_state)
    : atp_result :=
  let T_max :=
    if Rltb 18000 velocity && Rltb 15 diameter
    then 4820 + 273.15
    else T_max st in
  let crust_thickness := calculate_crust_thickness T_max (t_peak st) in
  let peak_altitude :=
    if Nat.ltb 0 (peak_idx st) then altitude n_steps (peak_idx st) else 23 in
  let airburst := detect_airburst T_max peak_altitude in
  mkAtp (T_max - 273.15) T_max 180
    (if Nat.ltb (peak_idx st) (List.length (heat_flux_profile st))
     then nth (peak_idx st) (heat_flux_profile st) 0
     else 0)
    (heat_flux_profile st) (t_peak st) peak_altitude crust_thickness
    (detected airburst) (burst_altitude airburst) (energy_kt airburst)
    "METEORICA ATP v1.0".

(** The state at the end of the main loop of [calculate_atp]. *)
Definition integrate (velocity diameter density : R) (n_steps : nat)
    : loop_state :=
  let T0 := 250 in
  main_loop velocity diameter density n_steps (n_steps - 1) 1
    (mkLoop T0 T0 0 0 []).

Definition calculate_atp (p : entry_params) : atp_result :=
  let velocity := or_default (velocity_km_s p) 18.6 * 1000 in
  let angle_deg := or_default (angle_deg p) 18.5 in
  let diameter := or_default (diameter_m p) 19 in
  let density := or_default (density_kg_m3 p) 3300 in
  let composition := or_default (composition p) "LL5" in
  let n_steps := 3000%nat in
  finish velocity diameter n_steps
    (integrate velocity diameter density n_steps).

(** The Chelyabinsk-like entry of the specification and of the unit
    test. *)
Definition chelyabinsk : entry_params :=
  mkEntry (Some 18.6) (Some 18.5) (Some 19) (Some 3300) (Some "LL5").

(** The quantities of the analysis of the loop for the Chelyabinsk entry
    (18600 m/s, 19 m, 3300 kg/m3, 3000 samples).  [depth i] is
    [1 - altitude[i] / 100], the base of the density polynomial, and
    [depth_step] its increment per sample. *)
Definition depth (i : nat) : R := 1.2 * INR i / 2999 - 0.2.
Definition depth_step : R := 1.2 / 2999.

(** Bounds on the rise of the temperature above the initial 250 K at the
    entry of iteration [i]: at most 0.81 K per step above 80 km, and below
    80 km the heat flux [c * depth^4] summed between fifth powers;
    radiation and conduction take at most 0.14 K per step. *)
Definition upper_rise (i : nat) : R :=
  0.81 * INR i + 11783 * Rmax (depth i) 0.2 ^ 5.
Definition lower_rise (i : nat) : R :=
  11782 * (Rmax (depth i - depth_step) 0.2 ^ 5 - 0.2 ^ 5) - 0.14 * INR i.

Definition heating_bounds (i : nat) (st : loop_state) : Prop :=
  (i <= 2750)%nat /\ T st <= T_max st
  /\ lower_rise i <= T st - 250 <= upper_rise i.

(** What the main loop maintains, at the entry of iteration [i]. *)
Definition loop_invariant (i : nat) (st : loop_state) : Prop :=
  T st <= T_max st
  /\ 250 <= T_max st
  /\ t_peak st = INR (peak_idx st) * 0.01
  /\ (peak_idx st < i)%nat
  /\ (List.length (heat_flux_profile st) + 1 = i)%nat.

End Atp.

(** ** [meteorica/fireball/atp_realtime.py]: density and drag *)

Module AtpRealtime.
Import Py.
Local Open Scope R_scope.

(** [RealTimeATP._atmospheric_density]; the scale height is 8.5 km. *)
Definition _atmospheric_density (altitude_km : R) : R :=
  if Rlt_dec 100 altitude_km
  then 1.225 * exp (- altitude_km / 8.5)
  else 1.225 * (1 - altitude_km / 100) ^ 4.

(** One step of the loop of [_calculate_velocity_profile].  When the
    previous velocity is 0 the float quotient is [nan] and [max(0, nan)]
    is 0; here the drag is 0 and the difference is 0, with the same
    result. *)
Definition velocity_step (diameter mass : R) (prev_altitude prev_velocity
    altitude : R) : R :=
  let Cd := 1 in
  let dh := prev_altitude - altitude in
  if Rle_dec dh 0 then prev_velocity
  else
    let rho := _atmospheric_density altitude in
    let drag :=
      0.5 * Cd * rho * prev_velocity ^ 2 * (PI * (diameter / 2) ^ 2) in
    let decel := drag / mass in
    let dv := decel * (dh * 1000) / prev_velocity in
    py_max_R 0 (prev_velocity - dv).

Fixpoint velocity_from (diameter mass : R) (prev_altitude prev_velocity : R)
    (altitudes : list R) : list R :=
  match altitudes with
  | [] => []
  | altitude :: rest =>
      let v :=
        velocity_step diameter mass prev_altitude prev_velocity altitude in
      v :: velocity_from diameter mass altitude v rest
  end.

(** [RealTimeATP._calculate_velocity_profile] on a float altitude array;
    [None] stands for the [IndexError] of [velocity[0] = v0] on an empty
    array. *)
Definition _calculate_velocity_profile (v0 : R) (altitude : list R)
    (diameter density : R) : option (list R) :=
  let mass := density * (4 / 3) * PI * (diameter / 2) ^ 3 in
  match altitude with
  | [] => None
  | a0 :: rest => Some (v0 :: velocity_from diameter mass a0 v0 rest)
  end.

(** A profile that never increases. *)
Fixpoint non_increasing (l : list R) : Prop :=
  match l with
  | [] => True
  | a :: l' =>
      match l' with
      | [] => True
      | b :: _ => b <= a /\ non_increasing l'
      end
  end.

End AtpRealtime.

(* ================================================================== *)
(** * Part II: lemmas and theorems                                     *)
(* ================================================================== *)

(** ** EMI: the normaliser *)

Section EmiNormalizer.
Import Py Emi.
Local Open Scope Q_scope.

Lemma np_clip_below (v lo hi : Q) :
  lo <= hi -> v <= lo -> np_clip v lo hi == lo.
Proof.
  intros Hlh Hv. unfold np_clip.
  rewrite (Q.max_r v lo) by exact Hv.
  apply Q.min_r. exact Hlh.
Qed.

Lemma np_clip_above (v lo hi : Q) :
  hi <= v -> np_clip v lo hi == hi.
Proof.
  intros Hv. unfold np_clip.
  apply Q.min_l.
  apply Qle_trans with v; [exact Hv | apply Q.le_max_l].
Qed.

Lemma np_clip_inside (v lo hi : Q) :
  lo <= v <= hi -> np_clip v lo hi == v.
Proof.
  intros [Hl Hh]. unfold np_clip.
  rewrite (Q.max_l v lo) by exact Hl.
  apply Q.min_r. exact Hh.
Qed.

Lemma np_clip_inverted (v lo hi : Q) :
  hi < lo -> np_clip v lo hi == hi.
Proof.
  intros Hlt. unfold np_clip.
  apply Q.min_l.
  apply Qle_trans with lo; [apply Qlt_le_weak; exact Hlt | apply Q.le_max_r].
Qed.

Lemma np_clip_bounds (v lo hi : Q) :
  lo <= hi -> lo <= np_clip v lo hi <= hi.
Proof.
  intros Hlh. unfold np_clip. split.
  - apply Q.min_glb; [exact Hlh | apply Q.le_max_r].
  - apply Q.le_min_l.
Qed.

Lemma normalize_parameter_found value name thresholds t :
  get name (table thresholds) = Some t ->
  normalize_parameter value name thresholds = Ok (rescale value t).
Proof.
  intros Hget. unfold normalize_parameter, rescale. rewrite Hget.
  destruct (Qeq_bool (t_max t) (t_min t)); reflexivity.
Qed.

Lemma rescale_unit_interval value t : 0 <= rescale value t <= 1.
Proof.
  unfold rescale.
  destruct (Qeq_bool (t_max t) (t_min t)) eqn:E.
  - split; discriminate.
  - apply Qeq_bool_neq in E.
    destruct (Qlt_le_dec (t_min t) (t_max t)) as [Hlt | Hge].
    + destruct (np_clip_bounds value _ _ (Qlt_le_weak _ _ Hlt)) as [Hlo Hhi].
      assert (Hd : 0 < t_max t - t_min t) by lra.
      split.
      * apply Qle_shift_div_l; [exact Hd | lra].
      * apply Qle_shift_div_r; [exact Hd | lra].
    + assert (Hinv : t_max t < t_min t).
      { apply Qle_lteq in Hge. destruct Hge as [H | H]; [exact H | ].
        exfalso. apply E. exact H. }
      rewrite (np_clip_inverted value _ _ Hinv).
      assert (Hone : (t_max t - t_min t) / (t_max t - t_min t) == 1).
      { field. lra. }
      rewrite Hone. split; discriminate.
Qed.

Lemma rescale_degenerate value t :
  t_min t == t_max t -> rescale value t = 0.5.
Proof.
  intros Heq. unfold rescale.
  assert (E : Qeq_bool (t_max t) (t_min t) = true).
  { apply Qeq_eq_bool. symmetry. exact Heq. }
  rewrite E. reflexivity.
Qed.

Lemma rescale_proper value t :
  t_min t < t_max t ->
  rescale value t
  == (np_clip value (t_min t) (t_max t) - t_min t) / (t_max t - t_min t).
Proof.
  intros Hlt. unfold rescale.
  destruct (Qeq_bool (t_max t) (t_min t)) eqn:E; [ | reflexivity].
  apply Qeq_bool_eq in E. lra.
Qed.

(** C2. For every value and every name registered in the threshold table
    (the default table or a custom one), [normalize_parameter] returns a
    number in [0,1]: 0.5 for a degenerate threshold; for [min < max], 0 at
    or below [min], 1 at or above [max], and the linear rescaling
    [(value - min) / (max - min)] in between.  For a name that is not in
    the table it raises [ValueError "Unknown parameter: <name>"]. *)
Theorem normalize_parameter_spec :
  forall (value : Q) (name : string) (thresholds : option (dict threshold)),
    match get name (table thresholds) with
    | Some t =>
        exists r : Q,
          normalize_parameter value name thresholds = Ok r
          /\ 0 <= r <= 1
          /\ (t_min t == t_max t -> r = 0.5)
          /\ (t_min t < t_max t ->
              (value <= t_min t -> r == 0)
              /\ (t_max t <= value -> r == 1)
              /\ (t_min t <= value <= t_max t ->
                  r == (value - t_min t) / (t_max t - t_min t)))
    | None =>
        normalize_parameter value name thresholds
        = Raise (ValueError ("Unknown parameter: " ++ name))
    end.
Proof.
  intros value name thresholds.
  destruct (get name (table thresholds)) as [t | ] eqn:Hget.
  - exists (rescale value t).
    split; [apply normalize_parameter_found; exact Hget | ].
    split; [apply rescale_unit_interval | ].
    split; [apply rescale_degenerate | ].
    intros Hlt. rewrite (rescale_proper value t Hlt).
    assert (Hd : ~ t_max t - t_min t == 0) by lra.
    repeat split.
    + intros Hv.
      rewrite (np_clip_below value _ _ (Qlt_le_weak _ _ Hlt) Hv).
      field. exact Hd.
    + intros Hv. rewrite (np_clip_above value (t_min t) _ Hv).
      field. exact Hd.
    + intros Hv. rewrite (np_clip_inside value _ _ Hv). reflexivity.
  - unfold normalize_parameter. rewrite Hget. reflexivity.
Qed.

End EmiNormalizer.

(** ** EMI: the fusion *)

Section EmiFusion.
Import Py Emi.
Local Open Scope Q_scope.

Lemma get_app_none {V : Type} (k : string) (d1 d2 : dict V) :
  get k d1 = None -> get k (d1 ++ d2) = get k d2.
Proof.
  induction d1 as [ | [k' v'] d1 IH]; simpl; intros H; [reflexivity | ].
  destruct (String.eqb k k'); [discriminate | apply IH; exact H].
Qed.

Lemma set_fresh {V : Type} (k : string) (v : V) (d : dict V) :
  get k d = None -> set k v d = d ++ [(k, v)].
Proof.
  induction d as [ | [k' v'] d IH]; simpl; intros H; [reflexivity | ].
  destruct (String.eqb k k'); [discriminate | ].
  rewrite IH by exact H. reflexivity.
Qed.

Lemma collect_available_gathered parameters params :
  forall available missing,
    NoDup params ->
    (forall p, In p params -> get p available = None) ->
    fst (collect_available params parameters available missing)
    = available ++ gathered parameters params.
Proof.
  induction params as [ | p rest IH]; intros available missing Hnd Hfresh.
  - simpl. rewrite app_nil_r. reflexivity.
  - inversion Hnd as [ | ? ? Hnotin Hnd']; subst.
    simpl. destruct (get p parameters) as [v | ] eqn:Hp.
    + rewrite IH.
      * rewrite set_fresh by (apply Hfresh; left; reflexivity).
        rewrite <- app_assoc. reflexivity.
      * exact Hnd'.
      * intros q Hq.
        rewrite set_fresh by (apply Hfresh; left; reflexivity).
        rewrite get_app_none by (apply Hfresh; right; exact Hq).
        simpl. destruct (String.eqb q p) eqn:E; [ | reflexivity].
        apply String.eqb_eq in E. subst q. contradiction.
    + apply IH; [exact Hnd' | ].
      intros q Hq. apply Hfresh. right. exact Hq.
Qed.

Lemma normalized_unit_interval param value :
  0 <= normalized param value <= 1.
Proof.
  unfold normalized.
  destruct (get param (table None)) as [t | ] eqn:Hget.
  - rewrite (normalize_parameter_found value param None t Hget).
    apply rescale_unit_interval.
  - unfold normalize_parameter. rewrite Hget. split; discriminate.
Qed.

Lemma gathered_cons parameters (p : string) (w : Q) part :
  gathered parameters (keys ((p, w) :: part))
  = match get p parameters with
    | Some v => (p, v) :: gathered parameters (keys part)
    | None => gathered parameters (keys part)
    end.
Proof.
  unfold gathered, keys. cbn [map flat_map fst].
  destruct (get p parameters); reflexivity.
Qed.

Lemma supplied_in_cons parameters (p : string) (w : Q) part :
  supplied_in ((p, w) :: part) parameters
  = match get p parameters with
    | Some v => (p, w, v) :: supplied_in part parameters
    | None => supplied_in part parameters
    end.
Proof.
  unfold supplied_in. cbn [flat_map].
  destruct (get p parameters); reflexivity.
Qed.

Lemma Qsum_cons (x : Q) (l : list Q) : Qsum (x :: l) = x + Qsum l.
Proof. reflexivity. Qed.

Lemma accumulate_supplied weights parameters part :
  Forall (usable_row weights) part ->
  forall ws tw,
    exists ws' tw',
      accumulate (gathered parameters (keys part)) weights None ws tw
      = Ok (ws', tw')
      /\ ws' == ws + Qsum (weighted_terms (supplied_in part parameters))
      /\ tw' == tw + Qsum (weight_terms (supplied_in part parameters)).
Proof.
  induction 1 as [ | [p w] part Hrow Hrest IH]; intros ws tw.
  - exists ws, tw. cbn. repeat split; ring.
  - destruct Hrow as [Hw [Hpos [t Ht]]]. cbn [fst snd] in Hw, Hpos, Ht.
    rewrite gathered_cons, supplied_in_cons.
    destruct (get p parameters) as [v | ] eqn:Hp; [ | apply IH].
    cbn [accumulate]. rewrite Hw.
    rewrite (normalize_parameter_found v p None t Ht). cbn [bind].
    destruct (IH (ws + w * rescale v t) (tw + w))
      as [ws' [tw' [E [Hws Htw]]]].
    exists ws', tw'. split; [exact E | ].
    unfold weighted_terms, weight_terms. cbn [map].
    fold (weighted_terms (supplied_in part parameters)).
    fold (weight_terms (supplied_in part parameters)).
    rewrite !Qsum_cons.
    unfold normalized. rewrite (normalize_parameter_found v p None t Ht).
    split.
    + rewrite Hws. ring.
    + rewrite Htw. ring.
Qed.

Lemma supplied_sums_bounds weights parameters part :
  Forall (usable_row weights) part ->
  0 <= Qsum (weighted_terms (supplied_in part parameters))
  /\ Qsum (weighted_terms (supplied_in part parameters))
     <= Qsum (weight_terms (supplied_in part parameters))
  /\ (supplied_in part parameters <> [] ->
      0 < Qsum (weight_terms (supplied_in part parameters))).
Proof.
  induction 1 as [ | [p w] part Hrow Hrest [IH0 [IH1 IH2]]].
  - cbn. repeat split; try discriminate. intros H; contradiction.
  - destruct Hrow as [_ [Hpos _]]. cbn [snd] in Hpos.
    rewrite supplied_in_cons.
    destruct (get p parameters) as [v | ] eqn:Hp;
      [ | repeat split; assumption].
    unfold weighted_terms, weight_terms. cbn [map].
    fold (weighted_terms (supplied_in part parameters)).
    fold (weight_terms (supplied_in part parameters)).
    rewrite !Qsum_cons.
    destruct (normalized_unit_interval p v) as [Hn0 Hn1].
    assert (Hp0 : 0 <= w * normalized p v).
    { apply Qmult_le_0_compat; [apply Qlt_le_weak; exact Hpos | exact Hn0]. }
    assert (Hp1 : w * normalized p v <= w).
    { setoid_replace w with (w * 1) at 2 by ring.
      apply Qmult_le_l; [exact Hpos | exact Hn1]. }
    assert (Hpos' : 0 < 0 + w) by lra.
    repeat split; try lra.
Qed.

Lemma default_weights_usable :
  Forall (usable_row DEFAULT_WEIGHTS) DEFAULT_WEIGHTS.
Proof.
  unfold DEFAULT_WEIGHTS.
  repeat (constructor;
          [ split; [reflexivity | split; [reflexivity | eexists; reflexivity]]
          | ]).
  constructor.
Qed.

Lemma default_weights_nodup : NoDup (keys DEFAULT_WEIGHTS).
Proof.
  unfold DEFAULT_WEIGHTS, keys. simpl.
  repeat (constructor; [simpl; intuition discriminate | ]).
  constructor.
Qed.

Lemma gathered_supplied_nil parameters part :
  gathered parameters (keys part) = [] <-> supplied_in part parameters = [].
Proof.
  induction part as [ | [p w] part IH]; [cbn; tauto | ].
  rewrite gathered_cons, supplied_in_cons.
  destruct (get p parameters); [split; discriminate | exact IH].
Qed.

Lemma gathered_nil_of_absent parameters params :
  (forall p, In p params -> get p parameters = None) ->
  gathered parameters params = [].
Proof.
  induction params as [ | p rest IH]; intros Habs; [reflexivity | ].
  unfold gathered. simpl.
  rewrite (Habs p) by (left; reflexivity). simpl.
  apply IH. intros q Hq. apply Habs. right. exact Hq.
Qed.

Lemma calculate_emi_unfold parameters :
  calculate_emi parameters None None
  = match gathered parameters (keys DEFAULT_WEIGHTS) with
    | [] => Ok 0
    | (_ :: _) as available =>
        acc <- accumulate available DEFAULT_WEIGHTS None 0 0 ;;
        (let '(weighted_sum, total_weight) := acc in
         if Qlt_le_dec 0 total_weight
         then Ok (weighted_sum / total_weight)
         else Ok 0)
    end.
Proof.
  unfold calculate_emi.
  pose proof (collect_available_gathered parameters (keys DEFAULT_WEIGHTS)
                [] [] default_weights_nodup (fun _ _ => eq_refl)) as H.
  destruct (collect_available (keys DEFAULT_WEIGHTS) parameters [] [])
    as [available missing].
  cbn [fst app] in H. subst available.
  destruct (gathered parameters (keys DEFAULT_WEIGHTS)); reflexivity.
Qed.

(** C1. With the default weights and thresholds, [calculate_emi] returns,
    for every input mapping, a number in [0,1] equal to the
    weight-renormalised sum of the normalised supplied parameters; when
    none of the seven parameters is supplied it returns the literal 0 and
    raises nothing; in particular the empty mapping gives 0. *)
Theorem calculate_emi_spec :
  forall parameters : dict Q,
    exists emi : Q,
      calculate_emi parameters None None = Ok emi
      /\ 0 <= emi <= 1
      /\ emi == emi_formula parameters
      /\ ((forall p, In p (keys DEFAULT_WEIGHTS) -> get p parameters = None)
          -> emi = 0)
      /\ calculate_emi [] None None = Ok 0.
Proof.
  intros parameters.
  rewrite calculate_emi_unfold.
  destruct (gathered parameters (keys DEFAULT_WEIGHTS)) as [ | item items] eqn:Hg.
  - exists 0. split; [reflexivity | ].
    split; [split; discriminate | ].
    split; [ | split; [reflexivity | reflexivity]].
    unfold emi_formula, supplied.
    apply gathered_supplied_nil in Hg. rewrite Hg. reflexivity.
  - destruct (accumulate_supplied DEFAULT_WEIGHTS parameters DEFAULT_WEIGHTS
                default_weights_usable 0 0) as [ws [tw [E [Hws Htw]]]].
    destruct (supplied_sums_bounds DEFAULT_WEIGHTS parameters DEFAULT_WEIGHTS
                default_weights_usable) as [B0 [B1 B2]].
    assert (Hne : supplied_in DEFAULT_WEIGHTS parameters <> []).
    { intros Hnil. apply gathered_supplied_nil in Hnil.
      rewrite Hnil in Hg. discriminate. }
    specialize (B2 Hne).
    rewrite Hg in E. rewrite E. cbn [bind].
    rewrite Qplus_0_l in Hws, Htw.
    assert (Htw0 : 0 < tw) by (rewrite Htw; exact B2).
    destruct (Qlt_le_dec 0 tw) as [_ | Hle]; [ | lra].
    exists (ws / tw). split; [reflexivity | ].
    split.
    + split.
      * apply Qle_shift_div_l; [exact Htw0 | lra].
      * apply Qle_shift_div_r; [exact Htw0 | lra].
    + split.
      * unfold emi_formula, supplied.
        destruct (supplied_in DEFAULT_WEIGHTS parameters) as [ | s ss] eqn:Hs;
          [contradiction | ].
        rewrite Hws, Htw. reflexivity.
      * split; [ | reflexivity].
        intros Habs.
        rewrite (gathered_nil_of_absent parameters (keys DEFAULT_WEIGHTS) Habs)
          in Hg.
        discriminate.
Qed.

End EmiFusion.

(** ** SMG: the indicator mappings *)

Section SmgMonotone.
Import Py Smg.
Local Open Scope Q_scope.

Ltac step_cases :=
  repeat match goal with
         | |- context [Qlt_le_dec ?x ?y] => destruct (Qlt_le_dec x y)
         end;
  lra.

Lemma olivine_nondecreasing : nondecreasing_on_unit olivine_to_pressure.
Proof. intros a b _ Hab _. unfold olivine_to_pressure. step_cases. Qed.

Lemma feldspar_nondecreasing : nondecreasing_on_unit feldspar_to_pressure.
Proof. intros a b _ Hab _. unfold feldspar_to_pressure. step_cases. Qed.

Lemma metal_nondecreasing : nondecreasing_on_unit metal_to_pressure.
Proof. intros a b _ Hab _. unfold metal_to_pressure. lra. Qed.

Lemma high_pressure_nondecreasing :
  nondecreasing_on_unit high_pressure_to_pressure.
Proof. intros a b _ Hab _. unfold high_pressure_to_pressure. step_cases. Qed.

Lemma sulfide_nondecreasing : nondecreasing_on_unit sulfide_to_pressure.
Proof. intros a b _ Hab _. unfold sulfide_to_pressure. lra. Qed.

Lemma porosity_nonincreasing : nonincreasing_on_unit porosity_to_pressure.
Proof. intros a b _ Hab _. unfold porosity_to_pressure. lra. Qed.

(** C9. Every function registered in [INDICATOR_FUNCTIONS] is monotonic on
    the indicator range [0,1]: the porosity mapping is non-increasing and
    the five others are non-decreasing. *)
Theorem indicator_functions_monotone :
  forall (name : string) (f : Q -> Q),
    get name INDICATOR_FUNCTIONS = Some f ->
    monotone_on_unit f
    /\ (if String.eqb name "porosity"
        then nonincreasing_on_unit f
        else nondecreasing_on_unit f).
Proof.
  intros name f Hget. unfold INDICATOR_FUNCTIONS in Hget. cbn [get] in Hget.
  repeat match type of Hget with
         | (if String.eqb name ?k then _ else _) = _ =>
             let E := fresh "E" in
             destruct (String.eqb name k) eqn:E;
             [ apply String.eqb_eq in E; subst name;
               injection Hget as <-
             | ]
         end;
  try discriminate Hget;
  cbn [String.eqb Ascii.eqb Bool.eqb];
  try rewrite String.eqb_refl;
  (split; [ first [ left; solve [ auto using olivine_nondecreasing,
                                    feldspar_nondecreasing,
                                    metal_nondecreasing,
                                    high_pressure_nondecreasing,
                                    sulfide_nondecreasing ]
                  | right; exact porosity_nonincreasing ]
          | auto using olivine_nondecreasing, feldspar_nondecreasing,
              metal_nondecreasing, high_pressure_nondecreasing,
              sulfide_nondecreasing, porosity_nonincreasing ]).
Qed.

Lemma indicator_functions_monotone_witness :
  get "porosity"%string INDICATOR_FUNCTIONS = Some porosity_to_pressure
  /\ monotone_on_unit porosity_to_pressure.
Proof.
  split; [reflexivity | ].
  apply (indicator_functions_monotone "porosity" porosity_to_pressure).
  reflexivity.
Defined.

End SmgMonotone.

(** ** PBDR: the validity filter and the clamped depletion *)

Section PbdrFilter.
Import Py Pbdr.
Local Open Scope Q_scope.

Lemma ci_reference_positive (element : string) (reference : Q) :
  get element CI_HSE_ABUNDANCES = Some reference -> 0 < reference.
Proof.
  unfold CI_HSE_ABUNDANCES. cbn [get]. intros H.
  repeat match type of H with
         | (if ?c then _ else _) = _ =>
             destruct c; [injection H as <-; reflexivity | ]
         end.
  discriminate H.
Qed.

Lemma Qle_bool_false_lt (x y : Q) : Qle_bool x y = false -> y < x.
Proof.
  intros H. apply Qnot_le_lt. intros Hle.
  apply Qle_bool_iff in Hle. congruence.
Qed.

Lemma Qle_bool_true_le (x y : Q) : Qle_bool x y = true -> x <= y.
Proof. apply Qle_bool_iff. Qed.

Lemma Qle_bool_inject_Z (z : Z) : Qle_bool (inject_Z z) 0 = (z <=? 0)%Z.
Proof. unfold Qle_bool. cbn. rewrite Z.mul_1_r. reflexivity. Qed.

(** The filter line on a value that is not an int of [2^64] or more:
    it raises nothing and excludes everything but a positive number. *)
Lemma excluded_ok (value : pyval) :
  int_overflow value = false ->
  excluded value
  = Ok (match number_of value with
        | Some q => Qle_bool q 0
        | None => true
        end).
Proof.
  unfold excluded.
  destruct value as [ | s | q | z | | | ]; cbn [int_overflow]; intros Hov;
    cbn [is_none is_number le_zero isfinite number_of negb orb bind];
    try reflexivity.
  - destruct (Qle_bool q 0); reflexivity.
  - rewrite Qle_bool_inject_Z.
    destruct (z <=? 0)%Z eqn:Hz; [reflexivity | ].
    apply Z.leb_gt in Hz. apply Z.leb_gt in Hov.
    assert (H1 : (- 2 ^ 63 <=? z)%Z = true) by (apply Z.leb_le; lia).
    assert (H2 : (z <? 2 ^ 64)%Z = true) by (apply Z.ltb_lt; lia).
    rewrite H1, H2. reflexivity.
Qed.

(** On an int of [2^64] or more the filter line raises. *)
Lemma excluded_overflow (value : pyval) :
  int_overflow value = true -> excluded value = Raise TypeError.
Proof.
  unfold excluded.
  destruct value as [ | s | q | z | | | ]; cbn [int_overflow]; intros Hov;
    try discriminate Hov.
  apply Z.leb_le in Hov.
  cbn [is_none is_number le_zero isfinite negb orb].
  assert (H0 : (z <=? 0)%Z = false) by (apply Z.leb_gt; lia).
  assert (H2 : (z <? 2 ^ 64)%Z = false) by (apply Z.ltb_ge; lia).
  rewrite H0, H2, andb_false_r. reflexivity.
Qed.

Lemma retained_entry_name (entry : string * pyval) (r : string * Q * Q) :
  retained_entry entry = Some r -> fst (fst r) = fst entry.
Proof.
  unfold retained_entry.
  destruct (number_of (snd entry)) as [q | ]; [ | discriminate].
  destruct (get (fst entry) CI_HSE_ABUNDANCES); [ | discriminate].
  destruct (Qlt_le_dec 0 q); [ | discriminate].
  intros H. injection H as <-. reflexivity.
Qed.

Lemma retained_cons (entry : string * pyval) (rest : dict pyval) :
  retained (entry :: rest)
  = match retained_entry entry with
    | Some r => r :: retained rest
    | None => retained rest
    end.
Proof.
  unfold retained. cbn [flat_map].
  destruct (retained_entry entry); reflexivity.
Qed.

(** One iteration of the loop keeps exactly the retained entry. *)
Lemma pbdr_loop_step (element : string) (value : pyval) rest ratios elements :
  int_overflow value = false ->
  pbdr_loop ((element, value) :: rest) ratios elements
  = match retained_entry (element, value) with
    | Some (_, measured, reference) =>
        pbdr_loop rest (ratios ++ [measured / reference])
          (elements ++ [element])
    | None => pbdr_loop rest ratios elements
    end.
Proof.
  intros Hov. cbn [pbdr_loop]. rewrite (excluded_ok value Hov).
  cbn [bind]. unfold retained_entry. cbn [fst snd].
  destruct (number_of value) as [q | ]; [ | reflexivity].
  destruct (get element CI_HSE_ABUNDANCES) as [reference | ] eqn:Hci.
  - pose proof (ci_reference_positive element reference Hci) as Href.
    destruct (Qle_bool q 0) eqn:Hq.
    + apply Qle_bool_true_le in Hq.
      destruct (Qlt_le_dec 0 q) as [Hpos | _]; [lra | reflexivity].
    + apply Qle_bool_false_lt in Hq.
      destruct (Qlt_le_dec 0 q) as [_ | Hle]; [ | lra].
      destruct (Qle_bool reference 0) eqn:Hr; [ | reflexivity].
      apply Qle_bool_true_le in Hr. lra.
  - destruct (Qle_bool q 0); reflexivity.
Qed.

Lemma overflowing_cons (element : string) (value : pyval) rest :
  overflowing ((element, value) :: rest)
  = int_overflow value || overflowing rest.
Proof. reflexivity. Qed.

Lemma pbdr_loop_retained items :
  overflowing items = false ->
  forall ratios elements,
    pbdr_loop items ratios elements
    = Ok (ratios ++ ratios_of (retained items),
          elements ++ elements_of (retained items)).
Proof.
  induction items as [ | [element value] rest IH]; intros Hov ratios elements.
  - cbn. rewrite !app_nil_r. reflexivity.
  - rewrite overflowing_cons in Hov. apply orb_false_elim in Hov.
    destruct Hov as [Hv Hrest].
    rewrite (pbdr_loop_step _ _ _ _ _ Hv), retained_cons.
    destruct (retained_entry (element, value)) as [[[e q] reference] | ] eqn:Hre;
      [ | apply IH; exact Hrest].
    pose proof (retained_entry_name _ _ Hre) as Hname. cbn in Hname.
    subst e. rewrite (IH Hrest). cbn [ratios_of elements_of map].
    rewrite <- !app_assoc. reflexivity.
Qed.

(** An int of [2^64] or more anywhere in the mapping stops the loop with
    [TypeError]: the entries before it raise nothing. *)
Lemma pbdr_loop_overflow items :
  overflowing items = true ->
  forall ratios elements,
    pbdr_loop items ratios elements = Raise TypeError.
Proof.
  induction items as [ | [element value] rest IH]; intros Hov ratios elements.
  - discriminate Hov.
  - rewrite overflowing_cons in Hov.
    destruct (int_overflow value) eqn:Hv.
    + cbn [pbdr_loop]. rewrite (excluded_overflow value Hv). reflexivity.
    + cbn [orb] in Hov. rewrite (pbdr_loop_step _ _ _ _ _ Hv).
      destruct (retained_entry (element, value)) as [[[e q] reference] | ];
        apply IH; exact Hov.
Qed.

Lemma overflowing_true hse_data :
  overflowing hse_data = true
  <-> exists element z, In (element, PyInt z) hse_data /\ (2 ^ 64 <= z)%Z.
Proof.
  unfold overflowing, values. rewrite existsb_exists. split.
  - intros [v [Hin Hov]]. apply in_map_iff in Hin.
    destruct Hin as [[element v'] [Hv Hin]]. cbn in Hv. subst v'.
    destruct v as [ | s | q | z | | | ]; try discriminate Hov.
    exists element, z. split; [exact Hin | ].
    apply Z.leb_le. exact Hov.
  - intros [element [z [Hin Hz]]]. exists (PyInt z). split.
    + apply in_map_iff. exists (element, PyInt z). split; [reflexivity | ].
      exact Hin.
    + apply Z.leb_le. exact Hz.
Qed.

Lemma retained_entry_iff (element : string) (value : pyval)
    (measured reference : Q) :
  retained_entry (element, value) = Some (element, measured, reference)
  <-> number_of value = Some measured /\ 0 < measured
      /\ get element CI_HSE_ABUNDANCES = Some reference.
Proof.
  unfold retained_entry. cbn [fst snd]. split.
  - destruct (number_of value) as [q | ]; [ | discriminate].
    destruct (get element CI_HSE_ABUNDANCES) as [r | ]; [ | discriminate].
    destruct (Qlt_le_dec 0 q) as [Hpos | ]; [ | discriminate].
    intros H. injection H as <- <-. repeat split. exact Hpos.
  - intros [-> [Hpos ->]].
    destruct (Qlt_le_dec 0 measured) as [_ | Hle]; [reflexivity | lra].
Qed.

(** Membership in the retained list: a finite positive number for an
    element that has a chondritic reference. *)
Lemma In_retained hse_data (element : string) (measured reference : Q) :
  In (element, measured, reference) (retained hse_data)
  <-> (exists value,
          In (element, value) hse_data /\ number_of value = Some measured)
      /\ 0 < measured
      /\ get element CI_HSE_ABUNDANCES = Some reference.
Proof.
  unfold retained. rewrite in_flat_map. split.
  - intros [[e v] [Hin Hr]].
    destruct (retained_entry (e, v)) as [r | ] eqn:Hre; [ | contradiction].
    destruct Hr as [Hr | []]. subst r.
    pose proof (retained_entry_name _ _ Hre) as Hname. cbn in Hname.
    subst e. apply retained_entry_iff in Hre.
    destruct Hre as [Hnum [Hpos Hci]].
    split; [exists v; split; assumption | split; assumption].
  - intros [[value [Hin Hnum]] [Hpos Hci]].
    exists (element, value). split; [exact Hin | ].
    assert (H : retained_entry (element, value)
                = Some (element, measured, reference)).
    { apply retained_entry_iff. repeat split; assumption. }
    rewrite H. left. reflexivity.
Qed.

Lemma py_clamp_eq (x : Q) : py_max 0 (py_min 1 x) == clamp x 0 1.
Proof.
  unfold py_max, py_min, clamp.
  destruct (Qlt_le_dec x 1) as [H1 | H1].
  - rewrite (Q.min_r 1 x) by lra.
    destruct (Qlt_le_dec 0 x) as [H0 | H0].
    + rewrite Q.max_r by lra. reflexivity.
    + rewrite Q.max_l by lra. reflexivity.
  - rewrite (Q.min_l 1 x) by lra.
    destruct (Qlt_le_dec 0 1) as [_ | H0]; [ | lra].
    rewrite Q.max_r by lra. reflexivity.
Qed.

Lemma py_clamp_unit (x : Q) : 0 <= py_max 0 (py_min 1 x) <= 1.
Proof.
  unfold py_max, py_min.
  destruct (Qlt_le_dec x 1); destruct (Qlt_le_dec 0 _); lra.
Qed.

Lemma ratios_of_nil (r : list (string * Q * Q)) :
  ratios_of r = [] <-> r = [].
Proof. destruct r; cbn; split; intros; congruence. Qed.

(** The result of [calculate_pbdr] in terms of the retained entries, on a
    mapping without an int of [2^64] or more. *)
Lemma calculate_pbdr_retained hse_data :
  overflowing hse_data = false ->
  calculate_pbdr hse_data
  = Ok (match ratios_of (retained hse_data) with
        | [] =>
            mkPbdr 0 0 "Undifferentiated (Chondritic)"
              "Undifferentiated asteroid" []
        | _ :: _ =>
            let avg_ratio := np_mean (ratios_of (retained hse_data)) in
            let pbdr := py_max 0 (py_min 1 (1 - avg_ratio)) in
            mkPbdr pbdr avg_ratio (interpret_differentiation pbdr)
              (estimate_parent_body pbdr hse_data)
              (elements_of (retained hse_data))
        end).
Proof.
  intros Hov. unfold calculate_pbdr.
  rewrite (pbdr_loop_retained hse_data Hov). cbn [bind app].
  destruct (ratios_of (retained hse_data)); reflexivity.
Qed.

(** Away from the failing inputs the filter and the formula are the
    specified ones: on a mapping without an int of [2^64] or more
    [calculate_pbdr] raises nothing, keeps exactly the entries whose value
    is a finite positive number and whose element has a chondritic
    reference, reports their elements in [elements_analyzed], returns
    [pbdr = clamp (1 - mean ratio) 0 1] over them, and for an empty
    retained set returns [pbdr = 0] with the
    "Undifferentiated (Chondritic)" classification. *)
Lemma calculate_pbdr_spec :
  forall hse_data : dict pyval,
    overflowing hse_data = false ->
    exists r : pbdr_result,
      calculate_pbdr hse_data = Ok r
      /\ elements_analyzed r = elements_of (retained hse_data)
      /\ (forall element measured reference,
             In (element, measured, reference) (retained hse_data)
             <-> (exists value,
                     In (element, value) hse_data
                     /\ number_of value = Some measured)
                 /\ 0 < measured
                 /\ get element CI_HSE_ABUNDANCES = Some reference)
      /\ (retained hse_data = [] ->
          pbdr r = 0 /\ avg_hse_ratio r = 0
          /\ differentiation r = "Undifferentiated (Chondritic)"%string
          /\ elements_analyzed r = [])
      /\ (retained hse_data <> [] -> pbdr r == pbdr_formula hse_data)
      /\ 0 <= pbdr r <= 1.
Proof.
  intros hse_data Hov. eexists.
  split; [apply (calculate_pbdr_retained hse_data Hov) | ].
  split; [ | split; [intros; apply In_retained | ]].
  - destruct (ratios_of (retained hse_data)) eqn:Hr; [ | reflexivity].
    apply ratios_of_nil in Hr. rewrite Hr. reflexivity.
  - destruct (ratios_of (retained hse_data)) as [ | x xs] eqn:Hr.
    + apply ratios_of_nil in Hr.
      split; [intros _; repeat split | ].
      split; [intros Hne; contradiction | cbn; split; discriminate].
    + assert (Hne : retained hse_data <> []).
      { intros Hnil. rewrite Hnil in Hr. discriminate. }
      split; [intros Hnil; contradiction | ].
      cbn [pbdr]. split.
      * intros _. unfold pbdr_formula. rewrite Hr.
        apply py_clamp_eq.
      * apply py_clamp_unit.
Qed.

(** C8. The filter of [calculate_pbdr] does not exclude every entry
    without error: a mapping that holds a Python int of [2^64] or more,
    under any key and at any position, makes [np.isfinite] raise
    [TypeError], and no result is returned.  (On every other mapping the
    claim holds, see [calculate_pbdr_spec].) *)
Theorem calculate_pbdr_int_overflow :
  forall (hse_data : dict pyval) (element : string) (z : Z),
    In (element, PyInt z) hse_data ->
    (2 ^ 64 <= z)%Z ->
    calculate_pbdr hse_data = Raise TypeError.
Proof.
  intros hse_data element z Hin Hz.
  assert (Hov : overflowing hse_data = true).
  { apply overflowing_true. exists element, z. split; assumption. }
  unfold calculate_pbdr.
  rewrite (pbdr_loop_overflow hse_data Hov). reflexivity.
Qed.

Lemma calculate_pbdr_int_overflow_witness :
  calculate_pbdr [("os"%string, PyInt (2 ^ 64))] = Raise TypeError.
Proof.
  apply (calculate_pbdr_int_overflow _ "os"%string (2 ^ 64)%Z).
  - left. reflexivity.
  - lia.
Defined.

End PbdrFilter.

(** ** Mahalanobis distance *)

Section MahalanobisFacts.
Import Py Mahalanobis.
Local Open Scope R_scope.

Lemma zip_with_length (f : R -> R -> R) (u v : vector) :
  List.length u = List.length v ->
  List.length (zip_with f u v) = List.length u.
Proof.
  revert v. induction u as [ | a u IH]; intros [ | b v] H;
    try discriminate; [reflexivity | ].
  cbn. f_equal. apply IH. injection H as H. exact H.
Qed.

Lemma np_sub_same_length (x centroid : vector) :
  List.length x = List.length centroid ->
  np_sub x centroid = Ok (zip_with Rminus x centroid).
Proof.
  intros H. unfold np_sub. rewrite H, Nat.eqb_refl. reflexivity.
Qed.

Lemma self_difference_zero (x : vector) : all_zero (zip_with Rminus x x).
Proof.
  induction x as [ | a x IH]; cbn; constructor; [lra | exact IH].
Qed.

Lemma dot_zero_left (u v : vector) :
  all_zero u -> np_sum (zip_with Rmult u v) = 0.
Proof.
  intros Hz. revert v. induction Hz as [ | a u Ha Hu IH]; intros v.
  - reflexivity.
  - destruct v as [ | b v]; [reflexivity | ].
    cbn. unfold np_sum in IH. rewrite IH, Ha. lra.
Qed.

Lemma dot_zero_right (u v : vector) :
  all_zero v -> np_sum (zip_with Rmult u v) = 0.
Proof.
  intros Hz. revert u. induction Hz as [ | b v Hb Hv IH]; intros u.
  - destruct u; reflexivity.
  - destruct u as [ | a u]; [reflexivity | ].
    cbn. unfold np_sum in IH. rewrite IH, Hb. lra.
Qed.

Lemma sum_squares_nonneg (diff : vector) : 0 <= sum_squares diff.
Proof.
  unfold sum_squares, np_sum.
  induction diff as [ | d diff IH]; cbn [map fold_right]; [lra | nra].
Qed.

Lemma sum_squares_zero (diff : vector) :
  all_zero diff -> sum_squares diff = 0.
Proof.
  unfold sum_squares, np_sum.
  induction 1 as [ | d diff Hd Hz IH]; cbn [map fold_right];
    [reflexivity | ].
  rewrite IH, Hd. lra.
Qed.

Lemma np_sqrt_nonneg (r : R) : 0 <= r -> np_sqrt r = Fin (sqrt r).
Proof.
  intros H. unfold np_sqrt. destruct (Rlt_dec r 0); [lra | reflexivity].
Qed.

Lemma np_sqrt_zero : np_sqrt 0 = Fin 0.
Proof. rewrite np_sqrt_nonneg by lra. rewrite sqrt_0. reflexivity. Qed.

Lemma inverse_length (M : matrix) :
  List.length (inverse M) = List.length M.
Proof. unfold inverse. rewrite length_map, length_seq. reflexivity. Qed.

Lemma inverse_ncols (M : matrix) : ncols (inverse M) = List.length M.
Proof.
  unfold inverse. destruct (List.length M) as [ | n]; [reflexivity | ].
  cbn [seq map ncols List.length].
  rewrite length_map, length_seq. reflexivity.
Qed.

Lemma linalg_inv_invertible (cov : matrix) :
  is_square cov = true -> det cov <> 0 -> linalg_inv cov = Ok (inverse cov).
Proof.
  intros Hsq Hdet. unfold linalg_inv. rewrite Hsq.
  destruct (Req_dec_T (det cov) 0); [contradiction | reflexivity].
Qed.


(** The value computed on the invertible path, for operands of matching
    dimension. *)
Lemma mahalanobis_invertible (x centroid : vector) (cov : matrix) :
  List.length x = List.length centroid ->
  List.length cov = List.length x ->
  is_square cov = true -> det cov <> 0 ->
  mahalanobis_distance x centroid cov
  = Ok (np_sqrt (quadratic_form (zip_with Rminus x centroid) (inverse cov))).
Proof.
  intros Hlen Hdim Hsq Hdet. unfold mahalanobis_distance.
  rewrite (np_sub_same_length x centroid Hlen). cbn [bind].
  rewrite (linalg_inv_invertible cov Hsq Hdet).
  assert (Hdiff : List.length (zip_with Rminus x centroid) = List.length x).
  { apply zip_with_length. exact Hlen. }
  unfold dot_vm.
  rewrite inverse_length, Hdiff, <- Hdim, Nat.eqb_refl. cbn [bind].
  unfold dot_vv.
  rewrite length_map, length_seq, inverse_ncols, Hdiff, Hdim, Nat.eqb_refl.
  cbn [bind]. unfold quadratic_form. rewrite inverse_ncols, Hdim.
  reflexivity.
Qed.

(** C5. For every vector [x] and every invertible covariance matrix of
    the same dimension, the Mahalanobis distance of [x] to itself is
    exactly 0. *)
Theorem mahalanobis_self_distance_zero :
  forall (x : vector) (cov : matrix),
    List.length cov = List.length x ->
    is_square cov = true ->
    det cov <> 0 ->
    mahalanobis_distance x x cov = Ok (Fin 0).
Proof.
  intros x cov Hdim Hsq Hdet.
  rewrite (mahalanobis_invertible x x cov eq_refl Hdim Hsq Hdet).
  unfold quadratic_form.
  rewrite (dot_zero_right _ _ (self_difference_zero x)).
  rewrite np_sqrt_zero. reflexivity.
Qed.

Lemma det_identity_2 : det [[1; 0]; [0; 1]] = 1.
Proof. unfold det. cbn. lra. Qed.

Lemma mahalanobis_self_distance_zero_witness :
  mahalanobis_distance [3; 4] [3; 4] [[1; 0]; [0; 1]] = Ok (Fin 0).
Proof.
  apply mahalanobis_self_distance_zero.
  - reflexivity.
  - reflexivity.
  - rewrite det_identity_2. lra.
Defined.












End MahalanobisFacts.

(** ** ATP: the peak-temperature override *)

Section AtpOverride.
Import Py Atp.
Local Open Scope R_scope.

Lemma Rltb_true (a b : R) : a < b -> Rltb a b = true.
Proof. intros H. unfold Rltb. destruct (Rlt_dec a b); [reflexivity | lra]. Qed.

(** Whatever state the main loop ends in, the Chelyabinsk test of
    [calculate_atp] replaces the peak temperature. *)
Lemma finish_forces_peak (velocity diameter : R) (n_steps : nat)
    (st : loop_state) :
  18000 < velocity -> 15 < diameter ->
  T_max_k (finish velocity diameter n_steps st) = 4820 + 273.15
  /\ T_max_c (finish velocity diameter n_steps st) = 4820
  /\ T_max_precision (finish velocity diameter n_steps st) = 180.
Proof.
  intros Hv Hd. unfold finish.
  rewrite (Rltb_true _ _ Hv), (Rltb_true _ _ Hd).
  cbn [andb T_max_k T_max_c T_max_precision].
  repeat split; lra.
Qed.

Lemma altitude_3000 (i : nat) : altitude 3000 i = 120 - 120 * INR i / 2999.
Proof.
  unfold altitude. change (3000 - 1)%nat with 2999%nat.
  replace (INR 2999) with 2999 by (rewrite INR_IZR_INZ; reflexivity).
  lra.
Qed.

Lemma depth_altitude (i : nat) : 1 - altitude 3000 i / 100 = depth i.
Proof. rewrite altitude_3000. unfold depth. lra. Qed.

Lemma depth_succ (i : nat) : depth (S i) = depth i + depth_step.
Proof. unfold depth, depth_step. rewrite S_INR. lra. Qed.

Lemma fifth_power_step_up (x s : R) :
  0 <= x -> 0 <= s -> 5 * s * x ^ 4 <= (x + s) ^ 5 - x ^ 5.
Proof.
  intros Hx Hs.
  replace ((x + s) ^ 5 - x ^ 5)
    with (5 * s * x ^ 4
          + s ^ 2 * (10 * x ^ 3 + 10 * x ^ 2 * s + 5 * x * s ^ 2 + s ^ 3))
    by ring.
  assert (H2 : 0 <= s ^ 2) by apply pow2_ge_0.
  assert (H3 : 0 <= 10 * x ^ 3 + 10 * x ^ 2 * s + 5 * x * s ^ 2 + s ^ 3).
  { assert (0 <= x ^ 3) by (apply pow_le; exact Hx).
    assert (0 <= x ^ 2) by (apply pow_le; exact Hx).
    assert (0 <= s ^ 3) by (apply pow_le; exact Hs).
    assert (0 <= x ^ 2 * s) by (apply Rmult_le_pos; assumption).
    assert (0 <= x * s ^ 2) by (apply Rmult_le_pos; assumption).
    lra. }
  pose proof (Rmult_le_pos _ _ H2 H3). lra.
Qed.

Lemma fifth_power_step_down (x y : R) :
  0 <= y -> y <= x -> x ^ 5 - y ^ 5 <= 5 * x ^ 4 * (x - y).
Proof.
  intros Hy Hyx.
  replace (x ^ 5 - y ^ 5)
    with ((x - y) * (x ^ 4 + x ^ 3 * y + x ^ 2 * y ^ 2 + x * y ^ 3 + y ^ 4))
    by ring.
  assert (Hx : 0 <= x) by lra.
  assert (H1 : x ^ 3 * y <= x ^ 4).
  { replace (x ^ 4) with (x ^ 3 * x) by ring.
    apply Rmult_le_compat_l; [apply pow_le; exact Hx | exact Hyx]. }
  assert (Hy2 : y ^ 2 <= x ^ 2) by (apply pow_incr; lra).
  assert (Hy3 : y ^ 3 <= x ^ 3) by (apply pow_incr; lra).
  assert (Hy4 : y ^ 4 <= x ^ 4) by (apply pow_incr; lra).
  assert (H2 : x ^ 2 * y ^ 2 <= x ^ 4).
  { replace (x ^ 4) with (x ^ 2 * x ^ 2) by ring.
    apply Rmult_le_compat_l; [apply pow_le; exact Hx | exact Hy2]. }
  assert (H3 : x * y ^ 3 <= x ^ 4).
  { replace (x ^ 4) with (x * x ^ 3) by ring.
    apply Rmult_le_compat_l; [exact Hx | exact Hy3]. }
  assert (Hd : 0 <= x - y) by lra.
  assert (Hsum : x ^ 4 + x ^ 3 * y + x ^ 2 * y ^ 2 + x * y ^ 3 + y ^ 4
                 <= 5 * x ^ 4) by lra.
  pose proof (Rmult_le_compat_l _ _ _ Hd Hsum). lra.
Qed.

(** The density above 80 km: [exp (-100 / 8.5)] is below 1/240. *)
Lemma exp_100_scale : 240 <= exp (100 / 8.5).
Proof.
  replace (100 / 8.5) with (25 / 8.5 + 25 / 8.5 + 25 / 8.5 + 25 / 8.5) by lra.
  rewrite !exp_plus.
  pose proof (exp_ineq1_le (25 / 8.5)) as H.
  assert (H1 : 3.94 <= exp (25 / 8.5)) by lra.
  set (e := exp (25 / 8.5)) in *.
  assert (H2 : 3.94 * 3.94 <= e * e) by (apply Rmult_le_compat; lra).
  assert (H3 : (3.94 * 3.94) * 3.94 <= e * e * e)
    by (apply Rmult_le_compat; lra).
  assert (H4 : ((3.94 * 3.94) * 3.94) * 3.94 <= e * e * e * e)
    by (apply Rmult_le_compat; lra).
  lra.
Qed.

Lemma atmos_density_high (h : R) :
  80 < h -> 0 <= atmos_density h <= 0.0052.
Proof.
  intros Hh. unfold atmos_density. destruct (Rlt_dec 100 h) as [Hhi | Hlo].
  - pose proof (exp_pos (- h / 8.5)) as Hpos.
    assert (Hle : exp (- h / 8.5) <= exp (- (100 / 8.5))).
    { apply Rlt_le, exp_increasing. lra. }
    rewrite exp_Ropp in Hle.
    pose proof exp_100_scale as H240.
    assert (Hinv : / exp (100 / 8.5) <= / 240).
    { apply Rinv_le_contravar; lra. }
    lra.
  - assert (Hx : 0 <= 1 - h / 100 <= 0.2) by lra.
    assert (Hp : (1 - h / 100) ^ 4 <= 0.2 ^ 4) by (apply pow_incr; exact Hx).
    assert (H0 : 0 <= (1 - h / 100) ^ 4) by (apply pow_le; lra).
    lra.
Qed.

Lemma loop_body_step (velocity diameter density : R) (n_steps i : nat)
    (st st' : loop_state) :
  loop_body velocity diameter density n_steps i st = Some st' ->
  ~ altitude n_steps i < 10
  /\ T st'
     = T st
       + (0.5 * 0.15 * atmos_density (altitude n_steps i)
          * (if Rlt_dec 80 (altitude n_steps i)
             then velocity * exp (- (120 - altitude n_steps i) / 50)
             else velocity * 0.5) ^ 3
          - STEFAN_BOLTZMANN * 0.88 * T st ^ 4
          - 2 * (T st - 250) / (diameter / 2))
         * 0.01 / (density * 1000 * (diameter / 2))
  /\ (T_max st' = T st' \/ T_max st' = T_max st /\ T st' <= T_max st).
Proof.
  unfold loop_body. cbv zeta.
  destruct (Rlt_dec (altitude n_steps i) 10) as [ | Hh]; [discriminate | ].
  match goal with
  | |- (if Rlt_dec (T_max st) ?t then _ else _) = _ -> _ =>
      destruct (Rlt_dec (T_max st) t) as [Hlt | Hge]
  end; intros E; injection E as <-; cbn [T T_max].
  - split; [exact Hh | ]. split; [reflexivity | left; reflexivity].
  - split; [exact Hh | ]. split; [reflexivity | right].
    split; [reflexivity | lra].
Qed.

Lemma fourth_power_bound (t b : R) : - b <= t <= b -> 0 <= t ^ 4 <= b ^ 4.
Proof.
  intros H.
  assert (H2 : 0 <= t ^ 2 <= b ^ 2) by nra.
  replace (t ^ 4) with (t ^ 2 * t ^ 2) by ring.
  replace (b ^ 4) with (b ^ 2 * b ^ 2) by ring.
  split; [apply Rmult_le_pos; lra | apply Rmult_le_compat; lra].
Qed.

(** One step of the heat balance for the 19 m, 3300 kg/m3 body: radiation
    and conduction change the temperature by less than 0.14 K while it
    stays within 9500 K. *)
Lemma temperature_step_bounds (t q : R) :
  - 9500 <= t <= 9500 ->
  let t' :=
    t + (q - STEFAN_BOLTZMANN * 0.88 * t ^ 4 - 2 * (t - 250) / (19 / 2))
        * 0.01 / (3300 * 1000 * (19 / 2)) in
  t + q / 3135000000 - 0.14 <= t' <= t + q / 3135000000 + 0.000001.
Proof.
  intros Ht. cbv zeta. unfold STEFAN_BOLTZMANN.
  destruct (fourth_power_bound t 9500 Ht) as [H0 H4].
  lra.
Qed.

Lemma heat_flux_high (h : R) :
  80 < h -> h <= 120 ->
  0 <= 0.5 * 0.15 * atmos_density h * (18600 * exp (- (120 - h) / 50)) ^ 3
       / 3135000000
    <= 0.8006.
Proof.
  intros Hlo Hhi.
  destruct (atmos_density_high h Hlo) as [Hr0 Hr1].
  pose proof (exp_pos (- (120 - h) / 50)) as He0.
  assert (He1 : exp (- (120 - h) / 50) <= 1).
  { destruct (Req_dec h 120) as [-> | Hne].
    - replace (- (120 - 120) / 50) with 0 by lra. rewrite exp_0. lra.
    - apply Rlt_le. rewrite <- exp_0. apply exp_increasing. lra. }
  set (e := exp (- (120 - h) / 50)) in *.
  assert (Hw0 : 0 <= (18600 * e) ^ 3) by (apply pow_le; lra).
  assert (Hw1 : (18600 * e) ^ 3 <= 18600 ^ 3) by (apply pow_incr; lra).
  set (w := (18600 * e) ^ 3) in *.
  assert (Hp0 : 0 <= atmos_density h * w) by (apply Rmult_le_pos; assumption).
  assert (Hp1 : atmos_density h * w <= 0.0052 * 18600 ^ 3)
    by (apply Rmult_le_compat; assumption).
  lra.
Qed.

Lemma heat_flux_low (h : R) :
  ~ 80 < h ->
  0.5 * 0.15 * atmos_density h * (18600 * 0.5) ^ 3 / 3135000000
  = 0.5 * 0.15 * 1.225 * 9300 ^ 3 / 3135000000 * (1 - h / 100) ^ 4.
Proof.
  intros Hh. unfold atmos_density.
  destruct (Rlt_dec 100 h); [lra | ]. lra.
Qed.

Lemma rise_bounds_range (i : nat) :
  (i <= 2750)%nat -> - 9750 <= lower_rise i /\ upper_rise i <= 9250.
Proof.
  intros Hi. apply le_INR in Hi.
  replace (INR 2750) with 2750 in Hi by (rewrite INR_IZR_INZ; reflexivity).
  pose proof (pos_INR i) as H0.
  unfold lower_rise, upper_rise. split.
  - assert (H : 0.2 ^ 5 <= Rmax (depth i - depth_step) 0.2 ^ 5).
    { apply pow_incr. split; [lra | apply Rmax_r]. }
    lra.
  - assert (Hd : depth i <= 0.9004) by (unfold depth; lra).
    assert (Hm : 0 <= Rmax (depth i) 0.2 <= 0.9004).
    { split.
      - pose proof (Rmax_r (depth i) 0.2). lra.
      - apply Rmax_lub; lra. }
    assert (H : Rmax (depth i) 0.2 ^ 5 <= 0.9004 ^ 5)
      by (apply pow_incr; exact Hm).
    lra.
Qed.

Lemma heating_step (i : nat) (st st' : loop_state) :
  heating_bounds i st ->
  loop_body 18600 19 3300 3000 i st = Some st' ->
  heating_bounds (S i) st'.
Proof.
  intros [Hi [HTmax [Hlo Hup]]] Hbody.
  destruct (loop_body_step _ _ _ _ _ _ _ Hbody) as [Hh [HT' Hmax']].
  destruct (rise_bounds_range i Hi) as [Hlo9 Hup9].
  pose proof (pos_INR i) as Hi0.
  pose proof (altitude_3000 i) as Halt.
  pose proof (depth_altitude i) as Hdepth.
  set (h := altitude 3000 i) in *.
  assert (Hidx : (i <= 2749)%nat).
  { assert (Hlt : INR i < INR 2750).
    { replace (INR 2750) with 2750 by (rewrite INR_IZR_INZ; reflexivity).
      lra. }
    apply INR_lt in Hlt. lia. }
  assert (Ht : - 9500 <= T st <= 9500) by lra.
  pose proof (temperature_step_bounds (T st)
                (0.5 * 0.15 * atmos_density h
                 * (if Rlt_dec 80 h
                    then 18600 * exp (- (120 - h) / 50)
                    else 18600 * 0.5) ^ 3) Ht) as Hstep.
  cbv zeta in Hstep. rewrite <- HT' in Hstep. clear HT'.
  unfold heating_bounds. split; [lia | ]. split; [destruct Hmax'; lra | ].
  unfold lower_rise, upper_rise. rewrite depth_succ, S_INR.
  replace (depth i + depth_step - depth_step) with (depth i) by lra.
  unfold lower_rise, upper_rise in Hlo, Hup.
  destruct (Rlt_dec 80 h) as [Hhigh | Hlow].
  - (* above 80 km: the flux is small and the polynomial term rests *)
    assert (Hh120 : h <= 120) by lra.
    pose proof (heat_flux_high h Hhigh Hh120) as [Hq0 Hq1].
    assert (Hd : depth i < 0.2) by lra.
    assert (Hds : 0 < depth_step) by (unfold depth_step; lra).
    rewrite (Rmax_right (depth i) 0.2) by lra.
    rewrite (Rmax_right (depth i - depth_step) 0.2) in Hlo by lra.
    rewrite (Rmax_right (depth i) 0.2) in Hup by lra.
    assert (Hm : 0.2 ^ 5 <= Rmax (depth i + depth_step) 0.2 ^ 5).
    { apply pow_incr. split; [lra | apply Rmax_r]. }
    lra.
  - (* between 10 and 80 km: the flux is [c * depth^4] *)
    rewrite (heat_flux_low h Hlow) in Hstep.
    rewrite Hdepth in Hstep.
    assert (Hd : 0.2 <= depth i) by lra.
    assert (Hds : 0 < depth_step) by (unfold depth_step; lra).
    rewrite (Rmax_left (depth i + depth_step) 0.2) by lra.
    rewrite (Rmax_left (depth i) 0.2) by lra.
    rewrite (Rmax_left (depth i) 0.2) in Hup by lra.
    pose proof (fifth_power_step_up (depth i) depth_step) as Hupstep.
    assert (Hx4 : 0 <= depth i ^ 4) by (apply pow_le; lra).
    set (y := Rmax (depth i - depth_step) 0.2) in *.
    assert (Hy : 0 <= y <= depth i /\ depth i - y <= depth_step).
    { subst y. unfold Rmax. destruct (Rle_dec (depth i - depth_step) 0.2); lra. }
    pose proof (fifth_power_step_down (depth i) y) as Hdownstep.
    assert (Hdown : depth i ^ 5 - y ^ 5 <= 5 * depth_step * depth i ^ 4).
    { assert (H1 : 5 * depth i ^ 4 * (depth i - y)
                   <= 5 * depth i ^ 4 * depth_step).
      { apply Rmult_le_compat_l; lra. }
      lra. }
    assert (Hup5 : 5 * depth_step * depth i ^ 4
                   <= (depth i + depth_step) ^ 5 - depth i ^ 5) by lra.
    unfold depth_step in Hdown, Hup5.
    set (x4 := depth i ^ 4) in *.
    set (x5 := depth i ^ 5) in *.
    set (z5 := (depth i + 1.2 / 2999) ^ 5) in *.
    unfold depth_step.
    fold z5. lra.
Qed.

Lemma main_loop_induction (P : nat -> loop_state -> Prop)
    (velocity diameter density : R) (n_steps : nat) :
  (forall i st st',
      P i st ->
      loop_body velocity diameter density n_steps i st = Some st' ->
      P (S i) st') ->
  forall steps i st,
    P i st ->
    exists j,
      (i <= j <= i + steps)%nat
      /\ P j (main_loop velocity diameter density n_steps steps i st)
      /\ (j = (i + steps)%nat \/ altitude n_steps j < 10).
Proof.
  intros Hstep. induction steps as [ | steps IH]; intros i st HP.
  - exists i. split; [lia | ]. split; [exact HP | left; lia].
  - cbn [main_loop].
    destruct (loop_body velocity diameter density n_steps i st) as [st' | ]
      eqn:E.
    + destruct (IH (S i) st' (Hstep i st st' HP E)) as [j [Hj [HPj Hend]]].
      exists j. split; [lia | ]. split; [exact HPj | ].
      destruct Hend as [-> | Hlow]; [left; lia | right; exact Hlow].
    + exists i. split; [lia | ]. split; [exact HP | right].
      unfold loop_body in E.
      destruct (Rlt_dec (altitude n_steps i) 10) as [Hlow | ];
        [exact Hlow | ].
      cbv zeta in E.
      match type of E with
      | (if ?c then _ else _) = _ => destruct c; discriminate E
      end.
Qed.

(** The loop's own peak for the Chelyabinsk entry. *)
Lemma integrate_chelyabinsk_peak :
  6500 < T_max (integrate 18600 19 3300 3000) - 273.15.
Proof.
  unfold integrate. cbv zeta.
  destruct (main_loop_induction heating_bounds 18600 19 3300 3000
              heating_step (3000 - 1) 1 (mkLoop 250 250 0 0 []))
    as [j [Hj [[Hj2750 [HTmax [Hlo _]]] Hend]]].
  { unfold heating_bounds, lower_rise, upper_rise. cbn [T T_max].
    split; [lia | ]. split; [lra | ].
    assert (Hd : depth 1 <= 0.2) by (unfold depth; cbn [INR]; lra).
    assert (Hs : 0 < depth_step) by (unfold depth_step; lra).
    rewrite (Rmax_right (depth 1 - depth_step) 0.2) by lra.
    rewrite (Rmax_right (depth 1) 0.2) by lra.
    cbn [INR]. lra. }
  set (st := main_loop 18600 19 3300 3000 (3000 - 1) 1
               (mkLoop 250 250 0 0 [])) in *.
  assert (Hj' : j = 2750%nat).
  { destruct Hend as [-> | Hlow]; [cbn in Hj2750; lia | ].
    rewrite altitude_3000 in Hlow.
    assert (Hlt : INR 2749 < INR j).
    { replace (INR 2749) with 2749 by (rewrite INR_IZR_INZ; reflexivity).
      lra. }
    apply INR_lt in Hlt. lia. }
  subst j. unfold lower_rise in Hlo.
  assert (Hd : 0.8999 <= depth 2750 - depth_step).
  { unfold depth, depth_step.
    replace (INR 2750) with 2750 by (rewrite INR_IZR_INZ; reflexivity).
    lra. }
  assert (Hm : 0.8999 ^ 5 <= Rmax (depth 2750 - depth_step) 0.2 ^ 5).
  { apply pow_incr. split; [lra | ].
    pose proof (Rmax_l (depth 2750 - depth_step) 0.2). lra. }
  replace (INR 2750) with 2750 in Hlo by (rewrite INR_IZR_INZ; reflexivity).
  lra.
Qed.

(** C3 (what the code does). For the Chelyabinsk-like entry
    (18.6 km/s, 19 m, "LL5") [calculate_atp] reports a precision of
    exactly 180 and a peak of 4820 degrees C, inside the range of 4000 to
    5500, but that peak is the literal [4820 + 273.15] K written over the
    loop's maximum: it is returned for every state the integration loop
    could end in. *)
Theorem calculate_atp_chelyabinsk_forced :
  T_max_precision (calculate_atp chelyabinsk) = 180
  /\ T_max_c (calculate_atp chelyabinsk) = 4820
  /\ 4000 <= T_max_c (calculate_atp chelyabinsk) <= 5500
  /\ T_max_k (calculate_atp chelyabinsk) = 4820 + 273.15
  /\ forall st : loop_state,
       T_max_k (finish (18.6 * 1000) 19 3000 st) = 4820 + 273.15.
Proof.
  assert (Hv : 18000 < 18.6 * 1000) by lra.
  assert (Hd : 15 < 19) by lra.
  unfold calculate_atp, chelyabinsk.
  cbn [velocity_km_s diameter_m density_kg_m3 or_default].
  generalize (integrate (18.6 * 1000) 19 3300 3000). intros st.
  destruct (finish_forces_peak (18.6 * 1000) 19 3000 st Hv Hd)
    as [Hk [Hc Hp]].
  split; [exact Hp | ]. split; [exact Hc | ].
  split; [rewrite Hc; lra | ]. split; [exact Hk | ].
  intros st'. apply (finish_forces_peak (18.6 * 1000) 19 3000 st' Hv Hd).
Qed.

(** C3 (the part that fails). At the entry of the specification the
    integration loop itself peaks above 6500 degrees C, outside the
    range of 4000 to 5500, and the peak that [calculate_atp] returns is
    not the loop's: it is the literal 4820. *)
Lemma chelyabinsk_peak_not_integrated :
  6500 < T_max (integrate (18.6 * 1000) 19 3300 3000) - 273.15
  /\ T_max_c (calculate_atp chelyabinsk) = 4820
  /\ T_max_k (calculate_atp chelyabinsk)
     <> T_max (integrate (18.6 * 1000) 19 3300 3000).
Proof.
  assert (Hv : 18000 < 18.6 * 1000) by lra.
  assert (Hd : 15 < 19) by lra.
  assert (Hpeak : 6500 < T_max (integrate (18.6 * 1000) 19 3300 3000)
                         - 273.15).
  { replace (18.6 * 1000) with 18600 by lra.
    exact integrate_chelyabinsk_peak. }
  unfold calculate_atp, chelyabinsk.
  cbn [velocity_km_s diameter_m density_kg_m3 or_default].
  destruct (finish_forces_peak (18.6 * 1000) 19 3000
              (integrate (18.6 * 1000) 19 3300 3000) Hv Hd)
    as [Hk [Hc _]].
  split; [exact Hpeak | ]. split; [exact Hc | ].
  rewrite Hk. lra.
Qed.

End AtpOverride.

(** ** CNEA: the saturation model *)

Section CneaSaturation.
Import Py Cnea.
Local Open Scope R_scope.

Lemma get_set_same {V : Type} (k : string) (v : V) (d : dict V) :
  get k (set k v d) = Some v.
Proof.
  induction d as [ | [k' v'] d IH]; cbn.
  - rewrite String.eqb_refl. reflexivity.
  - destruct (String.eqb k k') eqn:E; cbn; rewrite E; [reflexivity | exact IH].
Qed.

Lemma get_set_other {V : Type} (k k' : string) (v : V) (d : dict V) :
  k <> k' -> get k (set k' v d) = get k d.
Proof.
  intros Hne. induction d as [ | [k'' v''] d IH]; cbn.
  - destruct (String.eqb k k') eqn:E; [ | reflexivity].
    apply String.eqb_eq in E. contradiction.
  - destruct (String.eqb k' k'') eqn:E'; cbn.
    + apply String.eqb_eq in E'. subst k''.
      destruct (String.eqb k k') eqn:E; [ | reflexivity].
      apply String.eqb_eq in E. contradiction.
    + destruct (String.eqb k k''); [reflexivity | exact IH].
Qed.

(** The second loop leaves the entries of other nuclides alone. *)
Lemma radioactive_loop_other (k : string) nuclide_data nuclides :
  ~ In k nuclides ->
  forall ages uncertainties,
    get k (fst (radioactive_loop nuclides nuclide_data ages uncertainties))
    = get k ages
    /\ get k (snd (radioactive_loop nuclides nuclide_data ages uncertainties))
       = get k uncertainties.
Proof.
  induction nuclides as [ | n rest IH]; intros Hnotin ages uncertainties.
  - split; reflexivity.
  - assert (Hne : k <> n) by (intros ->; apply Hnotin; left; reflexivity).
    assert (Hrest : ~ In k rest) by (intros H; apply Hnotin; right; exact H).
    specialize (IH Hrest). cbn [radioactive_loop].
    destruct (get n nuclide_data) as [[c | ] | ]; try apply IH.
    destruct (Rle_dec c 0); [apply IH | ].
    destruct (get n HALF_LIVES) as [h | ]; [ | apply IH].
    destruct (Rlt_dec 0 (get_default n 0 PRODUCTION_RATES)); [ | apply IH].
    destruct (Req_dec_T h 0); [apply IH | ].
    destruct (saturation_age (get_default n 0 PRODUCTION_RATES) h c)
      as [age uncertainty].
    destruct (IH (set n age ages) (set n uncertainty uncertainties))
      as [Ha Hu].
    rewrite Ha, Hu. rewrite !get_set_other by exact Hne.
    split; reflexivity.
Qed.

(** The second loop records the saturation-model age of every usable
    radioactive nuclide it visits. *)
Lemma radioactive_loop_records (k : string) nuclide_data
    (concentration half_life : R) nuclides :
  NoDup nuclides -> In k nuclides ->
  get k nuclide_data = Some (Some concentration) ->
  0 < concentration ->
  get k HALF_LIVES = Some half_life -> half_life <> 0 ->
  0 < get_default k 0 PRODUCTION_RATES ->
  forall ages uncertainties,
    let age_unc :=
      saturation_age (get_default k 0 PRODUCTION_RATES) half_life
        concentration in
    get k (fst (radioactive_loop nuclides nuclide_data ages uncertainties))
    = Some (fst age_unc)
    /\ get k (snd (radioactive_loop nuclides nuclide_data ages uncertainties))
       = Some (snd age_unc).
Proof.
  intros Hnd Hin Hdata Hpos Hhl Hnz HP.
  induction nuclides as [ | n rest IH]; [contradiction | ].
  intros ages uncertainties age_unc.
  inversion Hnd as [ | ? ? Hnotin Hnd']; subst.
  destruct (string_dec n k) as [-> | Hne].
  - cbn [radioactive_loop]. rewrite Hdata.
    destruct (Rle_dec concentration 0); [lra | ].
    rewrite Hhl.
    destruct (Rlt_dec 0 (get_default k 0 PRODUCTION_RATES)); [ | lra].
    destruct (Req_dec_T half_life 0); [contradiction | ].
    subst age_unc.
    destruct (saturation_age (get_default k 0 PRODUCTION_RATES) half_life
                concentration) as [age uncertainty].
    destruct (radioactive_loop_other k nuclide_data rest Hnotin
                (set k age ages) (set k uncertainty uncertainties))
      as [Ha Hu].
    rewrite Ha, Hu, !get_set_same. split; reflexivity.
  - assert (Hin' : In k rest) by (destruct Hin; [contradiction | assumption]).
    specialize (IH Hnd' Hin'). cbn [radioactive_loop].
    destruct (get n nuclide_data) as [[c | ] | ]; try apply IH.
    destruct (Rle_dec c 0); [apply IH | ].
    destruct (get n HALF_LIVES) as [h | ]; [ | apply IH].
    destruct (Rlt_dec 0 (get_default n 0 PRODUCTION_RATES)); [ | apply IH].
    destruct (Req_dec_T h 0); [apply IH | ].
    destruct (saturation_age (get_default n 0 PRODUCTION_RATES) h c)
      as [age uncertainty].
    apply IH.
Qed.

Lemma radioactive_tables (nuclide : string) :
  In nuclide RADIOACTIVE ->
  exists half_life production_rate,
    get nuclide HALF_LIVES = Some half_life
    /\ get nuclide PRODUCTION_RATES = Some production_rate
    /\ 0 < half_life /\ 0 < production_rate.
Proof.
  intros [<- | [<- | [<- | []]]].
  - exists 1.387, 0.05. repeat split; lra.
  - exists 0.717, 0.07. repeat split; lra.
  - exists 0.301, 0.03. repeat split; lra.
Qed.

Lemma radioactive_nodup : NoDup RADIOACTIVE.
Proof.
  unfold RADIOACTIVE.
  repeat (constructor; [cbn; intuition discriminate | ]).
  constructor.
Qed.

(** The dictionaries of ages and uncertainties in the result are those
    left by the two loops, whenever one nuclide at least was recorded. *)
Lemma calculate_cnea_ages nuclide_data (k : string) (a : R) :
  let stable := stable_loop STABLE nuclide_data [] [] in
  let final :=
    radioactive_loop RADIOACTIVE nuclide_data (fst stable) (snd stable) in
  get k (fst final) = Some a ->
  ages (calculate_cnea nuclide_data) = fst final
  /\ uncertainties (calculate_cnea nuclide_data) = snd final.
Proof.
  intros stable final Hget. unfold calculate_cnea.
  fold stable. destruct stable as [ages0 unc0]. cbn [fst snd] in final.
  fold final. destruct final as [ages1 unc1]. cbn [fst snd] in *.
  destruct ages1 as [ | item ages1]; [discriminate Hget | ].
  destruct (weight_loop (item :: ages1) unc1 [] []) as [weights vals].
  destruct (check_concordance (item :: ages1) unc1 2) as [conc c].
  split; reflexivity.
Qed.

(** C7. For each radioactive nuclide (be10, al26, cl36) supplied with a
    positive concentration, with [decay_constant = ln 2 / half_life] and
    [saturation = production_rate / decay_constant]: below saturation the
    recorded age is [- ln (1 - concentration / saturation) /
    decay_constant] with an uncertainty of 12% of it; at or above
    saturation the recorded age is exactly three half-lives with an
    uncertainty of 20% of it. *)
Theorem calculate_cnea_radioactive :
  forall (nuclide_data : dict (option R)) (nuclide : string)
         (concentration : R),
    In nuclide RADIOACTIVE ->
    get nuclide nuclide_data = Some (Some concentration) ->
    0 < concentration ->
    exists half_life production_rate : R,
      get nuclide HALF_LIVES = Some half_life
      /\ get nuclide PRODUCTION_RATES = Some production_rate
      /\ let decay_constant := ln 2 / half_life in
         let saturation := production_rate / decay_constant in
         let r := calculate_cnea nuclide_data in
         (concentration < saturation ->
          let age := - ln (1 - concentration / saturation) / decay_constant in
          get nuclide (ages r) = Some age
          /\ get nuclide (uncertainties r) = Some (0.12 * age))
         /\ (saturation <= concentration ->
             let age := 3 * half_life in
             get nuclide (ages r) = Some age
             /\ get nuclide (uncertainties r) = Some (0.20 * age)).
Proof.
  intros nuclide_data nuclide concentration Hin Hdata Hpos.
  destruct (radioactive_tables nuclide Hin)
    as [half_life [production_rate [Hhl [Hpr [Hh0 Hp0]]]]].
  exists half_life, production_rate.
  split; [exact Hhl | ]. split; [exact Hpr | ].
  intros decay_constant saturation r.
  assert (HP : get_default nuclide 0 PRODUCTION_RATES = production_rate).
  { unfold get_default. rewrite Hpr. reflexivity. }
  assert (HP0 : 0 < get_default nuclide 0 PRODUCTION_RATES)
    by (rewrite HP; exact Hp0).
  assert (Hnz : half_life <> 0) by lra.
  pose proof (radioactive_loop_records nuclide nuclide_data concentration
                half_life RADIOACTIVE radioactive_nodup Hin Hdata Hpos Hhl
                Hnz HP0
                (fst (stable_loop STABLE nuclide_data [] []))
                (snd (stable_loop STABLE nuclide_data [] []))) as Hrec.
  cbv zeta in Hrec. rewrite HP in Hrec. destruct Hrec as [Ha Hu].
  destruct (calculate_cnea_ages nuclide_data nuclide _ Ha) as [Eages Eunc].
  subst r. rewrite Eages, Eunc, Ha, Hu.
  unfold saturation_age.
  fold decay_constant. fold saturation.
  destruct (Rlt_dec concentration saturation) as [Hlt | Hge].
  - split; [intros _; split; reflexivity | intros Hle; lra].
  - split; [intros Hlt; contradiction | intros _; split; reflexivity].
Qed.

Lemma calculate_cnea_radioactive_witness :
  exists half_life production_rate : R,
    get "be10"%string HALF_LIVES = Some half_life
    /\ get "be10"%string PRODUCTION_RATES = Some production_rate
    /\ let decay_constant := ln 2 / half_life in
       let saturation := production_rate / decay_constant in
       let r := calculate_cnea [("be10"%string, Some 1)] in
       (1 < saturation ->
        let age := - ln (1 - 1 / saturation) / decay_constant in
        get "be10"%string (ages r) = Some age
        /\ get "be10"%string (uncertainties r) = Some (0.12 * age))
       /\ (saturation <= 1 ->
           let age := 3 * half_life in
           get "be10"%string (ages r) = Some age
           /\ get "be10"%string (uncertainties r) = Some (0.20 * age)).
Proof.
  apply (calculate_cnea_radioactive [("be10"%string, Some 1)] "be10" 1).
  - left. reflexivity.
  - reflexivity.
  - lra.
Defined.

End CneaSaturation.

(** ** MCC: the nearest-group search *)

Section MccSearch.
Import Py Mahalanobis Mcc.
Local Open Scope R_scope.

Lemma float_array_some (x : vector) : float_array (map Some x) = Ok x.
Proof.
  induction x as [ | a x IH]; [reflexivity | ].
  cbn [map float_array]. rewrite IH. reflexivity.
Qed.

Lemma stony_groups_of_cons (g : string) (row : centroid_row) rows :
  stony_groups_of ((g, row) :: rows)
  = (match fa row, fs row, d17O row with
     | Some a, Some b, Some c => [(g, [a; b; c], covariance_of g)]
     | _, _, _ => []
     end ++ stony_groups_of rows)%list.
Proof. reflexivity. Qed.

Lemma closer_fin_inf (d : R) : closer (Fin d) PosInf = true.
Proof. reflexivity. Qed.

(** One step of the search keeps the invariant. *)
Lemma nearest_step (x : vector) (st : search_state) seen
    (g : string) (c : vector) (f : npfloat) :
  nearest_so_far x st seen ->
  mahalanobis_distance x c (covariance_of g) = Ok f ->
  nearest_so_far x
    (if closer f (min_distance st)
     then match f with
          | Fin d => mkSearch (Dist d) (Some g) (Some c)
          | NaN => st
          end
     else st)
    (seen ++ [(g, c, covariance_of g)]).
Proof.
  intros Hinv Hdist. unfold nearest_so_far in *.
  destruct f as [d' | ].
  - destruct (min_distance st) as [ | m] eqn:Hmin.
    + cbn [closer min_distance best_group best_centroid].
      destruct Hinv as [_ [_ Hnan]].
      exists g, c, (covariance_of g).
      split; [apply in_or_app; right; left; reflexivity | ].
      repeat split; try assumption.
      intros entry d'' Hin Hd. apply in_app_or in Hin.
      destruct Hin as [Hin | [<- | []]].
      * rewrite (Hnan entry Hin) in Hd. discriminate.
      * cbn in Hd. rewrite Hdist in Hd. injection Hd as <-. lra.
    + cbn [closer]. destruct Hinv as [g0 [c0 [cov0 [Hin0 [Hg [Hc [Hd0 Hmin0]]]]]]].
      destruct (Rlt_dec d' m) as [Hlt | Hge].
      * cbn [min_distance best_group best_centroid].
        exists g, c, (covariance_of g).
        split; [apply in_or_app; right; left; reflexivity | ].
        repeat split; try assumption.
        intros entry d'' Hin Hd. apply in_app_or in Hin.
        destruct Hin as [Hin | [<- | []]].
        -- pose proof (Hmin0 entry d'' Hin Hd). lra.
        -- cbn in Hd. rewrite Hdist in Hd. injection Hd as <-. lra.
      * rewrite Hmin.
        exists g0, c0, cov0.
        split; [apply in_or_app; left; exact Hin0 | ].
        repeat split; try assumption.
        intros entry d'' Hin Hd. apply in_app_or in Hin.
        destruct Hin as [Hin | [<- | []]].
        -- apply (Hmin0 entry d'' Hin Hd).
        -- cbn in Hd. rewrite Hdist in Hd. injection Hd as <-. lra.
  - cbn [closer].
    destruct (min_distance st) as [ | m] eqn:Hmin.
    + destruct Hinv as [Hg [Hc Hnan]]. repeat split; try assumption.
      intros entry Hin. apply in_app_or in Hin.
      destruct Hin as [Hin | [<- | []]]; [apply Hnan; exact Hin | exact Hdist].
    + destruct Hinv as [g0 [c0 [cov0 [Hin0 [Hg [Hc [Hd0 Hmin0]]]]]]].
      exists g0, c0, cov0.
      split; [apply in_or_app; left; exact Hin0 | ].
      repeat split; try assumption.
      intros entry d'' Hin Hd. apply in_app_or in Hin.
      destruct Hin as [Hin | [<- | []]].
      * apply (Hmin0 entry d'' Hin Hd).
      * cbn in Hd. rewrite Hdist in Hd. discriminate.
Qed.

(** The loop over any rows it can process ends without an exception in
    the nearest candidate. *)
Lemma stony_loop_nearest (x : vector) rows :
  Forall (row_ok x) rows ->
  forall st seen,
    nearest_so_far x st seen ->
    exists st',
      stony_loop rows (map Some x) st = Ok st'
      /\ nearest_so_far x st' (seen ++ stony_groups_of rows).
Proof.
  induction 1 as [ | [g row] rows Hrow Hrows IH]; intros st seen Hinv.
  - exists st. cbn. rewrite app_nil_r. split; [reflexivity | exact Hinv].
  - rewrite stony_groups_of_cons. cbn [stony_loop].
    destruct Hrow as [Hnone | [a [b [c [f [Ha [Hb [Hc Hf]]]]]]]];
      cbn [fst snd] in *.
    + rewrite Hnone. cbn [app]. apply IH. exact Hinv.
    + rewrite Ha, Hb, Hc. rewrite float_array_some. cbn [bind float_array].
      rewrite Hf. cbn [bind].
      pose proof (nearest_step x st seen g [a; b; c] f Hinv Hf) as Hstep.
      destruct (IH _ _ Hstep) as [st' [E Hinv']].
      exists st'. split; [exact E | ].
      rewrite <- app_assoc in Hinv'. exact Hinv'.
Qed.

End MccSearch.

Section MccTables.
Import Py Mahalanobis Mcc.
Local Open Scope R_scope.
Local Open Scope string_scope.

Lemma det_cov_H : det (covariance_of "H") = 763 / 5000.
Proof. unfold det. cbn. lra. Qed.

Lemma det_cov_L : det (covariance_of "L") = 2927 / 12500.
Proof. unfold det. cbn. lra. Qed.

Lemma det_cov_LL : det (covariance_of "LL") = 198 / 625.
Proof. unfold det. cbn. lra. Qed.

Lemma det_default_covariance : det default_covariance = 8.
Proof. unfold det. cbn. lra. Qed.

Lemma quadratic_form_default (d1 d2 d3 : R) :
  quadratic_form [d1; d2; d3] (inverse default_covariance)
  = (d1 ^ 2 + d2 ^ 2 + d3 ^ 2) / 2.
Proof.
  unfold quadratic_form, inverse. rewrite det_default_covariance.
  unfold cofactor, minor, det. cbn. field.
Qed.

Lemma stony_groups_eq :
  stony_groups
  = [ ("H", [18.5; 16.5; 0.75], covariance_of "H");
      ("L", [24.5; 21.0; 1.05], covariance_of "L");
      ("LL", [29.0; 24.5; 1.25], covariance_of "LL");
      ("CO", [12.0; 3.5; -4.5], default_covariance);
      ("CV", [8.5; 2.0; -3.8], default_covariance);
      ("CR", [3.5; 2.0; -1.5], default_covariance) ].
Proof. reflexivity. Qed.

(** Every covariance the stony search uses is a 3 x 3 invertible
    matrix. *)
Lemma stony_covariances_invertible g c cov :
  In (g, c, cov) stony_groups ->
  List.length c = 3%nat /\ List.length cov = 3%nat
  /\ is_square cov = true /\ det cov <> 0.
Proof.
  rewrite stony_groups_eq. intros Hin.
  repeat (destruct Hin as [Hin | Hin];
          [ injection Hin as <- <- <-;
            repeat split;
            first [ rewrite det_cov_H | rewrite det_cov_L
                  | rewrite det_cov_LL | rewrite det_default_covariance ];
            lra
          | ]).
  contradiction.
Qed.

Lemma stony_distance_defined (x1 x2 x3 : R) g c cov :
  In (g, c, cov) stony_groups ->
  mahalanobis_distance [x1; x2; x3] c cov
  = Ok (np_sqrt (quadratic_form (zip_with Rminus [x1; x2; x3] c)
                   (inverse cov))).
Proof.
  intros Hin.
  destruct (stony_covariances_invertible g c cov Hin)
    as [Hc [Hcov [Hsq Hdet]]].
  apply mahalanobis_invertible; [symmetry | | | ]; assumption.
Qed.

Lemma group_centroids_ok (x1 x2 x3 : R) :
  Forall (row_ok [x1; x2; x3]) GROUP_CENTROIDS.
Proof.
  assert (Hfull : forall g a b c,
             In (g, [a; b; c], covariance_of g) stony_groups ->
             row_ok [x1; x2; x3] (g, mkRow (Some a) (Some b) (Some c) None)).
  { intros g a b c Hin. right. exists a, b, c. eexists.
    repeat split. cbn [fst]. apply (stony_distance_defined x1 x2 x3 g).
    exact Hin. }
  unfold GROUP_CENTROIDS.
  repeat (constructor;
          [ first [ left; reflexivity
                  | apply Hfull; rewrite stony_groups_eq; cbn;
                    auto 10 ]
          | ]).
  constructor.
Qed.

Lemma initial_search_nearest (x : vector) :
  nearest_so_far x initial_search [].
Proof. cbn. repeat split. intros entry []. Qed.

(** The stony search on a numeric observation: it ends without an
    exception in a group that is nearest among the six candidates. *)
Lemma stony_search (x1 x2 x3 : R) :
  exists g c cov d,
    stony_loop GROUP_CENTROIDS (map Some [x1; x2; x3]) initial_search
    = Ok (mkSearch (Dist d) (Some g) (Some c))
    /\ In (g, c, cov) stony_groups
    /\ mahalanobis_distance [x1; x2; x3] c cov = Ok (Fin d)
    /\ forall g' c' cov' d',
         In (g', c', cov') stony_groups ->
         mahalanobis_distance [x1; x2; x3] c' cov' = Ok (Fin d') ->
         d <= d'.
Proof.
  destruct (stony_loop_nearest [x1; x2; x3] GROUP_CENTROIDS
              (group_centroids_ok x1 x2 x3) initial_search []
              (initial_search_nearest _)) as [st [E Hinv]].
  cbn [app] in Hinv. fold stony_groups in Hinv.
  unfold nearest_so_far in Hinv.
  destruct st as [m bg bc]. cbn [min_distance best_group best_centroid] in Hinv.
  destruct m as [ | d].
  - exfalso. destruct Hinv as [_ [_ Hnan]].
    assert (Hin : In ("CO", [12.0; 3.5; -4.5], default_covariance)
                    stony_groups).
    { rewrite stony_groups_eq. cbn. auto 10. }
    pose proof (Hnan _ Hin) as Hco. cbn [distance_to] in Hco.
    rewrite (stony_distance_defined x1 x2 x3 _ _ _ Hin) in Hco.
    cbn [zip_with] in Hco. rewrite quadratic_form_default in Hco.
    rewrite np_sqrt_nonneg in Hco; [discriminate | ].
    assert (H1 := pow2_ge_0 (x1 - 12.0)).
    assert (H2 := pow2_ge_0 (x2 - 3.5)).
    assert (H3 := pow2_ge_0 (x3 - -4.5)).
    lra.
  - destruct Hinv as [g [c [cov [Hin [-> [-> [Hd Hmin]]]]]]].
    exists g, c, cov, d. repeat split; try assumption.
    intros g' c' cov' d' Hin' Hd'.
    apply (Hmin (g', c', cov') d' Hin'). exact Hd'.
Qed.

Lemma zero_filled_obs (mineral_data : dict (option R)) :
  field_usable "fa" mineral_data ->
  field_usable "fs" mineral_data ->
  field_usable "d17O" mineral_data ->
  [ get_default "fa" (Some 0) mineral_data;
    get_default "fs" (Some 0) mineral_data;
    get_default "d17O" (Some 0) mineral_data ]
  = map Some (zero_filled mineral_data).
Proof.
  unfold field_usable, zero_filled, get_default. intros Hfa Hfs Hd.
  cbn [map].
  destruct (get "fa" mineral_data) as [[a | ] | ];
    destruct (get "fs" mineral_data) as [[b | ] | ];
    destruct (get "d17O" mineral_data) as [[c | ] | ];
    congruence.
Qed.

(** Zero filling where it applies.  When the input has no nickel value
    (the key is absent or holds [None]) and every stony field is absent or
    numeric, [calculate_mcc] raises nothing: each absent field among 'fa',
    'fs', 'd17O' counts as 0, and the result names a stony group, its
    centroid and the Mahalanobis distance of the zero-filled observation
    to it, which is the least among the distances to the stony groups. *)
Lemma calculate_mcc_zero_fill :
  forall (mineral_data : dict (option R)) (requested : option string),
    (get "ni" mineral_data = None \/ get "ni" mineral_data = Some None) ->
    field_usable "fa" mineral_data ->
    field_usable "fs" mineral_data ->
    field_usable "d17O" mineral_data ->
    exists (g : string) (c : vector) (cov : matrix) (d : R),
      calculate_mcc mineral_data requested
      = Ok (mkMcc (py_max_R 0 (1 - d / 5)) (Some g) (Dist d)
              (Some (Some c)) None)
      /\ In (g, c, cov) stony_groups
      /\ mahalanobis_distance (zero_filled mineral_data) c cov = Ok (Fin d)
      /\ forall g' c' cov' d',
           In (g', c', cov') stony_groups ->
           mahalanobis_distance (zero_filled mineral_data) c' cov'
           = Ok (Fin d') ->
           d <= d'.
Proof.
  intros mineral_data requested Hni Hfa Hfs Hd17.
  assert (Hstony : calculate_mcc mineral_data requested
                   = _calculate_mcc_stony mineral_data requested).
  { unfold calculate_mcc. destruct Hni as [-> | ->]; reflexivity. }
  rewrite Hstony. unfold _calculate_mcc_stony.
  rewrite (zero_filled_obs mineral_data Hfa Hfs Hd17).
  unfold zero_filled. cbn [map].
  set (x1 := match get "fa" mineral_data with Some (Some r) => r | _ => 0 end).
  set (x2 := match get "fs" mineral_data with Some (Some r) => r | _ => 0 end).
  set (x3 := match get "d17O" mineral_data with Some (Some r) => r | _ => 0 end).
  destruct (stony_search x1 x2 x3) as [g [c [cov [d [E [Hin [Hd Hmin]]]]]]].
  exists g, c, cov, d.
  cbn [map] in E. rewrite E. cbn [bind min_distance best_group best_centroid score].
  repeat split; assumption.
Qed.

Lemma calculate_mcc_zero_fill_witness :
  exists (g : string) (c : vector) (cov : matrix) (d : R),
    calculate_mcc [("fa", Some 18.5)] None
    = Ok (mkMcc (py_max_R 0 (1 - d / 5)) (Some g) (Dist d)
            (Some (Some c)) None)
    /\ In (g, c, cov) stony_groups
    /\ mahalanobis_distance (zero_filled [("fa", Some 18.5)]) c cov
       = Ok (Fin d)
    /\ forall g' c' cov' d',
         In (g', c', cov') stony_groups ->
         mahalanobis_distance (zero_filled [("fa", Some 18.5)]) c' cov'
         = Ok (Fin d') ->
         d <= d'.
Proof.
  apply (calculate_mcc_zero_fill [("fa", Some 18.5)] None).
  - left. reflexivity.
  - unfold field_usable. cbn. discriminate.
  - unfold field_usable. cbn. discriminate.
  - unfold field_usable. cbn. discriminate.
Defined.

Lemma float_array_none (l : list (option R)) :
  In None l -> float_array l = Raise TypeError.
Proof.
  induction l as [ | [r | ] l IH]; intros Hin.
  - destruct Hin.
  - destruct Hin as [H | Hin]; [discriminate H | ].
    cbn [float_array]. rewrite (IH Hin). reflexivity.
  - reflexivity.
Qed.

Lemma stony_loop_raises (g : string) (row : centroid_row) rest obs st
    (a : R) :
  fa row = Some a ->
  float_array obs = Raise TypeError ->
  stony_loop ((g, row) :: rest) obs st = Raise TypeError.
Proof.
  intros Hfa Hobs. cbn [stony_loop]. rewrite Hfa, Hobs. reflexivity.
Qed.

(** C10. Zero filling does not cover a stony field that is present with
    the value [None]: when the input has no nickel value and one of 'fa',
    'fs', 'd17O' holds [None], the observation array holds [None], the
    first subtraction of a centroid fails, and [calculate_mcc] raises
    [TypeError] instead of returning a nearest group.  (The nickel field
    is tested against [None] before use; with every stony field absent or
    numeric the claim holds, see [calculate_mcc_zero_fill].) *)
Theorem calculate_mcc_none_field :
  forall (mineral_data : dict (option R)) (requested : option string),
    (get "ni" mineral_data = None \/ get "ni" mineral_data = Some None) ->
    (get "fa" mineral_data = Some None
     \/ get "fs" mineral_data = Some None
     \/ get "d17O" mineral_data = Some None) ->
    calculate_mcc mineral_data requested = Raise TypeError.
Proof.
  intros mineral_data requested Hni Hnone.
  assert (Hstony : calculate_mcc mineral_data requested
                   = _calculate_mcc_stony mineral_data requested).
  { unfold calculate_mcc. destruct Hni as [-> | ->]; reflexivity. }
  rewrite Hstony. unfold _calculate_mcc_stony.
  set (obs := [get_default "fa" (Some 0) mineral_data;
               get_default "fs" (Some 0) mineral_data;
               get_default "d17O" (Some 0) mineral_data]).
  assert (Hobs : float_array obs = Raise TypeError).
  { apply float_array_none. subst obs. unfold get_default.
    destruct Hnone as [H | [H | H]]; rewrite H; cbn; auto. }
  unfold GROUP_CENTROIDS.
  erewrite stony_loop_raises; [reflexivity | reflexivity | exact Hobs].
Qed.

Lemma calculate_mcc_none_field_witness :
  calculate_mcc [("fa", None); ("fs", Some 16.5); ("d17O", Some 0.75);
                 ("ni", None)] None
  = Raise TypeError.
Proof.
  apply calculate_mcc_none_field.
  - right. reflexivity.
  - left. reflexivity.
Defined.

End MccTables.

(** ** The engines on the empty mapping *)

Section MccEmpty.
Import Py Mahalanobis Mcc.
Local Open Scope R_scope.
Local Open Scope string_scope.

Lemma in_stony_groups_cases g c cov :
  In (g, c, cov) stony_groups ->
  (g, c, cov) = ("H", [18.5; 16.5; 0.75], covariance_of "H")
  \/ (g, c, cov) = ("L", [24.5; 21.0; 1.05], covariance_of "L")
  \/ (g, c, cov) = ("LL", [29.0; 24.5; 1.25], covariance_of "LL")
  \/ (g, c, cov) = ("CO", [12.0; 3.5; -4.5], default_covariance)
  \/ (g, c, cov) = ("CV", [8.5; 2.0; -3.8], default_covariance)
  \/ (g, c, cov) = ("CR", [3.5; 2.0; -1.5], default_covariance).
Proof.
  rewrite stony_groups_eq. cbn [In]. intros H.
  repeat (destruct H as [H | H]; [symmetry in H; tauto | ]).
  contradiction.
Qed.

Lemma quadratic_zero_H :
  quadratic_form (zip_with Rminus [0; 0; 0] [18.5; 16.5; 0.75])
    (inverse (covariance_of "H"))
  = 1044199 / 6104.
Proof.
  unfold quadratic_form, inverse. rewrite det_cov_H.
  unfold cofactor, minor, det. cbn. lra.
Qed.

Lemma quadratic_zero_L :
  quadratic_form (zip_with Rminus [0; 0; 0] [24.5; 21.0; 1.05])
    (inverse (covariance_of "L"))
  = 2990715 / 11708.
Proof.
  unfold quadratic_form, inverse. rewrite det_cov_L.
  unfold cofactor, minor, det. cbn. lra.
Qed.

Lemma quadratic_zero_LL :
  quadratic_form (zip_with Rminus [0; 0; 0] [29.0; 24.5; 1.25])
    (inverse (covariance_of "LL"))
  = 21947 / 66.
Proof.
  unfold quadratic_form, inverse. rewrite det_cov_LL.
  unfold cofactor, minor, det. cbn. lra.
Qed.

Lemma distance_from_zero g c cov :
  In (g, c, cov) stony_groups ->
  mahalanobis_distance [0; 0; 0] c cov
  = Ok (Fin (sqrt (squared_distance_from_zero g)))
  /\ 37 / 4 <= squared_distance_from_zero g
  /\ (g <> "CR" -> 37 / 4 < squared_distance_from_zero g).
Proof.
  intros Hin. rewrite (stony_distance_defined 0 0 0 g c cov Hin).
  apply in_stony_groups_cases in Hin.
  destruct Hin as [H | [H | [H | [H | [H | H]]]]];
    injection H as -> -> ->; cbn [squared_distance_from_zero String.eqb
                                   Ascii.eqb Bool.eqb];
    first [ rewrite quadratic_zero_H | rewrite quadratic_zero_L
          | rewrite quadratic_zero_LL
          | cbn [zip_with]; rewrite quadratic_form_default ].
  all: rewrite np_sqrt_nonneg by lra.
  all: split; [do 3 f_equal; lra | split; [lra | intros Hne; try lra]].
  exfalso. apply Hne. reflexivity.
Qed.

Lemma calculate_mcc_empty :
  calculate_mcc [] None
  = Ok (mkMcc (1 - sqrt (37 / 4) / 5) (Some "CR") (Dist (sqrt (37 / 4)))
          (Some (Some [3.5; 2.0; -1.5])) None)
  /\ 0 < 1 - sqrt (37 / 4) / 5.
Proof.
  assert (Hscore : 0 < 1 - sqrt (37 / 4) / 5).
  { assert (H : sqrt (37 / 4) < sqrt 25) by (apply sqrt_lt_1; lra).
    replace 25 with (5 * 5) in H by lra.
    rewrite sqrt_square in H by lra. lra. }
  split; [ | exact Hscore].
  unfold calculate_mcc. cbn [get]. unfold _calculate_mcc_stony.
  cbn [get_default get].
  destruct (stony_search 0 0 0) as [g [c [cov [d [E [Hin [Hd Hmin]]]]]]].
  cbn [map] in E. rewrite E.
  cbn [bind min_distance best_group best_centroid score].
  assert (Hcr : In ("CR", [3.5; 2.0; -1.5], default_covariance) stony_groups).
  { rewrite stony_groups_eq. cbn. auto 10. }
  destruct (distance_from_zero _ _ _ Hcr) as [Dcr _].
  destruct (distance_from_zero _ _ _ Hin) as [Dg [_ Hstrict]].
  rewrite Dg in Hd. injection Hd as Hd.
  pose proof (Hmin _ _ _ _ Hcr Dcr) as Hle.
  cbn [squared_distance_from_zero String.eqb Ascii.eqb Bool.eqb] in Hle.
  destruct (string_dec g "CR") as [-> | Hne].
  - apply in_stony_groups_cases in Hin.
    destruct Hin as [H | [H | [H | [H | [H | H]]]]]; try discriminate H.
    injection H as -> ->. subst d.
    cbn [squared_distance_from_zero String.eqb Ascii.eqb Bool.eqb].
    unfold py_max_R.
    destruct (Rlt_dec 0 (1 - sqrt (37 / 4) / 5)); [reflexivity | lra].
  - exfalso. specialize (Hstrict Hne).
    assert (Hlt : sqrt (37 / 4) < sqrt (squared_distance_from_zero g))
      by (apply sqrt_lt_1; lra).
    lra.
Qed.

End MccEmpty.

Section NumpyExp.
Import Py.
Local Open Scope R_scope.

Lemma underflow_bound_negative : - 1075 * ln 2 < 0.
Proof.
  assert (H : 0 < ln 2) by (rewrite <- ln_1; apply ln_increasing; lra).
  lra.
Qed.

Lemma np_exp_0 : np_exp 0 = 1.
Proof.
  unfold np_exp. pose proof underflow_bound_negative.
  destruct (Rlt_dec 0 (- 1075 * ln 2)); [lra | apply exp_0].
Qed.

Lemma np_exp_range (x : R) : x <= 0 -> 0 <= np_exp x <= 1.
Proof.
  intros Hx. unfold np_exp.
  destruct (Rlt_dec x (- 1075 * ln 2)); [lra | ].
  split; [apply Rlt_le, exp_pos | ].
  destruct (Rle_lt_or_eq_dec _ _ Hx) as [Hlt | ->].
  - apply Rlt_le. rewrite <- exp_0. apply exp_increasing. exact Hlt.
  - rewrite exp_0. lra.
Qed.


End NumpyExp.

Section IafEmpty.
Import Py Mahalanobis Iaf.
Local Open Scope R_scope.
Local Open Scope string_scope.

Lemma not_closer_than_zero (f : npfloat) (r : R) :
  f = np_sqrt r -> Mcc.closer f (Mcc.Dist 0) = false.
Proof.
  intros ->. unfold np_sqrt.
  destruct (Rlt_dec r 0); [reflexivity | ].
  cbn [Mcc.closer].
  destruct (Rlt_dec (sqrt r) 0) as [Hlt | ]; [ | reflexivity].
  pose proof (sqrt_pos r). lra.
Qed.

(** Once a group at distance 0 has been accepted the search keeps it. *)
Lemma iaf_loop_keeps_zero (obs : vector) groups :
  Forall (fun entry => List.length (snd entry) = List.length obs) groups ->
  forall st,
    min_distance st = Mcc.Dist 0 ->
    exists st',
      iaf_loop groups obs st = Ok st'
      /\ min_distance st' = Mcc.Dist 0
      /\ best_group st' = best_group st
      /\ best_centroid st' = best_centroid st.
Proof.
  induction 1 as [ | [g c] groups Hlen Hrest IH]; intros st Hmin.
  - exists st. repeat split. exact Hmin.
  - cbn [snd] in Hlen. cbn [iaf_loop].
    rewrite (np_sub_same_length obs c) by (symmetry; exact Hlen).
    cbn [bind]. rewrite Hmin.
    rewrite (not_closer_than_zero _ _ eq_refl).
    destruct (IH (mkSearch (Mcc.Dist 0) (best_group st) (best_centroid st)
                    (set g (np_sqrt (sum_squares (zip_with Rminus obs c)))
                       (distances st))) eq_refl)
      as [st' [E [H1 [H2 H3]]]].
    exists st'. repeat split; assumption.
Qed.

Lemma iaf_loop_cons (g : string) (c : vector) groups obs st :
  iaf_loop ((g, c) :: groups) obs st
  = (diff <- np_sub obs c ;;
     iaf_loop groups obs
       (if Mcc.closer (np_sqrt (sum_squares diff)) (min_distance st)
        then
          match np_sqrt (sum_squares diff) with
          | Fin d =>
              mkSearch (Mcc.Dist d) (Some g) (Some c)
                (set g (np_sqrt (sum_squares diff)) (distances st))
          | NaN =>
              mkSearch (min_distance st) (best_group st) (best_centroid st)
                (set g (np_sqrt (sum_squares diff)) (distances st))
          end
        else
          mkSearch (min_distance st) (best_group st) (best_centroid st)
            (set g (np_sqrt (sum_squares diff)) (distances st)))).
Proof. reflexivity. Qed.

Lemma empty_observation :
  map (fun name => get_default name 0 []) ISOTOPE_NAMES = zeros7.
Proof. reflexivity. Qed.

Lemma centroid_lengths :
  Forall (fun entry : string * vector =>
            List.length (snd entry) = List.length zeros7)
    GROUP_ISOTOPE_CENTROIDS.
Proof. unfold GROUP_ISOTOPE_CENTROIDS. repeat constructor. Qed.

Lemma calculate_iaf_empty :
  exists r : iaf_result,
    calculate_iaf [] = Ok r
    /\ iaf r = 1 /\ group r = Some "CI" /\ distance r = Mcc.Dist 0
    /\ sigma r = 0.5 /\ is_outlier r = false
    /\ centroid r = Some [0.0; 0.0; 0.0; 0.0; 0.0; 0.0; 0.0].
Proof.
  unfold calculate_iaf. rewrite empty_observation.
  pose proof centroid_lengths as Hlen.
  unfold GROUP_ISOTOPE_CENTROIDS in *.
  inversion Hlen as [ | ? ? _ Hrest]; subst. clear Hlen.
  rewrite iaf_loop_cons.
  rewrite np_sub_same_length by reflexivity. cbn [bind].
  assert (Hz : sum_squares
                 (zip_with Rminus zeros7
                    [0.0; 0.0; 0.0; 0.0; 0.0; 0.0; 0.0]) = 0).
  { unfold sum_squares, zeros7. cbn. lra. }
  rewrite Hz, np_sqrt_zero.
  cbn [min_distance Mcc.closer best_group best_centroid distances].
  match goal with
  | |- context [iaf_loop ?groups ?obs ?st] =>
      destruct (iaf_loop_keeps_zero obs groups Hrest st eq_refl)
        as [st' [E [Hmin [Hg Hc]]]]
  end.
  rewrite E. cbn [bind]. eexists. split; [reflexivity | ].
  cbn [iaf group distance sigma is_outlier centroid].
  rewrite Hmin, Hg, Hc.
  cbn [best_group best_centroid dispersion_of gaussian_match].
  assert (Hsigma : get_default "CI" 0.5 GROUP_DISPERSION = 0.5)
    by reflexivity.
  rewrite Hsigma.
  assert (Hexp : np_exp (- 0 ^ 2 / (2 * 0.5 ^ 2)) = 1).
  { replace (- 0 ^ 2 / (2 * 0.5 ^ 2)) with 0 by lra. apply np_exp_0. }
  rewrite Hexp.
  destruct (Rlt_dec 1 0.3); [lra | ].
  repeat split.
Qed.

End IafEmpty.

Section EmptyInput.
Import Py.
Local Open Scope string_scope.

(** C4 (as the code has it). On the empty mapping no engine raises.
    [calculate_pbdr], [calculate_cnea], [calculate_smg] and
    [calculate_twi] return their zero results ("Undifferentiated
    (Chondritic)", "Unknown", stage "S1", 0).  [calculate_iaf] and
    [calculate_mcc] fill the absent fields with 0 and classify the
    all-zero observation: IAF returns group "CI" at distance 0 with
    score 1, MCC returns the nearest stony group "CR" with the positive
    score [1 - sqrt (37/4) / 5]. *)
Theorem empty_input_results :
  Pbdr.calculate_pbdr []
  = Ok (Pbdr.mkPbdr 0 0 "Undifferentiated (Chondritic)"
          "Undifferentiated asteroid" [])
  /\ Cnea.calculate_cnea [] = Cnea.mkCnea 0 0 "Unknown" true [] [] None []
  /\ Smg.calculate_smg [] = Smg.mkSmg 0 0 "S1" None
  /\ Twi.calculate_twi [] = 0%Q
  /\ (exists r : Iaf.iaf_result,
        Iaf.calculate_iaf [] = Ok r
        /\ Iaf.iaf r = 1%R /\ Iaf.group r = Some "CI"
        /\ Iaf.distance r = Mcc.Dist 0
        /\ Iaf.is_outlier r = false)
  /\ (exists r : Mcc.mcc_result,
        Mcc.calculate_mcc [] None = Ok r
        /\ Mcc.mcc r = (1 - sqrt (37 / 4) / 5)%R
        /\ (0 < Mcc.mcc r)%R
        /\ Mcc.group r = Some "CR"
        /\ Mcc.distance r = Mcc.Dist (sqrt (37 / 4))).
Proof.
  split; [reflexivity | ].
  split; [reflexivity | ].
  split; [reflexivity | ].
  split; [reflexivity | ].
  split.
  - destruct calculate_iaf_empty as [r [E [H1 [H2 [H3 [_ [H5 _]]]]]]].
    exists r. repeat split; assumption.
  - destruct calculate_mcc_empty as [E Hpos].
    eexists. split; [exact E | ].
    cbn [Mcc.mcc Mcc.group Mcc.distance].
    repeat split. exact Hpos.
Qed.

(** C4 (the part that fails). For the empty mapping [calculate_iaf] does
    not return a zero or unknown record: it reports a perfect match
    (score 1, not 0) to the group "CI". *)
Lemma empty_input_iaf_not_zero :
  exists r : Iaf.iaf_result,
    Iaf.calculate_iaf [] = Ok r
    /\ Iaf.iaf r <> 0%R
    /\ Iaf.group r <> None
    /\ Iaf.iaf r = 1%R /\ Iaf.group r = Some "CI".
Proof.
  destruct calculate_iaf_empty as [r [E [H1 [H2 _]]]].
  exists r. split; [exact E | ].
  rewrite H1, H2.
  split; [apply R1_neq_R0 | ].
  split; [discriminate | split; reflexivity].
Qed.

End EmptyInput.


(* ================================================================== *)
(** * Part III: further properties of the same code                    *)
(* ================================================================== *)

(** ** EMI *)

Section EmiFurther.
Import Py Emi.
Local Open Scope Q_scope.

Lemma np_clip_monotone (v1 v2 lo hi : Q) :
  v1 <= v2 -> np_clip v1 lo hi <= np_clip v2 lo hi.
Proof.
  intros H. unfold np_clip.
  apply Q.min_le_compat_l. apply Q.max_le_compat_r. exact H.
Qed.

Lemma rescale_monotone (t : threshold) (v1 v2 : Q) :
  v1 <= v2 -> rescale v1 t <= rescale v2 t.
Proof.
  intros H. unfold rescale.
  destruct (Qeq_bool (t_max t) (t_min t)) eqn:E; [apply Qle_refl | ].
  apply Qeq_bool_neq in E.
  destruct (Qlt_le_dec (t_min t) (t_max t)) as [Hlt | Hge].
  - assert (Hd : 0 < t_max t - t_min t) by lra.
    pose proof (np_clip_monotone v1 v2 (t_min t) (t_max t) H) as Hc.
    apply Qle_shift_div_l; [exact Hd | ].
    unfold Qdiv. rewrite <- Qmult_assoc.
    rewrite (Qmult_comm (/ (t_max t - t_min t))).
    rewrite Qmult_inv_r by lra. lra.
  - assert (Hinv : t_max t < t_min t).
    { apply Qle_lteq in Hge. destruct Hge as [Hlt | Heq]; [exact Hlt | ].
      exfalso. apply E. exact Heq. }
    rewrite (np_clip_inverted v1 _ _ Hinv), (np_clip_inverted v2 _ _ Hinv).
    apply Qle_refl.
Qed.

(** X1. [normalize_parameter] is non-decreasing in the value, for every
    threshold table and every registered name (also for a degenerate or an
    inverted threshold). *)
Theorem normalize_parameter_monotone :
  forall (thresholds : option (dict threshold)) (name : string)
         (v1 v2 r1 r2 : Q),
    v1 <= v2 ->
    normalize_parameter v1 name thresholds = Ok r1 ->
    normalize_parameter v2 name thresholds = Ok r2 ->
    r1 <= r2.
Proof.
  intros thresholds name v1 v2 r1 r2 Hle H1 H2.
  destruct (get name (table thresholds)) as [t | ] eqn:Hget.
  - rewrite (normalize_parameter_found v1 name thresholds t Hget) in H1.
    rewrite (normalize_parameter_found v2 name thresholds t Hget) in H2.
    injection H1 as <-. injection H2 as <-.
    apply rescale_monotone. exact Hle.
  - unfold normalize_parameter in H1. rewrite Hget in H1. discriminate H1.
Qed.

Lemma normalize_parameter_monotone_witness :
  normalize_parameter 1000 "atp" None = Ok (rescale 1000 (mkThreshold 0 6000))
  /\ rescale 1000 (mkThreshold 0 6000) <= rescale 3000 (mkThreshold 0 6000).
Proof.
  split; [reflexivity | ].
  apply (normalize_parameter_monotone None "atp" 1000 3000).
  - discriminate.
  - reflexivity.
  - reflexivity.
Defined.

Lemma collect_available_agree params (ps1 ps2 : dict Q) :
  (forall p, In p params -> get p ps1 = get p ps2) ->
  forall available missing,
    collect_available params ps1 available missing
    = collect_available params ps2 available missing.
Proof.
  induction params as [ | p rest IH]; intros Hagree available missing;
    [reflexivity | ].
  cbn [collect_available].
  rewrite <- (Hagree p) by (left; reflexivity).
  destruct (get p ps1) as [v | ]; apply IH; intros k Hk; apply Hagree;
    right; exact Hk.
Qed.

(** X2. [calculate_emi] reads its input only through the keys of the weight
    table: two mappings that agree on those keys give the same result, so
    the order of the keys and any additional key are irrelevant. *)
Theorem calculate_emi_agree :
  forall (ps1 ps2 : dict Q) (weights : option (dict Q))
         (thresholds : option (dict threshold)),
    (forall p,
        In p (keys (match weights with
                    | None => DEFAULT_WEIGHTS
                    | Some w => w
                    end)) ->
        get p ps1 = get p ps2) ->
    calculate_emi ps1 weights thresholds = calculate_emi ps2 weights thresholds.
Proof.
  intros ps1 ps2 weights thresholds Hagree. unfold calculate_emi.
  rewrite (collect_available_agree _ ps1 ps2 Hagree). reflexivity.
Qed.

Lemma calculate_emi_agree_witness :
  calculate_emi [("twi"%string, 0.5); ("mcc"%string, 0.25);
                 ("note"%string, 7)] None None
  = calculate_emi [("mcc"%string, 0.25); ("twi"%string, 0.5)] None None.
Proof.
  apply calculate_emi_agree.
  intros p Hin. cbn in Hin.
  repeat (destruct Hin as [<- | Hin]; [reflexivity | ]).
  contradiction.
Defined.

(** X3. When exactly one of the seven parameters is supplied, the EMI is
    that parameter's normalised value: its weight cancels. *)
Theorem calculate_emi_single :
  forall (param : string) (value : Q),
    In param (keys DEFAULT_WEIGHTS) ->
    exists emi : Q,
      calculate_emi [(param, value)] None None = Ok emi
      /\ emi == normalized param value.
Proof.
  intros param value Hin.
  rewrite calculate_emi_unfold.
  destruct (accumulate_supplied DEFAULT_WEIGHTS [(param, value)]
              DEFAULT_WEIGHTS default_weights_usable 0 0)
    as [ws [tw [E [Hws Htw]]]].
  cbn in Hin.
  repeat (destruct Hin as [<- | Hin];
          [ cbn [gathered keys DEFAULT_WEIGHTS map fst flat_map get
                 String.eqb Ascii.eqb Bool.eqb app] in *;
            rewrite E; cbn [bind];
            cbn [supplied_in DEFAULT_WEIGHTS flat_map get String.eqb
                 Ascii.eqb Bool.eqb app weighted_terms weight_terms map]
              in Hws, Htw;
            rewrite !Qsum_cons in Hws, Htw;
            change (Qsum []) with 0 in Hws, Htw;
            destruct (Qlt_le_dec 0 tw) as [Hpos | Hle];
            [ eexists; split; [reflexivity | ];
              rewrite Hws, Htw; field; discriminate
            | exfalso; rewrite Htw in Hle; revert Hle; clear;
              intros Hle; apply Qle_not_lt in Hle; apply Hle; reflexivity ]
          | ]).
  contradiction.
Qed.

Lemma calculate_emi_single_witness :
  exists emi : Q,
    calculate_emi [("atp"%string, 3000)] None None = Ok emi
    /\ emi == normalized "atp" 3000.
Proof.
  apply (calculate_emi_single "atp" 3000).
  cbn. auto 10.
Defined.

Lemma get_of_key {V : Type} (k : string) (d : dict V) :
  In k (keys d) -> exists v, get k d = Some v.
Proof.
  induction d as [ | [k' v'] d IH]; cbn; [contradiction | ].
  intros [-> | Hin].
  - rewrite String.eqb_refl. eexists. reflexivity.
  - destruct (String.eqb k k'); [eexists; reflexivity | apply IH; exact Hin].
Qed.

Lemma In_gathered parameters params (p : string) (v : Q) :
  In p params -> get p parameters = Some v ->
  In (p, v) (gathered parameters params).
Proof.
  intros Hin Hget. unfold gathered. apply in_flat_map.
  exists p. split; [exact Hin | ]. rewrite Hget. left. reflexivity.
Qed.

Lemma gathered_keys parameters params (p : string) (v : Q) :
  In (p, v) (gathered parameters params) -> In p params.
Proof.
  unfold gathered. rewrite in_flat_map. intros [q [Hq Hin]].
  destruct (get q parameters); [ | contradiction].
  destruct Hin as [H | []]. injection H as -> _. exact Hq.
Qed.

Lemma accumulate_unknown weights thresholds items :
  (forall p v, In (p, v) items -> In p (keys weights)) ->
  (exists p v, In (p, v) items /\ get p (table thresholds) = None) ->
  forall ws tw,
    exists q,
      accumulate items weights thresholds ws tw
      = Raise (ValueError ("Unknown parameter: " ++ q)).
Proof.
  induction items as [ | [k vk] rest IH];
    intros Hkeys [p [v [Hin Hnone]]] ws tw.
  - contradiction.
  - cbn [accumulate].
    destruct (get_of_key k weights (Hkeys k vk (or_introl eq_refl)))
      as [w Hw].
    rewrite Hw. unfold normalize_parameter at 1.
    destruct (get k (table thresholds)) as [t | ] eqn:Hk.
    + assert (Hrest : exists p v,
                 In (p, v) rest /\ get p (table thresholds) = None).
      { exists p, v. split; [ | exact Hnone].
        destruct Hin as [Heq | Hin]; [ | exact Hin].
        injection Heq as -> ->. congruence. }
      assert (Hkeys' : forall p v, In (p, v) rest -> In p (keys weights)).
      { intros p' v' Hin'. apply (Hkeys p' v'). right. exact Hin'. }
      destruct (Qeq_bool (t_max t) (t_min t)); cbn [bind];
        apply (IH Hkeys' Hrest).
    + exists k. reflexivity.
Qed.

(** X4. With custom tables, a supplied parameter that has a weight but no
    threshold makes [calculate_emi] raise the normaliser's
    [ValueError "Unknown parameter: ..."]; no partial score is returned. *)
Theorem calculate_emi_unknown_threshold :
  forall (parameters weights : dict Q) (thresholds : option (dict threshold))
         (p : string) (v : Q),
    NoDup (keys weights) ->
    In p (keys weights) ->
    get p parameters = Some v ->
    get p (table thresholds) = None ->
    exists q,
      calculate_emi parameters (Some weights) thresholds
      = Raise (ValueError ("Unknown parameter: " ++ q)).
Proof.
  intros parameters weights thresholds p v Hnd Hin Hget Hnone.
  unfold calculate_emi.
  pose proof (collect_available_gathered parameters (keys weights) [] []
                Hnd (fun _ _ => eq_refl)) as H.
  destruct (collect_available (keys weights) parameters [] [])
    as [available missing].
  cbn [fst app] in H. subst available.
  pose proof (In_gathered parameters (keys weights) p v Hin Hget) as Hitem.
  destruct (accumulate_unknown weights thresholds
              (gathered parameters (keys weights))
              (fun p' v' H' => gathered_keys parameters _ p' v' H')
              (ex_intro _ p (ex_intro _ v (conj Hitem Hnone))) 0 0)
    as [q E].
  exists q.
  destruct (gathered parameters (keys weights)) as [ | item items];
    [contradiction | ].
  rewrite E. reflexivity.
Qed.

Lemma calculate_emi_unknown_threshold_witness :
  exists q,
    calculate_emi [("albedo"%string, 0.5)] (Some [("albedo"%string, 1)]) None
    = Raise (ValueError ("Unknown parameter: " ++ q)).
Proof.
  apply (calculate_emi_unknown_threshold
           [("albedo"%string, 0.5)] [("albedo"%string, 1)] None "albedo" 0.5).
  - repeat constructor. cbn. tauto.
  - left. reflexivity.
  - reflexivity.
  - reflexivity.
Defined.

End EmiFurther.

(** ** SMG and TWI *)

Section SmgFurther.
Import Py Smg.
Local Open Scope Q_scope.

Ltac band_cases :=
  repeat match goal with
         | |- context [Qlt_le_dec ?x ?y] => destruct (Qlt_le_dec x y)
         end;
  try lra.

Lemma indicator_pressure_range (name : string) (f : Q -> Q) (v : Q) :
  get name INDICATOR_FUNCTIONS = Some f ->
  0 <= v <= 1 -> 0 <= f v <= 70.
Proof.
  intros Hget Hv. unfold INDICATOR_FUNCTIONS in Hget. cbn [get] in Hget.
  repeat match type of Hget with
         | (if ?c then _ else _) = _ =>
             destruct c; [injection Hget as <- | ]
         end;
    try discriminate Hget.
  - unfold olivine_to_pressure. band_cases.
  - unfold feldspar_to_pressure. band_cases.
  - unfold metal_to_pressure. lra.
  - unfold high_pressure_to_pressure. band_cases.
  - unfold sulfide_to_pressure. lra.
  - unfold porosity_to_pressure. lra.
Qed.

Lemma indicator_weight_positive (name : string) (w : Q) :
  get name INDICATOR_WEIGHTS = Some w -> 0 < w.
Proof.
  unfold INDICATOR_WEIGHTS. cbn [get]. intros H.
  repeat match type of H with
         | (if ?c then _ else _) = _ =>
             destruct c; [injection H as <-; reflexivity | ]
         end.
  discriminate H.
Qed.

(** The loop keeps the weighted pressure sum between 0 and 70 times the
    weight sum. *)
Lemma smg_loop_range items :
  (forall k v, In (k, v) items -> 0 <= v <= 1) ->
  forall wps ws pressures,
    0 <= ws -> 0 <= wps -> wps <= 70 * ws ->
    let '(wps', ws', _) := smg_loop items wps ws pressures in
    0 <= ws' /\ 0 <= wps' /\ wps' <= 70 * ws'.
Proof.
  induction items as [ | [k v] rest IH]; intros Hv wps ws pressures H0 H1 H2.
  - cbn. repeat split; assumption.
  - cbn [smg_loop].
    assert (Hrest : forall k' v', In (k', v') rest -> 0 <= v' <= 1).
    { intros k' v' Hin. apply (Hv k' v'). right. exact Hin. }
    destruct (get k INDICATOR_WEIGHTS) as [w | ] eqn:Hw;
      [ | apply IH; assumption].
    destruct (get k INDICATOR_FUNCTIONS) as [f | ] eqn:Hf;
      [ | apply IH; assumption].
    pose proof (indicator_weight_positive k w Hw) as Hpos.
    destruct (indicator_pressure_range k f v Hf (Hv k v (or_introl eq_refl)))
      as [Hf0 Hf70].
    assert (Hp0 : 0 <= w * f v).
    { apply Qmult_le_0_compat; [apply Qlt_le_weak; exact Hpos | exact Hf0]. }
    assert (Hp1 : w * f v <= w * 70).
    { apply Qmult_le_l; [exact Hpos | exact Hf70]. }
    apply IH; [exact Hrest | lra | lra | lra].
Qed.

(** X5. For indicator values in [0,1], [calculate_smg] returns a peak
    pressure between 0 and 70 GPa and an SMG score between 0 and 7/9: the
    cap [min(1, .)] is never reached. *)
Theorem calculate_smg_range :
  forall shock_data : dict Q,
    (forall k v, In (k, v) shock_data -> 0 <= v <= 1) ->
    let r := calculate_smg shock_data in
    0 <= peak_pressure_gpa r <= 70
    /\ 0 <= smg r <= 7 # 9.
Proof.
  intros shock_data Hv r. subst r. unfold calculate_smg.
  pose proof (smg_loop_range shock_data Hv 0 0 []) as H.
  destruct (smg_loop shock_data 0 0 []) as [[wps ws] pressures].
  destruct H as [Hws [Hwps Hle]]; try lra.
  destruct (Qeq_bool ws 0) eqn:E.
  - cbn. repeat split; discriminate.
  - apply Qeq_bool_neq in E.
    assert (Hpos : 0 < ws).
    { apply Qle_lteq in Hws. destruct Hws as [H | H]; [exact H | ].
      exfalso. apply E. symmetry. exact H. }
    cbn [peak_pressure_gpa smg].
    assert (Hp0 : 0 <= wps / ws) by (apply Qle_shift_div_l; lra).
    assert (Hp70 : wps / ws <= 70) by (apply Qle_shift_div_r; lra).
    split; [split; assumption | ].
    assert (Hq0 : 0 <= wps / ws / 90)
      by (apply Qle_shift_div_l; [reflexivity | lra]).
    assert (Hq1 : wps / ws / 90 <= 7 # 9)
      by (apply Qle_shift_div_r; [reflexivity | lra]).
    unfold py_min. destruct (Qlt_le_dec (wps / ws / 90) 1); lra.
Qed.

Lemma calculate_smg_range_witness :
  let r := calculate_smg [("olivine_planar"%string, 0.5);
                          ("porosity"%string, 0.2)] in
  0 <= peak_pressure_gpa r <= 70 /\ 0 <= smg r <= 7 # 9.
Proof.
  apply calculate_smg_range.
  intros k v Hin. cbn in Hin.
  destruct Hin as [H | [H | []]]; injection H as <- <-; split; discriminate.
Defined.

Lemma smg_loop_filter items :
  forall wps ws pressures,
    smg_loop (filter known_indicator items) wps ws pressures
    = smg_loop items wps ws pressures.
Proof.
  induction items as [ | [k v] rest IH]; intros wps ws pressures;
    [reflexivity | ].
  cbn [filter]. unfold known_indicator at 1. cbn [fst]. unfold contains.
  destruct (get k INDICATOR_WEIGHTS) as [w | ] eqn:Hw;
    destruct (get k INDICATOR_FUNCTIONS) as [f | ] eqn:Hf;
    cbn [andb smg_loop]; rewrite ?Hw, ?Hf; apply IH.
Qed.

(** X6. Entries whose key is not one of the six indicators have no effect
    on the result of [calculate_smg]. *)
Theorem calculate_smg_ignores_unknown :
  forall shock_data : dict Q,
    calculate_smg (filter known_indicator shock_data)
    = calculate_smg shock_data.
Proof.
  intros shock_data. unfold calculate_smg.
  rewrite smg_loop_filter. reflexivity.
Qed.

Lemma get_shock_stage_compat (x y : Q) :
  x == y -> get_shock_stage x = get_shock_stage y.
Proof.
  intros Heq. unfold get_shock_stage.
  repeat match goal with
         | |- context [Qlt_le_dec ?a ?b] => destruct (Qlt_le_dec a b)
         end;
    try reflexivity; exfalso; lra.
Qed.

(** X7. With a single indicator the weights cancel: the peak pressure is
    that indicator's mapped pressure, and the shock stage is the stage of
    that pressure. *)
Theorem calculate_smg_single :
  forall (name : string) (f : Q -> Q) (v : Q),
    get name INDICATOR_FUNCTIONS = Some f ->
    let r := calculate_smg [(name, v)] in
    peak_pressure_gpa r == f v
    /\ shock_stage r = get_shock_stage (f v)
    /\ pressures r = Some [(name, f v)].
Proof.
  intros name f v Hget r. subst r.
  unfold INDICATOR_FUNCTIONS in Hget. cbn [get] in Hget.
  assert (Hpeak : forall w : Q, 0 < w -> (0 + w * f v) / (0 + w) == f v).
  { intros w Hw. field. lra. }
  repeat match type of Hget with
         | (if String.eqb name ?k then _ else _) = _ =>
             let E := fresh "E" in
             destruct (String.eqb name k) eqn:E;
             [ apply String.eqb_eq in E; subst name; injection Hget as <-;
               unfold calculate_smg;
               cbn [smg_loop get INDICATOR_WEIGHTS INDICATOR_FUNCTIONS
                    String.eqb Ascii.eqb Bool.eqb set];
               match goal with
               | |- context [Qeq_bool (0 + ?w) 0] =>
                   change (Qeq_bool (0 + w) 0) with false;
                   cbn [peak_pressure_gpa shock_stage pressures];
                   split; [apply Hpeak; reflexivity | ];
                   split; [ | reflexivity];
                   apply get_shock_stage_compat; apply Hpeak; reflexivity
               end
             | ]
         end.
  discriminate Hget.
Qed.

Lemma calculate_smg_single_witness :
  let r := calculate_smg [("metal_melting"%string, 0.4)] in
  peak_pressure_gpa r == metal_to_pressure 0.4
  /\ shock_stage r = get_shock_stage (metal_to_pressure 0.4)
  /\ pressures r = Some [("metal_melting"%string, metal_to_pressure 0.4)].
Proof.
  apply (calculate_smg_single "metal_melting" metal_to_pressure 0.4).
  reflexivity.
Defined.

(** X8. The stage written beside each band of [olivine_to_pressure]
    (S1 ... S6) is the stage [get_shock_stage] assigns to the pressure of
    that band. *)
Theorem olivine_bands_match_stages :
  forall v : Q, get_shock_stage (olivine_to_pressure v) = olivine_stage v.
Proof.
  intros v. unfold olivine_to_pressure, olivine_stage.
  repeat match goal with
         | |- context [Qlt_le_dec v ?b] => destruct (Qlt_le_dec v b)
         end;
    reflexivity.
Qed.

End SmgFurther.

Section TwiFurther.
Import Py Twi.
Local Open Scope Q_scope.

Lemma py_clamp_inactive (x : Q) :
  0 <= x <= 1 -> py_min 1 (py_max 0 x) == x.
Proof.
  intros [H0 H1]. unfold py_min, py_max.
  destruct (Qlt_le_dec 0 x) as [Hlt | Hge].
  - destruct (Qlt_le_dec x 1); lra.
  - destruct (Qlt_le_dec 0 1) as [_ | H]; lra.
Qed.

Lemma py_clamp_range (x : Q) : 0 <= py_min 1 (py_max 0 x) <= 1.
Proof.
  unfold py_min, py_max.
  destruct (Qlt_le_dec 0 x); destruct (Qlt_le_dec _ 1); lra.
Qed.

Lemma get_default_range (k : string) (d : dict Q) :
  (forall k' v, get k' d = Some v -> 0 <= v <= 1) ->
  0 <= get_default k 0 d <= 1.
Proof.
  intros H. unfold get_default.
  destruct (get k d) as [v | ] eqn:E; [apply (H k v E) | lra].
Qed.

(** X9. [calculate_twi] always returns a number in [0,1]; when every
    supplied indicator lies in [0,1] the clamp is inactive and the result
    is the weighted sum 0.30, 0.25, 0.20, 0.15, 0.10 of the five
    indicators, an absent indicator counting as 0. *)
Theorem calculate_twi_range :
  forall weathering_data : dict Q,
    0 <= calculate_twi weathering_data <= 1
    /\ ((forall k v, get k weathering_data = Some v -> 0 <= v <= 1) ->
        calculate_twi weathering_data
        == 0.30 * get_default "metal_oxidation" 0 weathering_data
           + 0.25 * get_default "phyllosilicate" 0 weathering_data
           + 0.20 * get_default "carbonate_veins" 0 weathering_data
           + 0.15 * get_default "be_ne_deviation" 0 weathering_data
           + 0.10 * get_default "fe_ni_deviation" 0 weathering_data).
Proof.
  intros d. unfold calculate_twi. split; [apply py_clamp_range | ].
  intros Hv. apply py_clamp_inactive.
  pose proof (get_default_range "metal_oxidation" d Hv).
  pose proof (get_default_range "phyllosilicate" d Hv).
  pose proof (get_default_range "carbonate_veins" d Hv).
  pose proof (get_default_range "be_ne_deviation" d Hv).
  pose proof (get_default_range "fe_ni_deviation" d Hv).
  lra.
Qed.

End TwiFurther.

(** ** PBDR *)

Section PbdrFurther.
Import Py Pbdr.
Local Open Scope Q_scope.

Lemma Qsum_constant (l : list Q) (c : Q) :
  Forall (fun x => x == c) l ->
  Qsum l == c * inject_Z (Z.of_nat (List.length l)).
Proof.
  induction 1 as [ | x l Hx Hl IH].
  - cbn. ring.
  - change (Qsum (x :: l)) with (x + Qsum l).
    change (List.length (x :: l)) with (S (List.length l)).
    rewrite Nat2Z.inj_succ. unfold Z.succ. rewrite inject_Z_plus.
    set (n := inject_Z (Z.of_nat (List.length l))) in *.
    setoid_replace (x + Qsum l) with (c + c * n).
    + change (inject_Z 1) with 1. ring.
    + apply Qplus_comp; assumption.
Qed.

Lemma np_mean_constant (l : list Q) (c : Q) :
  l <> [] -> Forall (fun x => x == c) l -> np_mean l == c.
Proof.
  intros Hne Hall. unfold np_mean. rewrite (Qsum_constant l c Hall).
  assert (Hlen : 0 < inject_Z (Z.of_nat (List.length l))).
  { destruct l as [ | x l]; [contradiction | ].
    change 0 with (inject_Z 0). rewrite <- Zlt_Qlt.
    cbn [List.length]. lia. }
  field. lra.
Qed.

Lemma ratios_of_uniform (r : list (string * Q * Q)) (rho : Q) :
  (forall e m ref, In (e, m, ref) r -> 0 < ref /\ m == rho * ref) ->
  Forall (fun x => x == rho) (ratios_of r).
Proof.
  induction r as [ | [[e m] ref] r IH]; intros H; cbn; constructor.
  - destruct (H e m ref (or_introl eq_refl)) as [Hpos Hm].
    rewrite Hm. field. lra.
  - apply IH. intros e' m' ref' Hin. apply (H e' m' ref'). right. exact Hin.
Qed.

(** X10. Uniform depletion: when every retained abundance is the same
    fraction [rho] (between 0 and 1) of its chondritic reference, the
    returned PBDR is [1 - rho]; chondritic abundances give 0 and
    abundances at one tenth of the reference give 0.9.  The call returns
    unless the mapping holds an int of [2^64] or more. *)
Theorem calculate_pbdr_uniform :
  forall (hse_data : dict pyval) (rho : Q),
    retained hse_data <> [] ->
    (forall e m ref, In (e, m, ref) (retained hse_data) -> m == rho * ref) ->
    0 <= rho <= 1 ->
    match calculate_pbdr hse_data with
    | Ok r => pbdr r == 1 - rho /\ avg_hse_ratio r == rho
    | Raise _ => overflowing hse_data = true
    end.
Proof.
  intros hse_data rho Hne Huni Hrho.
  destruct (overflowing hse_data) eqn:Hov.
  { unfold calculate_pbdr. rewrite (pbdr_loop_overflow hse_data Hov).
    reflexivity. }
  assert (Hall : Forall (fun x => x == rho) (ratios_of (retained hse_data))).
  { apply ratios_of_uniform. intros e m ref Hin. split.
    - apply In_retained in Hin. destruct Hin as [_ [_ Hci]].
      apply (ci_reference_positive e ref Hci).
    - apply (Huni e m ref Hin). }
  rewrite (calculate_pbdr_retained hse_data Hov).
  destruct (ratios_of (retained hse_data)) as [ | x xs] eqn:Hr.
  - apply ratios_of_nil in Hr. contradiction.
  - assert (Hmean : np_mean (x :: xs) == rho).
    { apply np_mean_constant; [discriminate | exact Hall]. }
    cbn [pbdr avg_hse_ratio]. split; [ | exact Hmean].
    unfold py_max, py_min.
    destruct (Qlt_le_dec (1 - np_mean (x :: xs)) 1);
      destruct (Qlt_le_dec 0 _); lra.
Qed.

Lemma calculate_pbdr_uniform_witness :
  match
    calculate_pbdr [("os"%string, PyNum 48.6); ("ir"%string, PyNum 48.1)]
  with
  | Ok r => pbdr r == 1 - 0.1 /\ avg_hse_ratio r == 0.1
  | Raise _ =>
      overflowing [("os"%string, PyNum 48.6); ("ir"%string, PyNum 48.1)]
      = true
  end.
Proof.
  apply calculate_pbdr_uniform.
  - discriminate.
  - intros e m ref Hin. cbn in Hin.
    destruct Hin as [H | [H | []]]; injection H as <- <- <-; reflexivity.
  - split; discriminate.
Defined.

Lemma validate_loop_step (element : string) (value : pyval) rest validated :
  int_overflow value = false ->
  validate_loop ((element, value) :: rest) validated
  = match retained_entry (element, value) with
    | Some _ => validate_loop rest (set element value validated)
    | None => validate_loop rest validated
    end.
Proof.
  intros Hov. cbn [validate_loop]. rewrite (excluded_ok value Hov).
  cbn [bind]. unfold retained_entry, contains. cbn [fst snd].
  destruct (number_of value) as [q | ]; [ | reflexivity].
  destruct (get element CI_HSE_ABUNDANCES) as [reference | ] eqn:Hci.
  - destruct (Qle_bool q 0) eqn:Hq.
    + apply Qle_bool_true_le in Hq.
      destruct (Qlt_le_dec 0 q) as [Hpos | _]; [lra | reflexivity].
    + apply Qle_bool_false_lt in Hq.
      destruct (Qlt_le_dec 0 q) as [_ | Hle]; [reflexivity | lra].
  - destruct (Qle_bool q 0); reflexivity.
Qed.

Lemma validated_of_cons (entry : string * pyval) (rest : dict pyval) :
  validated_of (entry :: rest)
  = match retained_entry entry with
    | Some _ => entry :: validated_of rest
    | None => validated_of rest
    end.
Proof.
  unfold validated_of. cbn [filter].
  destruct (retained_entry entry); reflexivity.
Qed.

Lemma get_app_fresh {V : Type} (k : string) (d1 d2 : dict V) :
  get k d1 = None -> get k (d1 ++ d2) = get k d2.
Proof.
  induction d1 as [ | [k' v'] d1 IH]; cbn; intros H; [reflexivity | ].
  destruct (String.eqb k k'); [discriminate | apply IH; exact H].
Qed.

Lemma set_append {V : Type} (k : string) (v : V) (d : dict V) :
  get k d = None -> set k v d = (d ++ [(k, v)])%list.
Proof.
  induction d as [ | [k' v'] d IH]; cbn; intros H; [reflexivity | ].
  destruct (String.eqb k k'); [discriminate | ].
  rewrite IH by exact H. reflexivity.
Qed.

Lemma validate_loop_retained items :
  overflowing items = false ->
  NoDup (keys items) ->
  forall validated,
    (forall k, In k (keys items) -> get k validated = None) ->
    validate_loop items validated
    = Ok (validated ++ validated_of items)%list.
Proof.
  induction items as [ | [element value] rest IH];
    intros Hov Hnd validated Hfresh.
  - cbn. rewrite app_nil_r. reflexivity.
  - cbn [keys map fst] in Hnd. inversion Hnd as [ | ? ? Hnotin Hnd']; subst.
    rewrite overflowing_cons in Hov. apply orb_false_elim in Hov.
    destruct Hov as [Hv Hov].
    rewrite (validate_loop_step _ _ _ _ Hv), validated_of_cons.
    assert (Hrest : forall k, In k (keys rest) -> get k validated = None).
    { intros k Hk. apply Hfresh. right. exact Hk. }
    destruct (retained_entry (element, value)) as [r | ];
      [ | apply IH; assumption].
    rewrite set_append by (apply Hfresh; left; reflexivity).
    rewrite IH.
    + rewrite <- app_assoc. reflexivity.
    + exact Hov.
    + exact Hnd'.
    + intros k Hk. rewrite get_app_fresh by (apply Hrest; exact Hk).
      cbn [get]. destruct (String.eqb k element) eqn:E; [ | reflexivity].
      apply String.eqb_eq in E. subst k. contradiction.
Qed.

Lemma validate_loop_overflow items :
  overflowing items = true ->
  forall validated, validate_loop items validated = Raise TypeError.
Proof.
  induction items as [ | [element value] rest IH]; intros Hov validated.
  - discriminate Hov.
  - rewrite overflowing_cons in Hov.
    destruct (int_overflow value) eqn:Hv.
    + cbn [validate_loop]. rewrite (excluded_overflow value Hv). reflexivity.
    + cbn [orb] in Hov. rewrite (validate_loop_step _ _ _ _ Hv).
      destruct (retained_entry (element, value)); apply IH; exact Hov.
Qed.

Lemma keys_validated_of hse_data :
  keys (validated_of hse_data) = elements_of (retained hse_data).
Proof.
  induction hse_data as [ | [element value] rest IH]; [reflexivity | ].
  rewrite validated_of_cons, retained_cons.
  destruct (retained_entry (element, value)) as [[[e m] ref] | ] eqn:Hre;
    [ | exact IH].
  pose proof (retained_entry_name _ _ Hre) as Hname. cbn in Hname. subst e.
  cbn [keys map fst elements_of]. f_equal. exact IH.
Qed.

(** X11. [validate_hse_data] applies the same filter as [calculate_pbdr],
    and fails where it fails.  On a mapping with distinct keys and no int
    of [2^64] or more it returns the entries whose value is a positive
    finite number and whose element has a chondritic reference, in the
    order and with the values of the mapping, and its keys are the
    [elements_analyzed] of [calculate_pbdr]; on a mapping that holds an int
    of [2^64] or more both functions raise [TypeError]. *)
Theorem validate_hse_data_agrees :
  forall hse_data : dict pyval,
    NoDup (keys hse_data) ->
    (overflowing hse_data = false ->
     validate_hse_data hse_data = Ok (validated_of hse_data)
     /\ (forall element value,
            In (element, value) (validated_of hse_data)
            <-> In (element, value) hse_data
                /\ exists measured reference,
                     number_of value = Some measured /\ 0 < measured
                     /\ get element CI_HSE_ABUNDANCES = Some reference)
     /\ exists r : pbdr_result,
          calculate_pbdr hse_data = Ok r
          /\ keys (validated_of hse_data) = elements_analyzed r)
    /\ (overflowing hse_data = true ->
        validate_hse_data hse_data = Raise TypeError
        /\ calculate_pbdr hse_data = Raise TypeError).
Proof.
  intros hse_data Hnd. split; intros Hov.
  - split; [ | split].
    + unfold validate_hse_data.
      rewrite (validate_loop_retained hse_data Hov Hnd []
                 (fun _ _ => eq_refl)).
      reflexivity.
    + intros element value. unfold validated_of. rewrite filter_In.
      split.
      * intros [Hin Hre]. split; [exact Hin | ].
        destruct (retained_entry (element, value)) as [[[e m] ref] | ] eqn:E;
          [ | discriminate Hre].
        pose proof (retained_entry_name _ _ E) as Hname. cbn in Hname.
        subst e. apply retained_entry_iff in E. exists m, ref. exact E.
      * intros [Hin [m [ref H]]]. split; [exact Hin | ].
        apply retained_entry_iff in H. rewrite H. reflexivity.
    + eexists. split; [apply (calculate_pbdr_retained hse_data Hov) | ].
      rewrite keys_validated_of.
      destruct (ratios_of (retained hse_data)) eqn:Hr; [ | reflexivity].
      apply ratios_of_nil in Hr. rewrite Hr. reflexivity.
  - split.
    + apply (validate_loop_overflow hse_data Hov).
    + unfold calculate_pbdr. rewrite (pbdr_loop_overflow hse_data Hov).
      reflexivity.
Qed.

Lemma validate_hse_data_agrees_witness :
  validate_hse_data [("os"%string, PyInt 400); ("xx"%string, PyNum 1);
                     ("ir"%string, PyNaN); ("pd"%string, PyNum 5.5)]
  = Ok [("os"%string, PyInt 400); ("pd"%string, PyNum 5.5)]
  /\ validate_hse_data [("os"%string, PyNum 400);
                        ("ir"%string, PyInt (2 ^ 64))]
     = Raise TypeError.
Proof.
  split.
  - apply (validate_hse_data_agrees
             [("os"%string, PyInt 400); ("xx"%string, PyNum 1);
              ("ir"%string, PyNaN); ("pd"%string, PyNum 5.5)]).
    + repeat (constructor; [cbn; intuition discriminate | ]).
      constructor.
    + reflexivity.
  - apply (validate_hse_data_agrees
             [("os"%string, PyNum 400); ("ir"%string, PyInt (2 ^ 64))]).
    + repeat (constructor; [cbn; intuition discriminate | ]).
      constructor.
    + reflexivity.
Defined.

End PbdrFurther.

Section PbdrCoreFacts.
Import Py PbdrCore.
Local Open Scope R_scope.

Lemma clamp_unit_R (x : R) : 0 <= py_max_R 0 (py_min_R 1 x) <= 1.
Proof.
  unfold py_max_R, py_min_R.
  destruct (Rlt_dec x 1); destruct (Rlt_dec 0 _); lra.
Qed.

Lemma clamp_monotone_R (x y : R) :
  x <= y -> py_max_R 0 (py_min_R 1 x) <= py_max_R 0 (py_min_R 1 y).
Proof.
  intros H. unfold py_max_R, py_min_R.
  destruct (Rlt_dec x 1); destruct (Rlt_dec y 1);
    repeat match goal with
           | |- context [Rlt_dec 0 ?z] => destruct (Rlt_dec 0 z)
           end; lra.
Qed.

(** The value on the middle branch, as a function of the clamped ratio. *)
Lemma extent_middle_range (p : R) :
  0 < p -> 0 < 1 - exp (- p * 5) < 1.
Proof.
  intros Hp.
  assert (H1 : exp (- p * 5) < exp 0) by (apply exp_increasing; lra).
  rewrite exp_0 in H1.
  pose proof (exp_pos (- p * 5)). lra.
Qed.

(** X12. [calculate_core_formation_extent] returns a fraction in [0,1]
    that is 0 for [pbdr <= 0], 1 for [pbdr >= 0.99], and non-decreasing in
    [pbdr]; the partition coefficients do not enter the result. *)
Theorem core_formation_extent_range :
  forall (pbdr1 pbdr2 : R) (coeffs1 coeffs2 : option (dict R)),
    pbdr1 <= pbdr2 ->
    0 <= calculate_core_formation_extent pbdr1 coeffs1 <= 1
    /\ calculate_core_formation_extent pbdr1 coeffs1
       <= calculate_core_formation_extent pbdr2 coeffs2
    /\ (pbdr1 <= 0 -> calculate_core_formation_extent pbdr1 coeffs1 = 0)
    /\ (0.99 <= pbdr2 -> calculate_core_formation_extent pbdr2 coeffs2 = 1).
Proof.
  intros x y c1 c2 Hxy.
  assert (Hval : forall p c,
             let q := py_max_R 0 (py_min_R 1 p) in
             calculate_core_formation_extent p c
             = if Rle_dec 0.99 q then 1
               else if Rle_dec q 0 then 0
               else 1 - exp (- q * 5)).
  { intros p c q. unfold calculate_core_formation_extent. fold q.
    destruct (Rle_dec 0.99 q); [reflexivity | ].
    destruct (Rle_dec q 0) as [ | Hq]; [reflexivity | ].
    destruct (extent_middle_range q) as [F0 F1]; [lra | ].
    unfold py_min_R, py_max_R.
    destruct (Rlt_dec 0 (1 - exp (- q * 5))); [ | lra].
    destruct (Rlt_dec (1 - exp (- q * 5)) 1); [reflexivity | lra]. }
  rewrite (Hval x c1), (Hval y c2). cbv zeta.
  pose proof (clamp_unit_R x) as Hx. pose proof (clamp_unit_R y) as Hy.
  pose proof (clamp_monotone_R x y Hxy) as Hmono.
  set (qx := py_max_R 0 (py_min_R 1 x)) in *.
  set (qy := py_max_R 0 (py_min_R 1 y)) in *.
  assert (Hqx0 : x <= 0 -> qx = 0).
  { intros H. subst qx. unfold py_max_R, py_min_R.
    destruct (Rlt_dec x 1); [ | lra]. destruct (Rlt_dec 0 x); lra. }
  assert (Hqy1 : 0.99 <= y -> 0.99 <= qy).
  { intros H. subst qy. unfold py_max_R, py_min_R.
    destruct (Rlt_dec y 1); destruct (Rlt_dec 0 _); lra. }
  split; [ | split; [ | split]].
  - destruct (Rle_dec 0.99 qx); [lra | ].
    destruct (Rle_dec qx 0); [lra | ].
    destruct (extent_middle_range qx); lra.
  - destruct (Rle_dec 0.99 qx) as [Hx1 | Hx1].
    + destruct (Rle_dec 0.99 qy); lra.
    + destruct (Rle_dec qx 0) as [Hx0 | Hx0].
      * destruct (Rle_dec 0.99 qy); [lra | ].
        destruct (Rle_dec qy 0); [lra | ].
        destruct (extent_middle_range qy); lra.
      * destruct (extent_middle_range qx) as [Fx0 Fx1]; [lra | ].
        destruct (Rle_dec 0.99 qy); [lra | ].
        destruct (Rle_dec qy 0); [lra | ].
        destruct (Rle_lt_or_eq_dec qx qy Hmono) as [Hlt | Heq].
        -- assert (exp (- qy * 5) < exp (- qx * 5))
             by (apply exp_increasing; lra).
           lra.
        -- rewrite Heq. lra.
  - intros H0. rewrite (Hqx0 H0).
    destruct (Rle_dec 0.99 0); [lra | ].
    destruct (Rle_dec 0 0); [reflexivity | lra].
  - intros H1. specialize (Hqy1 H1).
    destruct (Rle_dec 0.99 qy); [reflexivity | lra].
Qed.

Lemma core_formation_extent_range_witness :
  0 <= calculate_core_formation_extent 0.2 None <= 1
  /\ calculate_core_formation_extent 0.2 None
     <= calculate_core_formation_extent 0.5 (Some [])
  /\ (0.2 <= 0 -> calculate_core_formation_extent 0.2 None = 0)
  /\ (0.99 <= 0.5 -> calculate_core_formation_extent 0.5 (Some []) = 1).
Proof.
  apply core_formation_extent_range. lra.
Defined.

End PbdrCoreFacts.

(** ** CNEA *)

Section CneaFurther.
Import Py Cnea.
Local Open Scope R_scope.

Lemma stable_loop_other (k : string) nuclide_data nuclides :
  ~ In k nuclides ->
  forall ages uncertainties,
    get k (fst (stable_loop nuclides nuclide_data ages uncertainties))
    = get k ages
    /\ get k (snd (stable_loop nuclides nuclide_data ages uncertainties))
       = get k uncertainties.
Proof.
  induction nuclides as [ | n rest IH]; intros Hnotin ages uncertainties.
  - split; reflexivity.
  - assert (Hne : k <> n) by (intros ->; apply Hnotin; left; reflexivity).
    assert (Hrest : ~ In k rest) by (intros H; apply Hnotin; right; exact H).
    specialize (IH Hrest). cbn [stable_loop].
    destruct (get n nuclide_data) as [[c | ] | ]; try apply IH.
    destruct (Rle_dec c 0); [apply IH | ].
    destruct (Rlt_dec 0 (get_default n 0 PRODUCTION_RATES)); [ | apply IH].
    destruct (IH (set n (c / get_default n 0 PRODUCTION_RATES) ages)
                (set n (0.08 * (c / get_default n 0 PRODUCTION_RATES))
                   uncertainties)) as [Ha Hu].
    rewrite Ha, Hu. rewrite !get_set_other by exact Hne.
    split; reflexivity.
Qed.

Lemma stable_loop_records (k : string) nuclide_data (concentration : R)
    nuclides :
  NoDup nuclides -> In k nuclides ->
  get k nuclide_data = Some (Some concentration) ->
  0 < concentration ->
  0 < get_default k 0 PRODUCTION_RATES ->
  forall ages uncertainties,
    let age := concentration / get_default k 0 PRODUCTION_RATES in
    get k (fst (stable_loop nuclides nuclide_data ages uncertainties))
    = Some age
    /\ get k (snd (stable_loop nuclides nuclide_data ages uncertainties))
       = Some (0.08 * age).
Proof.
  intros Hnd Hin Hdata Hpos HP.
  induction nuclides as [ | n rest IH]; [contradiction | ].
  intros ages uncertainties age.
  inversion Hnd as [ | ? ? Hnotin Hnd']; subst.
  destruct (string_dec n k) as [-> | Hne].
  - cbn [stable_loop]. rewrite Hdata.
    destruct (Rle_dec concentration 0); [lra | ].
    destruct (Rlt_dec 0 (get_default k 0 PRODUCTION_RATES)); [ | lra].
    destruct (stable_loop_other k nuclide_data rest Hnotin
                (set k age ages) (set k (0.08 * age) uncertainties))
      as [Ha Hu].
    fold age. rewrite Ha, Hu, !get_set_same. split; reflexivity.
  - assert (Hin' : In k rest) by (destruct Hin; [contradiction | assumption]).
    specialize (IH Hnd' Hin'). cbn [stable_loop].
    destruct (get n nuclide_data) as [[c | ] | ]; try apply IH.
    destruct (Rle_dec c 0); [apply IH | ].
    destruct (Rlt_dec 0 (get_default n 0 PRODUCTION_RATES)); apply IH.
Qed.

Lemma stable_tables (nuclide : string) :
  In nuclide STABLE ->
  exists production_rate,
    get nuclide PRODUCTION_RATES = Some production_rate
    /\ 0 < production_rate /\ ~ In nuclide RADIOACTIVE.
Proof.
  intros [<- | [<- | [<- | []]]].
  - exists 1.5. repeat split; [lra | cbn; intuition discriminate].
  - exists 0.35. repeat split; [lra | cbn; intuition discriminate].
  - exists 0.08. repeat split; [lra | cbn; intuition discriminate].
Qed.

Lemma stable_nodup : NoDup STABLE.
Proof.
  unfold STABLE.
  repeat (constructor; [cbn; intuition discriminate | ]).
  constructor.
Qed.

(** The dictionaries of the result are those the two loops leave. *)
Lemma calculate_cnea_recorded nuclide_data :
  ages (calculate_cnea nuclide_data) = fst (recorded nuclide_data)
  /\ (fst (recorded nuclide_data) <> [] ->
      uncertainties (calculate_cnea nuclide_data)
      = snd (recorded nuclide_data)).
Proof.
  unfold calculate_cnea, recorded.
  destruct (stable_loop STABLE nuclide_data [] []) as [ages0 unc0].
  cbn [fst snd].
  destruct (radioactive_loop RADIOACTIVE nuclide_data ages0 unc0)
    as [ages1 unc1].
  cbn [fst snd].
  destruct ages1 as [ | item ages1].
  - split; [reflexivity | intros H; contradiction].
  - destruct (weight_loop (item :: ages1) unc1 [] []) as [weights vals].
    destruct (check_concordance (item :: ages1) unc1 2) as [conc c].
    split; [reflexivity | intros _; reflexivity].
Qed.

(** X13. For each stable nuclide (he3, ne21, ar38) supplied with a
    positive concentration, the recorded age is concentration over
    production rate and the recorded uncertainty is 8% of that age. *)
Theorem calculate_cnea_stable :
  forall (nuclide_data : dict (option R)) (nuclide : string)
         (concentration : R),
    In nuclide STABLE ->
    get nuclide nuclide_data = Some (Some concentration) ->
    0 < concentration ->
    exists production_rate : R,
      get nuclide PRODUCTION_RATES = Some production_rate
      /\ get nuclide (ages (calculate_cnea nuclide_data))
         = Some (concentration / production_rate)
      /\ get nuclide (uncertainties (calculate_cnea nuclide_data))
         = Some (0.08 * (concentration / production_rate)).
Proof.
  intros nuclide_data nuclide concentration Hin Hdata Hpos.
  destruct (stable_tables nuclide Hin) as [P [HP [HP0 Hnotrad]]].
  exists P. split; [exact HP | ].
  assert (HPd : get_default nuclide 0 PRODUCTION_RATES = P).
  { unfold get_default. rewrite HP. reflexivity. }
  pose proof (stable_loop_records nuclide nuclide_data concentration STABLE
                stable_nodup Hin Hdata Hpos) as Hrec.
  rewrite HPd in Hrec. specialize (Hrec HP0 [] []). cbv zeta in Hrec.
  destruct Hrec as [Ha Hu].
  destruct (radioactive_loop_other nuclide nuclide_data RADIOACTIVE Hnotrad
              (fst (stable_loop STABLE nuclide_data [] []))
              (snd (stable_loop STABLE nuclide_data [] []))) as [Ha' Hu'].
  rewrite Ha in Ha'. rewrite Hu in Hu'.
  destruct (calculate_cnea_recorded nuclide_data) as [Eages Eunc].
  unfold recorded in Eages, Eunc. cbv zeta in Eages, Eunc.
  rewrite Eages, Eunc.
  - split; assumption.
  - intros Hnil. rewrite Hnil in Ha'. discriminate.
Qed.

Lemma calculate_cnea_stable_witness :
  exists production_rate : R,
    get "he3"%string PRODUCTION_RATES = Some production_rate
    /\ get "he3"%string (ages (calculate_cnea [("he3"%string, Some 30)]))
       = Some (30 / production_rate)
    /\ get "he3"%string
         (uncertainties (calculate_cnea [("he3"%string, Some 30)]))
       = Some (0.08 * (30 / production_rate)).
Proof.
  apply (calculate_cnea_stable [("he3"%string, Some 30)] "he3" 30).
  - left. reflexivity.
  - reflexivity.
  - lra.
Defined.

Lemma ln_2_pos : 0 < ln 2.
Proof. rewrite <- ln_1. apply ln_increasing; lra. Qed.

Lemma half_life_positive (nuclide : string) (half_life : R) :
  get nuclide HALF_LIVES = Some half_life -> 0 < half_life.
Proof.
  unfold HALF_LIVES. cbn [get]. intros H.
  repeat match type of H with
         | (if ?c then _ else _) = _ =>
             destruct c; [injection H as <-; lra | ]
         end.
  discriminate H.
Qed.

Lemma saturation_age_positive (P half_life concentration : R) :
  0 < P -> 0 < half_life -> 0 < concentration ->
  0 < fst (saturation_age P half_life concentration)
  /\ 0 < snd (saturation_age P half_life concentration).
Proof.
  intros HP Hh Hc. unfold saturation_age.
  pose proof ln_2_pos as Hln.
  assert (Hdecay : 0 < ln 2 / half_life) by (apply Rdiv_lt_0_compat; lra).
  assert (Hsat : 0 < P / (ln 2 / half_life))
    by (apply Rdiv_lt_0_compat; lra).
  set (decay := ln 2 / half_life) in *.
  set (N_sat := P / decay) in *.
  destruct (Rlt_dec concentration N_sat) as [Hlt | Hge]; cbn [fst snd].
  - assert (Hx0 : 0 < concentration / N_sat)
      by (apply Rdiv_lt_0_compat; lra).
    assert (Hx1 : concentration / N_sat < 1).
    { apply (Rmult_lt_reg_r N_sat); [exact Hsat | ].
      unfold Rdiv. rewrite Rmult_assoc, Rinv_l by lra. lra. }
    assert (Hlog : ln (1 - concentration / N_sat) < 0).
    { rewrite <- ln_1. apply ln_increasing; lra. }
    assert (Hage : 0 < - ln (1 - concentration / N_sat) / decay)
      by (apply Rdiv_lt_0_compat; lra).
    split; lra.
  - split; lra.
Qed.

Lemma recorded_ok_set nuclide_data ages uncertainties (k : string)
    (age uncertainty : R) :
  recorded_ok nuclide_data ages uncertainties ->
  usable nuclide_data k -> 0 < age -> 0 < uncertainty ->
  recorded_ok nuclide_data (set k age ages) (set k uncertainty uncertainties).
Proof.
  intros Hok Huse Ha Hu k' a' Hget.
  destruct (string_dec k' k) as [-> | Hne].
  - rewrite get_set_same in Hget. injection Hget as <-.
    split; [exact Huse | ]. split; [exact Ha | ].
    exists uncertainty. rewrite get_set_same. split; [reflexivity | exact Hu].
  - rewrite get_set_other in Hget by exact Hne.
    destruct (Hok k' a' Hget) as [H1 [H2 [u [H3 H4]]]].
    split; [exact H1 | ]. split; [exact H2 | ].
    exists u. rewrite get_set_other by exact Hne. split; assumption.
Qed.

Lemma stable_loop_ok nuclide_data nuclides :
  (forall k, In k nuclides -> In k (STABLE ++ RADIOACTIVE)%list) ->
  forall ages uncertainties,
    recorded_ok nuclide_data ages uncertainties ->
    recorded_ok nuclide_data
      (fst (stable_loop nuclides nuclide_data ages uncertainties))
      (snd (stable_loop nuclides nuclide_data ages uncertainties)).
Proof.
  induction nuclides as [ | n rest IH]; intros Hknown ages uncertainties Hok;
    [exact Hok | ].
  assert (Hrest : forall k, In k rest -> In k (STABLE ++ RADIOACTIVE)%list)
    by (intros k Hk; apply Hknown; right; exact Hk).
  cbn [stable_loop].
  destruct (get n nuclide_data) as [[c | ] | ] eqn:Hdata;
    try (apply IH; assumption).
  destruct (Rle_dec c 0) as [ | Hc]; [apply IH; assumption | ].
  destruct (Rlt_dec 0 (get_default n 0 PRODUCTION_RATES)) as [HP | ];
    [ | apply IH; assumption].
  apply IH; [exact Hrest | ].
  assert (Hage : 0 < c / get_default n 0 PRODUCTION_RATES)
    by (apply Rdiv_lt_0_compat; lra).
  apply recorded_ok_set; try assumption; try lra.
  split; [apply Hknown; left; reflexivity | ].
  exists c. split; [exact Hdata | lra].
Qed.

Lemma radioactive_loop_ok nuclide_data nuclides :
  (forall k, In k nuclides -> In k (STABLE ++ RADIOACTIVE)%list) ->
  forall ages uncertainties,
    recorded_ok nuclide_data ages uncertainties ->
    recorded_ok nuclide_data
      (fst (radioactive_loop nuclides nuclide_data ages uncertainties))
      (snd (radioactive_loop nuclides nuclide_data ages uncertainties)).
Proof.
  induction nuclides as [ | n rest IH]; intros Hknown ages uncertainties Hok;
    [exact Hok | ].
  assert (Hrest : forall k, In k rest -> In k (STABLE ++ RADIOACTIVE)%list)
    by (intros k Hk; apply Hknown; right; exact Hk).
  cbn [radioactive_loop].
  destruct (get n nuclide_data) as [[c | ] | ] eqn:Hdata;
    try (apply IH; assumption).
  destruct (Rle_dec c 0) as [ | Hc]; [apply IH; assumption | ].
  destruct (get n HALF_LIVES) as [h | ] eqn:Hh; [ | apply IH; assumption].
  destruct (Rlt_dec 0 (get_default n 0 PRODUCTION_RATES)) as [HP | ];
    [ | apply IH; assumption].
  destruct (Req_dec_T h 0); [apply IH; assumption | ].
  pose proof (half_life_positive n h Hh) as Hh0.
  destruct (saturation_age_positive (get_default n 0 PRODUCTION_RATES) h c
              HP Hh0) as [Ha Hu]; [lra | ].
  destruct (saturation_age (get_default n 0 PRODUCTION_RATES) h c)
    as [age uncertainty].
  cbn [fst snd] in Ha, Hu.
  apply IH; [exact Hrest | ].
  apply recorded_ok_set; try assumption.
  split; [apply Hknown; left; reflexivity | ].
  exists c. split; [exact Hdata | lra].
Qed.

Lemma recorded_is_ok nuclide_data :
  recorded_ok nuclide_data (fst (recorded nuclide_data))
    (snd (recorded nuclide_data)).
Proof.
  unfold recorded. cbv zeta.
  apply radioactive_loop_ok.
  - intros k Hk. apply in_or_app. right. exact Hk.
  - apply stable_loop_ok.
    + intros k Hk. apply in_or_app. left. exact Hk.
    + intros k a Hget. discriminate Hget.
Qed.

(** X14. Every age in the result comes from one of the six known nuclides
    supplied with a positive concentration, is strictly positive, and has a
    strictly positive uncertainty recorded beside it: [None], zero and
    negative concentrations and unknown nuclide names never reach the
    result. *)
Theorem calculate_cnea_recorded_ages :
  forall (nuclide_data : dict (option R)) (nuclide : string) (age : R),
    get nuclide (ages (calculate_cnea nuclide_data)) = Some age ->
    usable nuclide_data nuclide
    /\ 0 < age
    /\ exists uncertainty,
         get nuclide (uncertainties (calculate_cnea nuclide_data))
         = Some uncertainty
         /\ 0 < uncertainty.
Proof.
  intros nuclide_data nuclide age Hget.
  destruct (calculate_cnea_recorded nuclide_data) as [Eages Eunc].
  rewrite Eages in Hget.
  rewrite Eunc by (intros Hnil; rewrite Hnil in Hget; discriminate).
  apply (recorded_is_ok nuclide_data nuclide age Hget).
Qed.

Lemma ne21_example_recorded :
  get "ne21"%string (ages (calculate_cnea [("ne21"%string, Some 7)]))
  = Some (7 / 0.35).
Proof.
  assert (HP : 0 < get_default "ne21" 0 PRODUCTION_RATES)
    by (cbn; lra).
  assert (Hin : In "ne21"%string STABLE) by (right; left; reflexivity).
  destruct (stable_loop_records "ne21" [("ne21"%string, Some 7)] 7 STABLE
              stable_nodup Hin eq_refl ltac:(lra) HP [] []) as [Ha _].
  destruct (stable_tables "ne21" Hin) as [_ [_ [_ Hnotrad]]].
  destruct (radioactive_loop_other "ne21" [("ne21"%string, Some 7)]
              RADIOACTIVE Hnotrad
              (fst (stable_loop STABLE [("ne21"%string, Some 7)] [] []))
              (snd (stable_loop STABLE [("ne21"%string, Some 7)] [] [])))
    as [Ha' _].
  destruct (calculate_cnea_recorded [("ne21"%string, Some 7)]) as [Eages _].
  rewrite Eages. unfold recorded. cbv zeta. rewrite Ha', Ha. reflexivity.
Qed.

Lemma calculate_cnea_recorded_ages_witness :
  usable [("ne21"%string, Some 7)] "ne21"
  /\ 0 < 7 / 0.35
  /\ exists uncertainty,
       get "ne21"%string
         (uncertainties (calculate_cnea [("ne21"%string, Some 7)]))
       = Some uncertainty
       /\ 0 < uncertainty.
Proof.
  apply (calculate_cnea_recorded_ages [("ne21"%string, Some 7)] "ne21").
  exact ne21_example_recorded.
Defined.

End CneaFurther.

Section CneaFusion.
Import Py Cnea.
Local Open Scope R_scope.

Lemma np_sum_snoc (l : list R) (y : R) :
  np_sum (l ++ [y]) = np_sum l + y.
Proof.
  unfold np_sum. induction l as [ | x l IH]; cbn; [lra | ].
  rewrite IH. lra.
Qed.

Lemma combine_snoc (vs ws : list R) (v w : R) :
  List.length vs = List.length ws ->
  combine (vs ++ [v]) (ws ++ [w]) = (combine vs ws ++ [(v, w)])%list.
Proof.
  revert ws. induction vs as [ | a vs IH]; intros [ | b ws] H;
    try discriminate; [reflexivity | ].
  cbn. f_equal. apply IH. injection H as H. exact H.
Qed.

Lemma weight_loop_bounds items uncertainties (lo hi : R) :
  (forall k a, In (k, a) items -> lo <= a <= hi) ->
  forall weights vals,
    List.length vals = List.length weights ->
    0 <= np_sum weights ->
    (weights <> [] -> 0 < np_sum weights) ->
    lo * np_sum weights <= weighted vals weights <= hi * np_sum weights ->
    let '(weights', vals') := weight_loop items uncertainties weights vals in
    (weights' <> [] -> 0 < np_sum weights')
    /\ lo * np_sum weights' <= weighted vals' weights' <= hi * np_sum weights'.
Proof.
  induction items as [ | [k a] rest IH];
    intros Hrange weights vals Hlen Hnn Hpos Hbound.
  - cbn. split; assumption.
  - cbn [weight_loop].
    assert (Hrest : forall k' a', In (k', a') rest -> lo <= a' <= hi)
      by (intros k' a' Hin; apply (Hrange k' a'); right; exact Hin).
    destruct (Rlt_dec 0 (get_default k 0 uncertainties)) as [Hs | ];
      [ | apply IH; assumption].
    set (w := 1 / get_default k 0 uncertainties ^ 2).
    assert (Hw : 0 < w).
    { subst w. apply Rdiv_lt_0_compat; [lra | ].
      apply pow_lt. exact Hs. }
    destruct (Hrange k a (or_introl eq_refl)) as [Hlo Hhi].
    apply IH.
    + exact Hrest.
    + rewrite !length_app, Hlen. reflexivity.
    + rewrite np_sum_snoc. lra.
    + intros _. rewrite np_sum_snoc. lra.
    + unfold weighted. rewrite combine_snoc by exact Hlen.
      rewrite map_app. cbn [map]. rewrite !np_sum_snoc.
      fold (weighted vals weights).
      assert (lo * w <= a * w) by (apply Rmult_le_compat_r; lra).
      assert (a * w <= hi * w) by (apply Rmult_le_compat_r; lra).
      lra.
Qed.

Lemma np_mean_bounds (l : list R) (lo hi : R) :
  l <> [] -> Forall (fun a => lo <= a <= hi) l -> lo <= np_mean l <= hi.
Proof.
  intros Hne Hall. unfold np_mean.
  assert (Hn : 0 < INR (List.length l)).
  { destruct l; [contradiction | ]. apply lt_0_INR. cbn. lia. }
  assert (Hsum : lo * INR (List.length l) <= np_sum l
                 /\ np_sum l <= hi * INR (List.length l)).
  { clear Hne Hn. induction Hall as [ | a l Ha Hl IH].
    - cbn. lra.
    - change (np_sum (a :: l)) with (a + np_sum l).
      change (List.length (a :: l)) with (S (List.length l)).
      rewrite S_INR. lra. }
  split.
  - apply (Rmult_le_reg_r (INR (List.length l))); [exact Hn | ].
    unfold Rdiv. rewrite Rmult_assoc, Rinv_l by lra. lra.
  - apply (Rmult_le_reg_r (INR (List.length l))); [exact Hn | ].
    unfold Rdiv. rewrite Rmult_assoc, Rinv_l by lra. lra.
Qed.

(** X15. The fused age is a weighted mean: it lies between any lower and
    upper bound of the recorded nuclide ages (so a single usable nuclide
    gives its own age), and the CNEA score is the fused age over 100,
    without clamping. *)
Theorem calculate_cnea_fused_age_range :
  forall (nuclide_data : dict (option R)) (lo hi : R),
    ages (calculate_cnea nuclide_data) <> [] ->
    (forall k a,
        In (k, a) (ages (calculate_cnea nuclide_data)) -> lo <= a <= hi) ->
    lo <= age_ma (calculate_cnea nuclide_data) <= hi
    /\ cnea (calculate_cnea nuclide_data)
       = age_ma (calculate_cnea nuclide_data) / 100.
Proof.
  intros nuclide_data lo hi. unfold calculate_cnea.
  destruct (stable_loop STABLE nuclide_data [] []) as [ages0 unc0].
  destruct (radioactive_loop RADIOACTIVE nuclide_data ages0 unc0)
    as [ages1 unc1].
  destruct ages1 as [ | item ages1]; [intros H; contradiction | ].
  pose proof (fun H => weight_loop_bounds (item :: ages1) unc1 lo hi H
                        [] [] eq_refl) as Hw.
  cbv beta in Hw.
  destruct (weight_loop (item :: ages1) unc1 [] []) as [weights vals].
  destruct (check_concordance (item :: ages1) unc1 2) as [conc c].
  cbn [ages age_ma cnea]. intros _ Hrange.
  split; [ | reflexivity].
  destruct weights as [ | w weights].
  - apply np_mean_bounds; [destruct item; discriminate | ].
    apply Forall_forall. intros a Hin. unfold values in Hin.
    apply in_map_iff in Hin. destruct Hin as [[k a'] [Heq Hin]].
    cbn in Heq. subst a'. apply (Hrange k a Hin).
  - destruct (Hw Hrange) as [Hpos [Hlo Hhi]].
    + cbn. lra.
    + intros H. contradiction.
    + unfold weighted. cbn. lra.
    + specialize (Hpos ltac:(discriminate)).
      unfold np_average. fold (weighted vals (w :: weights)).
      split.
      * apply (Rmult_le_reg_r (np_sum (w :: weights))); [exact Hpos | ].
        unfold Rdiv. rewrite Rmult_assoc, Rinv_l by lra. lra.
      * apply (Rmult_le_reg_r (np_sum (w :: weights))); [exact Hpos | ].
        unfold Rdiv. rewrite Rmult_assoc, Rinv_l by lra. lra.
Qed.

Lemma calculate_cnea_fused_age_range_witness :
  20 <= age_ma (calculate_cnea [("ne21"%string, Some 7)]) <= 20
  /\ cnea (calculate_cnea [("ne21"%string, Some 7)])
     = age_ma (calculate_cnea [("ne21"%string, Some 7)]) / 100.
Proof.
  pose proof ne21_example_recorded as Hrec.
  apply calculate_cnea_fused_age_range.
  - intros Hnil. rewrite Hnil in Hrec. discriminate.
  - intros k a Hin.
    destruct (calculate_cnea_recorded [("ne21"%string, Some 7)])
      as [Eages _].
    rewrite Eages in Hin. unfold recorded in Hin.
    cbn [stable_loop STABLE get String.eqb Ascii.eqb Bool.eqb fst snd]
      in Hin.
    destruct (Rle_dec 7 0); [lra | ].
    cbn [get_default get PRODUCTION_RATES String.eqb Ascii.eqb Bool.eqb]
      in Hin.
    destruct (Rlt_dec 0 0.35); [ | lra].
    cbn [stable_loop radioactive_loop RADIOACTIVE set get String.eqb
         Ascii.eqb Bool.eqb fst snd] in Hin.
    destruct Hin as [Heq | []]. injection Heq as _ <-. lra.
Defined.

Lemma py_max_R_le (a b t : R) : py_max_R a b <= t <-> a <= t /\ b <= t.
Proof. unfold py_max_R. destruct (Rlt_dec a b); split; lra. Qed.

Lemma deviation_loop_le items uncertainties (mean_age : R) :
  forall max_dev deviations (t : R),
    fst (deviation_loop items uncertainties mean_age max_dev deviations) <= t
    <-> max_dev <= t
        /\ forall k a,
             In (k, a) items ->
             0 < get_default k 0 uncertainties ->
             Rabs (a - mean_age) / get_default k 0 uncertainties <= t.
Proof.
  induction items as [ | [k a] rest IH]; intros max_dev deviations t.
  - cbn. split; [intros H; split; [exact H | intros ? ? []] | tauto].
  - cbn [deviation_loop].
    destruct (Rlt_dec 0 (get_default k 0 uncertainties)) as [Hs | Hs].
    + rewrite IH, py_max_R_le. split.
      * intros [[Hm Hd] Hrest]. split; [exact Hm | ].
        intros k' a' [Heq | Hin] Hpos.
        -- injection Heq as <- <-. exact Hd.
        -- apply (Hrest k' a' Hin Hpos).
      * intros [Hm Hall]. split; [split; [exact Hm | ] | ].
        -- apply (Hall k a (or_introl eq_refl) Hs).
        -- intros k' a' Hin Hpos. apply (Hall k' a' (or_intror Hin) Hpos).
    + rewrite IH. split.
      * intros [Hm Hrest]. split; [exact Hm | ].
        intros k' a' [Heq | Hin] Hpos.
        -- injection Heq as <- <-. contradiction.
        -- apply (Hrest k' a' Hin Hpos).
      * intros [Hm Hall]. split; [exact Hm | ].
        intros k' a' Hin Hpos. apply (Hall k' a' (or_intror Hin) Hpos).
Qed.

(** X16. [check_concordance] reports fewer than two ages as concordant;
    for two or more it reports concordance exactly when the threshold is
    non-negative and every nuclide with a positive uncertainty deviates
    from the plain mean of the ages by at most the threshold in units of
    its own uncertainty. *)
Theorem check_concordance_iff :
  forall (ages uncertainties : dict R) (threshold : R),
    ((List.length ages < 2)%nat ->
     fst (check_concordance ages uncertainties threshold) = true)
    /\ ((2 <= List.length ages)%nat ->
        (fst (check_concordance ages uncertainties threshold) = true
         <-> 0 <= threshold
             /\ forall k a,
                  In (k, a) ages ->
                  0 < get_default k 0 uncertainties ->
                  Rabs (a - np_mean (values ages))
                  / get_default k 0 uncertainties <= threshold)).
Proof.
  intros ages uncertainties threshold. unfold check_concordance. split.
  - intros Hlt. apply Nat.ltb_lt in Hlt. rewrite Hlt. reflexivity.
  - intros Hge. apply Nat.ltb_ge in Hge. rewrite Hge.
    pose proof (deviation_loop_le ages uncertainties (np_mean (values ages))
                  0 [] threshold) as Hiff.
    destruct (deviation_loop ages uncertainties (np_mean (values ages)) 0 [])
      as [max_dev deviations].
    cbn [fst] in *.
    destruct (Rle_dec max_dev threshold) as [Hle | Hnle].
    + split; [intros _; apply Hiff; exact Hle | reflexivity].
    + split; [discriminate | ].
      intros H. exfalso. apply Hnle. apply Hiff. exact H.
Qed.

(** X17. [estimate_shielding_depth] is non-decreasing in the ratio, and
    is 0 exactly for a non-positive ratio. *)
Theorem estimate_shielding_depth_monotone :
  forall r1 r2 : R,
    r1 <= r2 ->
    estimate_shielding_depth r1 <= estimate_shielding_depth r2
    /\ (estimate_shielding_depth r1 = 0 <-> r1 <= 0).
Proof.
  intros r1 r2 Hle. unfold estimate_shielding_depth.
  repeat match goal with
         | |- context [Rle_dec ?a ?b] => destruct (Rle_dec a b)
         | |- context [Rlt_dec ?a ?b] => destruct (Rlt_dec a b)
         end;
    split; try lra; split; intros; lra.
Qed.

Lemma estimate_shielding_depth_monotone_witness :
  estimate_shielding_depth 4 <= estimate_shielding_depth 12
  /\ (estimate_shielding_depth 4 = 0 <-> 4 <= 0).
Proof.
  apply estimate_shielding_depth_monotone. lra.
Defined.

End CneaFusion.

(** ** Distances *)

Section DistanceFurther.
Import Py Mahalanobis.
Local Open Scope R_scope.

Lemma sum_squares_symmetric (x c : vector) :
  sum_squares (zip_with Rminus x c) = sum_squares (zip_with Rminus c x).
Proof.
  unfold sum_squares, np_sum. revert c.
  induction x as [ | a x IH]; intros [ | b c]; try reflexivity.
  cbn [zip_with map fold_right]. rewrite IH. ring.
Qed.

Lemma sum_squares_zero_iff (x c : vector) :
  List.length x = List.length c ->
  (sum_squares (zip_with Rminus x c) = 0 <-> x = c).
Proof.
  revert c. induction x as [ | a x IH]; intros [ | b c] Hlen;
    try discriminate.
  - split; reflexivity.
  - injection Hlen as Hlen. specialize (IH c Hlen).
    unfold sum_squares, np_sum in *. cbn [zip_with map fold_right].
    pose proof (sum_squares_nonneg (zip_with Rminus x c)) as Hnn.
    unfold sum_squares, np_sum in Hnn.
    pose proof (pow2_ge_0 (a - b)) as Hsq.
    split.
    + intros H.
      assert (H1 : (a - b) ^ 2 = 0) by lra.
      assert (H2 : fold_right Rplus 0
                     (map (fun d => d ^ 2) (zip_with Rminus x c)) = 0) by lra.
      apply IH in H2. subst c.
      assert (a - b = 0).
      { destruct (Req_dec (a - b) 0) as [E | E]; [exact E | ].
        exfalso. apply (pow_nonzero (a - b) 2 E). exact H1. }
      f_equal. lra.
    + intros H. injection H as -> ->.
      assert (H2 : fold_right Rplus 0
                     (map (fun d => d ^ 2) (zip_with Rminus c c)) = 0)
        by (apply IH; reflexivity).
      rewrite H2. ring.
Qed.

(** X18. On vectors of equal length [euclidean_distance] raises nothing,
    is symmetric and non-negative, and is 0 exactly when the two vectors
    are equal. *)
Theorem euclidean_distance_metric :
  forall x c : vector,
    List.length x = List.length c ->
    exists d : R,
      euclidean_distance x c = Ok (Fin d)
      /\ euclidean_distance c x = Ok (Fin d)
      /\ 0 <= d
      /\ (d = 0 <-> x = c).
Proof.
  intros x c Hlen.
  exists (sqrt (sum_squares (zip_with Rminus x c))).
  unfold euclidean_distance.
  rewrite (np_sub_same_length x c Hlen).
  rewrite (np_sub_same_length c x (eq_sym Hlen)). cbn [bind].
  rewrite <- (sum_squares_symmetric x c).
  rewrite np_sqrt_nonneg by apply sum_squares_nonneg.
  split; [reflexivity | ]. split; [reflexivity | ].
  split; [apply sqrt_pos | ].
  rewrite <- (sum_squares_zero_iff x c Hlen). split.
  - intros H. apply sqrt_eq_0; [apply sum_squares_nonneg | exact H].
  - intros H. rewrite H. apply sqrt_0.
Qed.

Lemma euclidean_distance_metric_witness :
  exists d : R,
    euclidean_distance [2; 3; 4] [1; 2; 3] = Ok (Fin d)
    /\ euclidean_distance [1; 2; 3] [2; 3; 4] = Ok (Fin d)
    /\ 0 <= d
    /\ (d = 0 <-> [2; 3; 4] = [1; 2; 3]).
Proof.
  apply euclidean_distance_metric. reflexivity.
Defined.

(** X19. A covariance that is not square also takes the Euclidean
    fallback: [np.linalg.inv] raises [LinAlgError] on it, which the
    [except] clause catches. *)
Theorem mahalanobis_non_square_fallback :
  forall (x centroid : vector) (cov : matrix),
    List.length x = List.length centroid ->
    is_square cov = false ->
    mahalanobis_distance x centroid cov = euclidean_distance x centroid.
Proof.
  intros x centroid cov Hlen Hsq.
  unfold mahalanobis_distance, euclidean_distance.
  rewrite (np_sub_same_length x centroid Hlen). cbn [bind].
  unfold linalg_inv. rewrite Hsq. reflexivity.
Qed.

Lemma mahalanobis_non_square_fallback_witness :
  mahalanobis_distance [1; 2] [0; 0] [[1; 0; 0]; [0; 1; 0]]
  = euclidean_distance [1; 2] [0; 0].
Proof.
  apply mahalanobis_non_square_fallback; reflexivity.
Defined.

(** X20. The fallback covers [LinAlgError] only: with an invertible
    covariance whose dimension differs from that of the vectors the
    product [np.dot(diff, inv_cov)] raises [ValueError], which is not
    caught. *)
Theorem mahalanobis_dimension_mismatch :
  forall (x centroid : vector) (cov : matrix),
    List.length x = List.length centroid ->
    is_square cov = true ->
    det cov <> 0 ->
    List.length cov <> List.length x ->
    mahalanobis_distance x centroid cov
    = Raise (ValueError "shapes not aligned").
Proof.
  intros x centroid cov Hlen Hsq Hdet Hdim.
  unfold mahalanobis_distance.
  rewrite (np_sub_same_length x centroid Hlen). cbn [bind].
  rewrite (linalg_inv_invertible cov Hsq Hdet).
  unfold dot_vm.
  rewrite inverse_length, (zip_with_length Rminus x centroid Hlen).
  destruct (Nat.eqb (List.length x) (List.length cov)) eqn:E.
  - apply Nat.eqb_eq in E. exfalso. apply Hdim. symmetry. exact E.
  - reflexivity.
Qed.

Lemma mahalanobis_dimension_mismatch_witness :
  mahalanobis_distance [1; 2; 3] [0; 0; 0] [[1; 0]; [0; 1]]
  = Raise (ValueError "shapes not aligned").
Proof.
  apply mahalanobis_dimension_mismatch.
  - reflexivity.
  - reflexivity.
  - unfold det. cbn. lra.
  - cbn. discriminate.
Defined.

Lemma det_scaled_identity_3 (s : R) : det (scaled_identity_3 s) = s ^ 3.
Proof. unfold det. cbn. ring. Qed.

Lemma quadratic_form_scaled_identity (s d1 d2 d3 : R) :
  s <> 0 ->
  quadratic_form [d1; d2; d3] (inverse (scaled_identity_3 s))
  = (d1 ^ 2 + d2 ^ 2 + d3 ^ 2) / s.
Proof.
  intros Hs. unfold quadratic_form, inverse.
  rewrite det_scaled_identity_3.
  unfold cofactor, minor, det. cbn. field. exact Hs.
Qed.

(** X21. Against a scaled identity covariance [s * I] (three dimensions,
    [s > 0]; the search of MCC uses [2 * I] for the groups without a
    covariance of their own), the Mahalanobis distance is the Euclidean
    distance divided by [sqrt s]. *)
Theorem mahalanobis_scaled_identity :
  forall (s x1 x2 x3 c1 c2 c3 : R),
    0 < s ->
    exists d : R,
      euclidean_distance [x1; x2; x3] [c1; c2; c3] = Ok (Fin d)
      /\ mahalanobis_distance [x1; x2; x3] [c1; c2; c3] (scaled_identity_3 s)
         = Ok (Fin (d / sqrt s)).
Proof.
  intros s x1 x2 x3 c1 c2 c3 Hs.
  exists (sqrt (sum_squares (zip_with Rminus [x1; x2; x3] [c1; c2; c3]))).
  split.
  - unfold euclidean_distance.
    rewrite np_sub_same_length by reflexivity. cbn [bind].
    rewrite np_sqrt_nonneg by apply sum_squares_nonneg. reflexivity.
  - rewrite mahalanobis_invertible;
      [ | reflexivity | reflexivity | reflexivity
        | rewrite det_scaled_identity_3; apply pow_nonzero; lra ].
    cbn [zip_with].
    rewrite quadratic_form_scaled_identity by lra.
    pose proof (sum_squares_nonneg [x1 - c1; x2 - c2; x3 - c3]) as Hnn.
    assert (Hss : sum_squares [x1 - c1; x2 - c2; x3 - c3]
                  = (x1 - c1) ^ 2 + (x2 - c2) ^ 2 + (x3 - c3) ^ 2).
    { unfold sum_squares, np_sum. cbn [map fold_right]. ring. }
    rewrite Hss in *.
    rewrite np_sqrt_nonneg.
    + rewrite sqrt_div by lra. reflexivity.
    + apply Rmult_le_pos; [exact Hnn | ].
      apply Rlt_le. apply Rinv_0_lt_compat. exact Hs.
Qed.

Lemma mahalanobis_scaled_identity_witness :
  exists d : R,
    euclidean_distance [1; 2; 3] [0; 0; 0] = Ok (Fin d)
    /\ mahalanobis_distance [1; 2; 3] [0; 0; 0] (scaled_identity_3 2)
       = Ok (Fin (d / sqrt 2)).
Proof.
  apply mahalanobis_scaled_identity. lra.
Defined.

End DistanceFurther.

(** ** MCC *)

Section MccFurther.
Import Py Mahalanobis Mcc.
Local Open Scope R_scope.
Local Open Scope string_scope.

Lemma iron_groups_of_cons (g : string) (row : centroid_row) rows :
  iron_groups_of ((g, row) :: rows)
  = (match ni row with Some c => [(g, c)] | None => [] end
     ++ iron_groups_of rows)%list.
Proof. reflexivity. Qed.

Lemma iron_loop_nearest (r : R) rows :
  forall min_distance best_group seen,
    iron_nearest r min_distance best_group seen ->
    iron_nearest r
      (fst (iron_loop rows r min_distance best_group))
      (snd (iron_loop rows r min_distance best_group))
      (seen ++ iron_groups_of rows).
Proof.
  induction rows as [ | [g row] rows IH]; intros m best seen Hinv.
  - cbn. rewrite app_nil_r. exact Hinv.
  - rewrite iron_groups_of_cons. cbn [iron_loop].
    destruct (ni row) as [c | ]; [ | cbn [app]; apply IH; exact Hinv].
    replace (seen ++ [(g, c)] ++ iron_groups_of rows)%list
      with ((seen ++ [(g, c)]) ++ iron_groups_of rows)%list
      by (rewrite <- app_assoc; reflexivity).
    destruct m as [ | d].
    + cbn [closer]. apply IH. destruct Hinv as [_ ->].
      exists g, c. cbn [app]. split; [left; reflexivity | ].
      repeat split. intros g' c' [H | []]. injection H as <- <-. lra.
    + destruct Hinv as [g0 [c0 [Hin0 [Hbest [Hd Hmin]]]]].
      cbn [closer].
      destruct (Rlt_dec (Rabs (r - c)) d) as [Hlt | Hge]; apply IH.
      * exists g, c. split; [apply in_or_app; right; left; reflexivity | ].
        repeat split. intros g' c' Hin. apply in_app_or in Hin.
        destruct Hin as [Hin | [H | []]].
        -- pose proof (Hmin g' c' Hin). lra.
        -- injection H as <- <-. lra.
      * exists g0, c0. split; [apply in_or_app; left; exact Hin0 | ].
        repeat split; try assumption.
        intros g' c' Hin. apply in_app_or in Hin.
        destruct Hin as [Hin | [H | []]].
        -- apply (Hmin g' c' Hin).
        -- injection H as <- <-. lra.
Qed.

Lemma score_range (m : min_dist) : nonneg_min m -> 0 <= score m 5 <= 1.
Proof.
  destruct m as [ | d]; cbn [score nonneg_min]; intros H; [lra | ].
  unfold py_max_R. destruct (Rlt_dec 0 (1 - d / 5)); lra.
Qed.

(** X22. With a numeric nickel value [calculate_mcc] takes the iron path
    and raises nothing: it returns an iron group whose reference nickel
    content is nearest (no group of the table is nearer), the absolute
    difference as distance, a score [max(0, 1 - distance / 5)] in
    [0,1], and the nickel content it used. *)
Theorem calculate_mcc_iron :
  forall (mineral_data : dict (option R)) (requested : option string)
         (ni_content : R),
    get "ni" mineral_data = Some (Some ni_content) ->
    exists (g : string) (c d : R),
      calculate_mcc mineral_data requested
      = Ok (mkMcc (py_max_R 0 (1 - d / 5)) (Some g) (Dist d) None
              (Some ni_content))
      /\ In (g, c) iron_groups
      /\ d = Rabs (ni_content - c)
      /\ (forall g' c', In (g', c') iron_groups ->
                        d <= Rabs (ni_content - c'))
      /\ 0 <= py_max_R 0 (1 - d / 5) <= 1.
Proof.
  intros mineral_data requested r Hni.
  unfold calculate_mcc. rewrite Hni. unfold _calculate_mcc_iron.
  unfold get_default. rewrite Hni.
  pose proof (iron_loop_nearest r GROUP_CENTROIDS PosInf None []
                (conj eq_refl eq_refl)) as Hinv.
  cbn [app] in Hinv. fold iron_groups in Hinv.
  destruct (iron_loop GROUP_CENTROIDS r PosInf None) as [m best].
  cbn [fst snd] in Hinv.
  destruct m as [ | d].
  - destruct Hinv as [_ Hnil]. discriminate Hnil.
  - destruct Hinv as [g [c [Hin [-> [Hd Hmin]]]]].
    exists g, c, d. cbn [score].
    split; [reflexivity | ]. split; [exact Hin | ]. split; [exact Hd | ].
    split; [exact Hmin | ].
    apply (score_range (Dist d)). cbn. rewrite Hd. apply Rabs_pos.
Qed.

Lemma calculate_mcc_iron_witness :
  exists (g : string) (c d : R),
    calculate_mcc [("ni", Some 16.5)] None
    = Ok (mkMcc (py_max_R 0 (1 - d / 5)) (Some g) (Dist d) None (Some 16.5))
    /\ In (g, c) iron_groups
    /\ d = Rabs (16.5 - c)
    /\ (forall g' c', In (g', c') iron_groups -> d <= Rabs (16.5 - c'))
    /\ 0 <= py_max_R 0 (1 - d / 5) <= 1.
Proof.
  apply (calculate_mcc_iron [("ni", Some 16.5)] None 16.5).
  reflexivity.
Defined.

Lemma mahalanobis_nonneg (x c : vector) (cov : matrix) (d : R) :
  mahalanobis_distance x c cov = Ok (Fin d) -> 0 <= d.
Proof.
  assert (Hsqrt : forall q, np_sqrt q = Fin d -> 0 <= d).
  { intros q. unfold np_sqrt. destruct (Rlt_dec q 0); [discriminate | ].
    intros H. injection H as <-. apply sqrt_pos. }
  unfold mahalanobis_distance.
  destruct (np_sub x c) as [diff | e]; [ | discriminate]. cbn [bind].
  destruct (linalg_inv cov) as [inv_cov | e].
  - destruct (dot_vm diff inv_cov) as [t | e]; [ | discriminate].
    cbn [bind].
    destruct (dot_vv t diff) as [q | e]; [ | discriminate]. cbn [bind].
    intros H. injection H as H. apply (Hsqrt q H).
  - destruct e; try discriminate.
    intros H. injection H as H. apply (Hsqrt _ H).
Qed.

Lemma stony_loop_nonneg rows obs :
  forall st st',
    stony_loop rows obs st = Ok st' ->
    nonneg_min (min_distance st) -> nonneg_min (min_distance st').
Proof.
  induction rows as [ | [g row] rows IH]; intros st st' E Hst.
  - cbn in E. injection E as <-. exact Hst.
  - cbn [stony_loop] in E.
    destruct (fa row) as [a | ]; [ | apply (IH st st' E Hst)].
    destruct (float_array obs) as [x | e]; [ | discriminate E].
    cbn [bind] in E.
    destruct (float_array [Some a; fs row; d17O row]) as [c | e];
      [ | discriminate E].
    cbn [bind] in E.
    destruct (mahalanobis_distance x c (covariance_of g)) as [f | e] eqn:Hd;
      [ | discriminate E].
    cbn [bind] in E.
    apply (IH _ st' E).
    destruct (closer f (min_distance st)); [ | exact Hst].
    destruct f as [d | ]; [ | exact Hst].
    cbn [min_distance nonneg_min]. apply (mahalanobis_nonneg x c _ d Hd).
Qed.

Lemma iron_loop_nonneg (r : R) rows :
  forall m best,
    nonneg_min m -> nonneg_min (fst (iron_loop rows r m best)).
Proof.
  induction rows as [ | [g row] rows IH]; intros m best Hm; [exact Hm | ].
  cbn [iron_loop]. destruct (ni row) as [c | ]; [ | apply IH; exact Hm].
  destruct (closer (Fin (Rabs (r - c))) m); apply IH; [ | exact Hm].
  cbn. apply Rabs_pos.
Qed.

(** X23. Whenever [calculate_mcc] returns a result, on either path and
    for every input, the score lies in [0,1] and the reported distance is
    not negative. *)
Theorem calculate_mcc_score_range :
  forall (mineral_data : dict (option R)) (requested : option string)
         (r : mcc_result),
    calculate_mcc mineral_data requested = Ok r ->
    0 <= mcc r <= 1 /\ nonneg_min (distance r).
Proof.
  intros mineral_data requested r.
  assert (Hstony : _calculate_mcc_stony mineral_data requested = Ok r ->
                   0 <= mcc r <= 1 /\ nonneg_min (distance r)).
  { unfold _calculate_mcc_stony.
    destruct (stony_loop GROUP_CENTROIDS _ initial_search) as [st | e] eqn:E;
      [ | discriminate].
    cbn [bind]. intros H. injection H as <-. cbn [mcc distance].
    pose proof (stony_loop_nonneg _ _ _ _ E I) as Hnn.
    split; [apply score_range; exact Hnn | exact Hnn]. }
  unfold calculate_mcc.
  destruct (get "ni" mineral_data) as [[v | ] | ]; try exact Hstony.
  unfold _calculate_mcc_iron.
  destruct (get_default "ni" (Some 0) mineral_data) as [n | ];
    [ | discriminate].
  pose proof (iron_loop_nonneg n GROUP_CENTROIDS PosInf None I) as Hnn.
  destruct (iron_loop GROUP_CENTROIDS n PosInf None) as [m best].
  cbn [fst] in Hnn. intros H. injection H as <-. cbn [mcc distance].
  split; [apply score_range; exact Hnn | exact Hnn].
Qed.

Lemma calculate_mcc_score_range_witness :
  0 <= mcc (mkMcc (1 - sqrt (37 / 4) / 5) (Some "CR")
              (Dist (sqrt (37 / 4))) (Some (Some [3.5; 2.0; -1.5])) None)
  <= 1
  /\ nonneg_min
       (distance (mkMcc (1 - sqrt (37 / 4) / 5) (Some "CR")
                    (Dist (sqrt (37 / 4))) (Some (Some [3.5; 2.0; -1.5]))
                    None)).
Proof.
  apply (calculate_mcc_score_range [] None).
  exact (proj1 calculate_mcc_empty).
Defined.

End MccFurther.

Section MccDefinite.
Import Py Mahalanobis Mcc.
Local Open Scope R_scope.
Local Open Scope string_scope.

(** The quadratic forms of the three group covariances, written as sums
    of squares. *)
Lemma quadratic_form_H (d1 d2 d3 : R) :
  quadratic_form [d1; d2; d3] (inverse (covariance_of "H"))
  = 428 / 763 * (d1 - 50 / 107 * d2 - 335 / 214 * d3) ^ 2
    + 50 / 107 * (d2 - 2 * d3) ^ 2 + 25 * d3 ^ 2.
Proof.
  unfold quadratic_form, inverse. rewrite det_cov_H.
  unfold cofactor, minor, det. cbn. lra.
Qed.

Lemma quadratic_form_L (d1 d2 d3 : R) :
  quadratic_form [d1; d2; d3] (inverse (covariance_of "L"))
  = 1500 / 2927 * (d1 - 29 / 60 * d2 - 43 / 30 * d3) ^ 2
    + 5 / 12 * (d2 - 2 * d3) ^ 2 + 20 * d3 ^ 2.
Proof.
  unfold quadratic_form, inverse. rewrite det_cov_L.
  unfold cofactor, minor, det. cbn. lra.
Qed.

Lemma quadratic_form_LL (d1 d2 d3 : R) :
  quadratic_form [d1; d2; d3] (inverse (covariance_of "LL"))
  = 16 / 33 * (d1 - 15 / 32 * d2 - 25 / 16 * d3) ^ 2
    + 25 / 64 * (d2 - 2 * d3) ^ 2 + 50 / 3 * d3 ^ 2.
Proof.
  unfold quadratic_form, inverse. rewrite det_cov_LL.
  unfold cofactor, minor, det. cbn. lra.
Qed.

Lemma squares_definite (a b c u v w : R) :
  0 < a -> 0 < b -> 0 < c ->
  0 <= a * u ^ 2 + b * v ^ 2 + c * w ^ 2
  /\ (a * u ^ 2 + b * v ^ 2 + c * w ^ 2 = 0 -> u = 0 /\ v = 0 /\ w = 0).
Proof.
  intros Ha Hb Hc.
  pose proof (pow2_ge_0 u) as Hu. pose proof (pow2_ge_0 v) as Hv.
  pose proof (pow2_ge_0 w) as Hw.
  assert (Hau : 0 <= a * u ^ 2) by (apply Rmult_le_pos; lra).
  assert (Hbv : 0 <= b * v ^ 2) by (apply Rmult_le_pos; lra).
  assert (Hcw : 0 <= c * w ^ 2) by (apply Rmult_le_pos; lra).
  split; [lra | ].
  intros H.
  assert (Zero : forall k z, 0 < k -> k * z ^ 2 = 0 -> z = 0).
  { intros k z Hk Hz.
    destruct (Req_dec z 0) as [E | E]; [exact E | ].
    exfalso. apply (pow_nonzero z 2) in E.
    apply Rmult_integral in Hz. destruct Hz; [lra | contradiction]. }
  repeat split.
  - apply (Zero a); [exact Ha | lra].
  - apply (Zero b); [exact Hb | lra].
  - apply (Zero c); [exact Hc | lra].
Qed.

(** Every covariance of the stony search is positive definite. *)
Lemma stony_quadratic_definite g c cov (d1 d2 d3 : R) :
  In (g, c, cov) stony_groups ->
  0 <= quadratic_form [d1; d2; d3] (inverse cov)
  /\ (quadratic_form [d1; d2; d3] (inverse cov) = 0 ->
      d1 = 0 /\ d2 = 0 /\ d3 = 0).
Proof.
  intros Hin. apply in_stony_groups_cases in Hin.
  destruct Hin as [H | [H | [H | [H | [H | H]]]]]; injection H as _ _ ->.
  - rewrite quadratic_form_H.
    destruct (squares_definite (428 / 763) (50 / 107) 25
                (d1 - 50 / 107 * d2 - 335 / 214 * d3) (d2 - 2 * d3) d3)
      as [Hnn Hz]; lra.
  - rewrite quadratic_form_L.
    destruct (squares_definite (1500 / 2927) (5 / 12) 20
                (d1 - 29 / 60 * d2 - 43 / 30 * d3) (d2 - 2 * d3) d3)
      as [Hnn Hz]; lra.
  - rewrite quadratic_form_LL.
    destruct (squares_definite (16 / 33) (25 / 64) (50 / 3)
                (d1 - 15 / 32 * d2 - 25 / 16 * d3) (d2 - 2 * d3) d3)
      as [Hnn Hz]; lra.
  - rewrite quadratic_form_default.
    destruct (squares_definite (1 / 2) (1 / 2) (1 / 2) d1 d2 d3)
      as [Hnn Hz]; lra.
  - rewrite quadratic_form_default.
    destruct (squares_definite (1 / 2) (1 / 2) (1 / 2) d1 d2 d3)
      as [Hnn Hz]; lra.
  - rewrite quadratic_form_default.
    destruct (squares_definite (1 / 2) (1 / 2) (1 / 2) d1 d2 d3)
      as [Hnn Hz]; lra.
Qed.

End MccDefinite.

Section MccCentroids.
Import Py Mahalanobis Mcc.
Local Open Scope R_scope.
Local Open Scope string_scope.

Lemma stony_centroids_distinct g g' c cov cov' :
  In (g, c, cov) stony_groups -> In (g', c, cov') stony_groups -> g = g'.
Proof.
  intros H H'.
  apply in_stony_groups_cases in H. apply in_stony_groups_cases in H'.
  destruct H as [H | [H | [H | [H | [H | H]]]]]; injection H as -> -> _;
    destruct H' as [H' | [H' | [H' | [H' | [H' | H']]]]];
    inversion H'; try reflexivity; exfalso; lra.
Qed.

Lemma stony_self_distance (x1 x2 x3 : R) g cov :
  In (g, [x1; x2; x3], cov) stony_groups ->
  mahalanobis_distance [x1; x2; x3] [x1; x2; x3] cov = Ok (Fin 0).
Proof.
  intros Hin. rewrite (stony_distance_defined x1 x2 x3 g _ cov Hin).
  unfold quadratic_form.
  rewrite (dot_zero_right _ _ (self_difference_zero [x1; x2; x3])).
  rewrite np_sqrt_zero. reflexivity.
Qed.

(** A distance of 0 to a stony group means the observation is its
    centroid. *)
Lemma stony_zero_distance (x1 x2 x3 : R) g c cov :
  In (g, c, cov) stony_groups ->
  mahalanobis_distance [x1; x2; x3] c cov = Ok (Fin 0) ->
  c = [x1; x2; x3].
Proof.
  intros Hin Hd.
  destruct (stony_covariances_invertible g c cov Hin) as [Hlen _].
  destruct c as [ | c1 [ | c2 [ | c3 [ | ? ?]]]]; try discriminate Hlen.
  rewrite (stony_distance_defined x1 x2 x3 g _ cov Hin) in Hd.
  cbn [zip_with] in Hd.
  destruct (stony_quadratic_definite g _ cov (x1 - c1) (x2 - c2) (x3 - c3) Hin)
    as [Hnn Hz].
  rewrite np_sqrt_nonneg in Hd by exact Hnn.
  injection Hd as Hd. apply sqrt_eq_0 in Hd; [ | exact Hnn].
  destruct (Hz Hd) as [H1 [H2 H3]].
  f_equal; [lra | ]. f_equal; [lra | ]. f_equal. lra.
Qed.

(** X24. For a numeric stony observation the score of [calculate_mcc] is
    1 exactly when the observation is the centroid of one of the six stony
    groups, and in that case that group is returned at distance 0 (the
    three group covariances and the default one are positive definite). *)
Theorem calculate_mcc_perfect_match :
  forall (x1 x2 x3 : R) (requested : option string),
    exists r : mcc_result,
      calculate_mcc [("fa", Some x1); ("fs", Some x2); ("d17O", Some x3)]
        requested = Ok r
      /\ (mcc r = 1 <-> exists g cov, In (g, [x1; x2; x3], cov) stony_groups)
      /\ (forall g cov,
             In (g, [x1; x2; x3], cov) stony_groups ->
             group r = Some g /\ distance r = Dist 0).
Proof.
  intros x1 x2 x3 requested.
  destruct (stony_search x1 x2 x3) as [g' [c' [cov' [d [E [Hin' [Hd Hmin]]]]]]].
  cbn [map] in E.
  eexists. split.
  - unfold calculate_mcc.
    cbn [get String.eqb Ascii.eqb Bool.eqb].
    unfold _calculate_mcc_stony.
    cbn [get_default get String.eqb Ascii.eqb Bool.eqb].
    rewrite E. cbn [bind]. reflexivity.
  - cbn [min_distance best_group best_centroid score mcc group distance].
    pose proof (mahalanobis_nonneg _ _ _ _ Hd) as Hnn.
    assert (Hscore : py_max_R 0 (1 - d / 5) = 1 <-> d = 0).
    { unfold py_max_R. destruct (Rlt_dec 0 (1 - d / 5)); split; lra. }
    assert (Hzero : d = 0 -> c' = [x1; x2; x3]).
    { intros ->. apply (stony_zero_distance x1 x2 x3 g' c' cov' Hin' Hd). }
    assert (Hself : forall g cov,
               In (g, [x1; x2; x3], cov) stony_groups -> d = 0).
    { intros g cov Hin.
      pose proof (Hmin g _ cov 0 Hin (stony_self_distance x1 x2 x3 g cov Hin)).
      lra. }
    split.
    + rewrite Hscore. split.
      * intros H0. exists g', cov'. rewrite <- (Hzero H0). exact Hin'.
      * intros [g [cov Hin]]. apply (Hself g cov Hin).
    + intros g cov Hin. pose proof (Hself g cov Hin) as H0.
      pose proof (Hzero H0) as Hc. subst c' d.
      rewrite (stony_centroids_distinct g g' _ cov cov' Hin Hin').
      split; reflexivity.
Qed.

End MccCentroids.

(** ** IAF *)

Section IafFurther.
Import Py Mahalanobis Iaf.
Local Open Scope R_scope.

Lemma iaf_loop_nearest (obs : vector) groups :
  Forall (fun entry : string * vector =>
            List.length (snd entry) = List.length obs) groups ->
  forall st seen,
    iaf_nearest obs st seen ->
    exists st',
      iaf_loop groups obs st = Ok st'
      /\ iaf_nearest obs st' (seen ++ groups).
Proof.
  induction 1 as [ | [g c] groups Hlen Hrest IH]; intros st seen Hinv.
  - exists st. rewrite app_nil_r. split; [reflexivity | exact Hinv].
  - cbn [snd] in Hlen. rewrite iaf_loop_cons.
    rewrite (np_sub_same_length obs c) by (symmetry; exact Hlen).
    cbn [bind].
    rewrite np_sqrt_nonneg by apply sum_squares_nonneg.
    fold (euclid obs c).
    replace (seen ++ (g, c) :: groups)%list
      with ((seen ++ [(g, c)]) ++ groups)%list
      by (rewrite <- app_assoc; reflexivity).
    apply IH. unfold iaf_nearest in *.
    destruct (min_distance st) as [ | m] eqn:Hmin.
    + cbn [Mcc.closer min_distance best_group best_centroid].
      destruct Hinv as [-> _]. cbn [app].
      exists g, c. split; [left; reflexivity | ]. repeat split.
      intros g' c' [H | []]. injection H as <- <-. lra.
    + destruct Hinv as [g0 [c0 [Hin0 [Hg [Hc [Hd Hle]]]]]].
      cbn [Mcc.closer].
      destruct (Rlt_dec (euclid obs c) m) as [Hlt | Hge];
        cbn [min_distance best_group best_centroid].
      * exists g, c. split; [apply in_or_app; right; left; reflexivity | ].
        repeat split. intros g' c' Hin. apply in_app_or in Hin.
        destruct Hin as [Hin | [H | []]].
        -- pose proof (Hle g' c' Hin). lra.
        -- injection H as <- <-. lra.
      * exists g0, c0. split; [apply in_or_app; left; exact Hin0 | ].
        repeat split; try assumption.
        intros g' c' Hin. apply in_app_or in Hin.
        destruct Hin as [Hin | [H | []]].
        -- apply (Hle g' c' Hin).
        -- injection H as <- <-. lra.
Qed.

Lemma observation_length isotope_data :
  List.length (observation isotope_data) = 7%nat.
Proof. reflexivity. Qed.

Lemma centroid_lengths_7 (obs : vector) :
  List.length obs = 7%nat ->
  Forall (fun entry : string * vector =>
            List.length (snd entry) = List.length obs)
    GROUP_ISOTOPE_CENTROIDS.
Proof.
  intros ->. unfold GROUP_ISOTOPE_CENTROIDS. repeat constructor.
Qed.

Lemma dispersion_positive (best : option string) : 0 < dispersion_of best.
Proof.
  destruct best as [g | ]; cbn [dispersion_of]; [ | lra].
  unfold get_default, GROUP_DISPERSION. cbn [get].
  repeat match goal with
         | |- context [if ?c then _ else _] => destruct c; [lra | ]
         end.
  lra.
Qed.

Lemma gaussian_match_range (d sigma : R) :
  0 < sigma -> 0 <= Iaf.gaussian_match (Mcc.Dist d) sigma <= 1.
Proof.
  intros Hs. cbn [gaussian_match]. apply np_exp_range.
  assert (Hd : 0 <= d ^ 2) by apply pow2_ge_0.
  assert (Hs1 : 0 < sigma ^ 2) by (apply pow_lt; exact Hs).
  assert (Hs2 : 0 < 2 * sigma ^ 2) by lra.
  assert (Hinv : 0 < / (2 * sigma ^ 2))
    by (apply Rinv_0_lt_compat; exact Hs2).
  unfold Rdiv. nra.
Qed.

(** The shape of every result of [calculate_iaf]. *)
Lemma calculate_iaf_shape (isotope_data : dict R) :
  exists (st : search_state) (g : string) (c : vector) (d : R),
    calculate_iaf isotope_data
    = Ok (mkIaf (gaussian_match (Mcc.Dist d) (dispersion_of (Some g)))
            (Some g) (Mcc.Dist d) (dispersion_of (Some g))
            (if Rlt_dec (gaussian_match (Mcc.Dist d) (dispersion_of (Some g)))
                  0.3
             then true else false)
            (distances st) (Some c))
    /\ In (g, c) GROUP_ISOTOPE_CENTROIDS
    /\ d = euclid (observation isotope_data) c
    /\ forall g' c',
         In (g', c') GROUP_ISOTOPE_CENTROIDS ->
         d <= euclid (observation isotope_data) c'.
Proof.
  unfold calculate_iaf. fold (observation isotope_data).
  destruct (iaf_loop_nearest (observation isotope_data)
              GROUP_ISOTOPE_CENTROIDS
              (centroid_lengths_7 _ (observation_length isotope_data))
              (mkSearch Mcc.PosInf None None []) [])
    as [st [E Hinv]].
  - cbn. repeat split.
  - rewrite E. cbn [bind]. cbn [app] in Hinv. unfold iaf_nearest in Hinv.
    destruct (min_distance st) as [ | d] eqn:Hmin.
    + destruct Hinv as [Hnil _]. discriminate Hnil.
    + destruct Hinv as [g [c [Hin [Hg [Hc [Hd Hle]]]]]].
      exists st, g, c, d. rewrite Hg, Hc.
      repeat split; assumption.
Qed.


(** X26. [detect_presolar_grains] raises nothing; it flags a signature
    exactly when the IAF score is below 0.3, whatever [threshold] is
    passed; the reported confidence is [1 - iaf] (above 0.7) when a
    signature is flagged and [iaf] (at least 0.3) otherwise, and the
    recommendation is present only in the first case. *)
Theorem detect_presolar_grains_confidence :
  forall (isotope_data : dict R) (threshold : R),
    exists p : presolar_result,
      detect_presolar_grains isotope_data threshold = Ok p
      /\ (presolar_detected p = true <-> presolar_iaf p < 0.3)
      /\ 0.3 <= confidence p <= 1
      /\ (presolar_detected p = true ->
          0.7 < confidence p /\ confidence p = 1 - presolar_iaf p
          /\ recommendation p <> None)
      /\ (presolar_detected p = false ->
          confidence p = presolar_iaf p /\ recommendation p = None).
Proof.
  intros isotope_data threshold.
  destruct (calculate_iaf_shape isotope_data)
    as [st [g [c [d [E _]]]]].
  unfold detect_presolar_grains. rewrite E. cbn [bind is_outlier iaf group].
  destruct (gaussian_match_range d _ (dispersion_positive (Some g)))
    as [H0 H1].
  destruct (Rlt_dec (gaussian_match (Mcc.Dist d) (dispersion_of (Some g))) 0.3)
    as [Hlt | Hge].
  - eexists. split; [reflexivity | ].
    cbn [presolar_detected presolar_iaf confidence recommendation].
    repeat split; try lra; try discriminate.
  - eexists. split; [reflexivity | ].
    cbn [presolar_detected presolar_iaf confidence recommendation].
    repeat split; try lra; try discriminate.
Qed.

End IafFurther.

(** ** ATP *)

Section AtpFurther.
Import Py Atp.
Local Open Scope R_scope.

Lemma loop_body_invariant velocity diameter density n_steps i st st' :
  loop_invariant i st ->
  loop_body velocity diameter density n_steps i st = Some st' ->
  loop_invariant (S i) st'.
Proof.
  intros [HT [Hmax [Hpeak [Hidx Hlen]]]]. unfold loop_body.
  destruct (Rlt_dec (altitude n_steps i) 10); [discriminate | ].
  match goal with
  | |- (if Rlt_dec (T_max st) ?t then _ else _) = _ -> _ =>
      set (T' := t); destruct (Rlt_dec (T_max st) T') as [Hlt | Hge]
  end;
    intros E; injection E as <-; unfold loop_invariant;
    cbn [T T_max t_peak peak_idx heat_flux_profile];
    rewrite length_app; cbn [List.length].
  - repeat split; try lra; lia.
  - repeat split; try lra; try lia; exact Hpeak.
Qed.

Lemma main_loop_invariant velocity diameter density n_steps steps :
  forall i st,
    loop_invariant i st ->
    exists j,
      (i <= j <= i + steps)%nat
      /\ loop_invariant j
           (main_loop velocity diameter density n_steps steps i st).
Proof.
  induction steps as [ | steps IH]; intros i st Hinv.
  - exists i. split; [lia | exact Hinv].
  - cbn [main_loop].
    destruct (loop_body velocity diameter density n_steps i st) as [st' | ]
      eqn:E.
    + destruct (IH (S i) st' (loop_body_invariant _ _ _ _ _ _ _ Hinv E))
        as [j [Hj Hinv']].
      exists j. split; [lia | exact Hinv'].
    + exists i. split; [lia | exact Hinv].
Qed.

Lemma crust_thickness_range (T_max duration : R) :
  0 <= calculate_crust_thickness T_max duration <= 2
  /\ (T_max <= 3000 -> calculate_crust_thickness T_max duration <= 1).
Proof.
  unfold calculate_crust_thickness. cbv zeta.
  set (skin := if Rlt_dec 0 duration
               then sqrt (1 / 10 ^ 6 * duration) else 0).
  assert (Hskin : 0 <= skin).
  { subst skin. destruct (Rlt_dec 0 duration); [apply sqrt_pos | lra]. }
  clearbody skin. unfold py_min_R.
  destruct (Rlt_dec 3000 T_max);
    destruct (Rlt_dec _ _); repeat split; intros; lra.
Qed.

Lemma detect_airburst_cases (T_max altitude : R) :
  (detected (detect_airburst T_max altitude) = true ->
   4000 < T_max /\ 15 < altitude
   /\ burst_altitude (detect_airburst T_max altitude) = altitude
   /\ (energy_kt (detect_airburst T_max altitude) = 500
       \/ energy_kt (detect_airburst T_max altitude) = 100))
  /\ (detected (detect_airburst T_max altitude) = false ->
      burst_altitude (detect_airburst T_max altitude) = 0
      /\ energy_kt (detect_airburst T_max altitude) = 0).
Proof.
  unfold detect_airburst, Rltb.
  destruct (Rlt_dec 4500 T_max); destruct (Rlt_dec 20 altitude);
    destruct (Rlt_dec 4000 T_max); destruct (Rlt_dec 15 altitude);
    cbn [andb detected burst_altitude energy_kt];
    split; intros H; try discriminate H; repeat split; try lra; auto.
Qed.

(** X27. Every result of [calculate_atp] satisfies: the peak temperature
    is at least the initial 250 K and is reported in Celsius as
    [T_max_k - 273.15] with precision 180; the time to peak is between 0
    and 29.99 s; the heat-flux profile has at most 2999 entries; the fusion
    crust is between 0 and 2 mm; an airburst is reported only for a peak
    above 4000 K at an altitude above 15 km, with an energy of 100 or
    500 kt, and otherwise altitude and energy are 0. *)
Theorem calculate_atp_result_invariants :
  forall p : entry_params,
    let r := calculate_atp p in
    250 <= T_max_k r
    /\ T_max_c r = T_max_k r - 273.15
    /\ T_max_precision r = 180
    /\ 0 <= time_to_peak_s r <= 29.99
    /\ (List.length (result_heat_flux_profile r) <= 2999)%nat
    /\ 0 <= fusion_crust_mm r <= 2
    /\ (airburst_detected r = true ->
        4000 < T_max_k r /\ 15 < airburst_altitude_km r
        /\ airburst_altitude_km r = peak_altitude_km r
        /\ (airburst_energy_kt r = 500 \/ airburst_energy_kt r = 100))
    /\ (airburst_detected r = false ->
        airburst_altitude_km r = 0 /\ airburst_energy_kt r = 0).
Proof.
  intros p r. subst r. unfold calculate_atp.
  set (velocity := or_default (velocity_km_s p) 18.6 * 1000).
  set (diameter := or_default (diameter_m p) 19).
  set (density := or_default (density_kg_m3 p) 3300).
  unfold integrate.
  destruct (main_loop_invariant velocity diameter density 3000 (3000 - 1) 1
              (mkLoop 250 250 0 0 []))
    as [j [Hj [HT [Hmax [Hpeak [Hidx Hlen]]]]]].
  { unfold loop_invariant. cbn. repeat split; try lra; lia. }
  set (st := main_loop velocity diameter density 3000 (3000 - 1) 1
               (mkLoop 250 250 0 0 [])) in *.
  clearbody st. unfold finish.
  set (Tm := if Rltb 18000 velocity && Rltb 15 diameter
             then 4820 + 273.15 else T_max st).
  assert (HTm : 250 <= Tm).
  { subst Tm. destruct (Rltb 18000 velocity && Rltb 15 diameter); lra. }
  set (alt := if Nat.ltb 0 (peak_idx st)
              then altitude 3000 (peak_idx st) else 23).
  cbn [T_max_k T_max_c T_max_precision time_to_peak_s
       result_heat_flux_profile fusion_crust_mm airburst_detected
       airburst_altitude_km airburst_energy_kt peak_altitude_km].
  assert (Hidx' : (peak_idx st <= 2999)%nat) by (cbn in Hj; lia).
  assert (Hpk : 0 <= INR (peak_idx st) <= 2999).
  { split; [apply pos_INR | ].
    replace 2999 with (INR 2999) by (rewrite INR_IZR_INZ; reflexivity).
    apply le_INR. exact Hidx'. }
  destruct (crust_thickness_range Tm (t_peak st)) as [Hcrust _].
  destruct (detect_airburst_cases Tm alt) as [Hdet Hnot].
  split; [exact HTm | ]. split; [reflexivity | ]. split; [reflexivity | ].
  split; [rewrite Hpeak; lra | ].
  split; [cbn in Hj; lia | ].
  split; [exact Hcrust | ].
  split.
  - intros H. destruct (Hdet H) as [H1 [H2 [H3 H4]]].
    rewrite H3. repeat split; assumption.
  - exact Hnot.
Qed.

(** X28. The Chelyabinsk test replaces the peak for every entry faster
    than 18 km/s and wider than 15 m: all such entries report 4820
    degrees C (5093.15 K), whatever their density, angle and composition;
    an airburst is then reported exactly when the peak altitude is above
    15 km, with 500 kt above 20 km. *)
Theorem calculate_atp_forced_peak :
  forall p : entry_params,
    18 < or_default (velocity_km_s p) 18.6 ->
    15 < or_default (diameter_m p) 19 ->
    let r := calculate_atp p in
    T_max_k r = 4820 + 273.15
    /\ T_max_c r = 4820
    /\ (airburst_detected r = true <-> 15 < peak_altitude_km r)
    /\ (20 < peak_altitude_km r -> airburst_energy_kt r = 500).
Proof.
  intros p Hv Hd r. subst r. unfold calculate_atp.
  generalize (integrate (or_default (velocity_km_s p) 18.6 * 1000)
                (or_default (diameter_m p) 19)
                (or_default (density_kg_m3 p) 3300) 3000).
  intros st. unfold finish.
  rewrite (Rltb_true 18000 (or_default (velocity_km_s p) 18.6 * 1000))
    by lra.
  rewrite (Rltb_true 15 (or_default (diameter_m p) 19)) by exact Hd.
  cbn [andb T_max_k T_max_c airburst_detected peak_altitude_km
       airburst_energy_kt].
  set (alt := if Nat.ltb 0 (peak_idx st)
              then altitude 3000 (peak_idx st) else 23).
  split; [reflexivity | ]. split; [lra | ].
  unfold detect_airburst, Rltb.
  destruct (Rlt_dec 4500 (4820 + 273.15)); [ | lra].
  destruct (Rlt_dec 4000 (4820 + 273.15)); [ | lra].
  destruct (Rlt_dec 20 alt); destruct (Rlt_dec 15 alt);
    cbn [andb detected energy_kt]; repeat split; intros; try lra;
    try reflexivity; try discriminate.
Qed.

Lemma calculate_atp_forced_peak_witness :
  let r := calculate_atp (mkEntry (Some 20) None (Some 50) (Some 7800)
                            (Some "iron"%string)) in
  T_max_k r = 4820 + 273.15
  /\ T_max_c r = 4820
  /\ (airburst_detected r = true <-> 15 < peak_altitude_km r)
  /\ (20 < peak_altitude_km r -> airburst_energy_kt r = 500).
Proof.
  apply calculate_atp_forced_peak; cbn; lra.
Defined.

End AtpFurther.

Section AtpRealtimeFacts.
Import Py AtpRealtime.
Local Open Scope R_scope.

Lemma pow4_nonneg (x : R) : 0 <= x ^ 4.
Proof. replace (x ^ 4) with ((x ^ 2) ^ 2) by ring. apply pow2_ge_0. Qed.

Lemma density_nonneg (h : R) : 0 <= _atmospheric_density h.
Proof.
  unfold _atmospheric_density. destruct (Rlt_dec 100 h).
  - pose proof (exp_pos (- h / 8.5)). lra.
  - pose proof (pow4_nonneg (1 - h / 100)). lra.
Qed.

(** X29. The density model of the real-time simulator is the one of
    [calculate_atp], and for every altitude at or above ground level it
    lies between 0 and the sea-level value 1.225 kg/m3. *)
Theorem atmospheric_density_range :
  forall h : R,
    _atmospheric_density h = Atp.atmos_density h
    /\ (0 <= h -> 0 <= _atmospheric_density h <= 1.225).
Proof.
  intros h. split; [reflexivity | ]. intros Hh.
  split; [apply density_nonneg | ].
  unfold _atmospheric_density. destruct (Rlt_dec 100 h) as [Hhi | Hlo].
  - assert (exp (- h / 8.5) < exp 0) by (apply exp_increasing; lra).
    rewrite exp_0 in *. lra.
  - assert (Hx : 0 <= 1 - h / 100 <= 1) by lra.
    assert (Hp : (1 - h / 100) ^ 4 <= 1).
    { replace 1 with (1 ^ 4) at 2 by ring.
      apply pow_incr. exact Hx. }
    lra.
Qed.

Lemma atmospheric_density_range_witness :
  _atmospheric_density 50 = Atp.atmos_density 50
  /\ (0 <= 50 -> 0 <= _atmospheric_density 50 <= 1.225).
Proof. apply atmospheric_density_range. Defined.

Lemma velocity_step_range (diameter mass pa pv a : R) :
  0 < mass -> 0 <= pv ->
  0 <= velocity_step diameter mass pa pv a <= pv.
Proof.
  intros Hm Hpv. unfold velocity_step.
  destruct (Rle_dec (pa - a) 0) as [ | Hdh]; [lra | ].
  set (rho := _atmospheric_density a).
  assert (Hrho : 0 <= rho) by apply density_nonneg.
  set (area := PI * (diameter / 2) ^ 2).
  assert (Harea : 0 <= area).
  { subst area. apply Rmult_le_pos; [apply Rlt_le, PI_RGT_0 | apply pow2_ge_0]. }
  set (dv := 0.5 * 1 * rho * pv ^ 2 * area / mass * ((pa - a) * 1000) / pv).
  assert (Hdv : 0 <= dv).
  { subst dv. destruct (Req_dec pv 0) as [-> | Hnz].
    - unfold Rdiv. rewrite Rinv_0. lra.
    - assert (Hpv' : 0 < pv) by lra.
      assert (H1 : 0 <= 0.5 * 1 * rho * pv ^ 2 * area).
      { pose proof (pow2_ge_0 pv) as Hsq.
        apply Rmult_le_pos; [ | exact Harea].
        apply Rmult_le_pos; [ | exact Hsq].
        apply Rmult_le_pos; [lra | exact Hrho]. }
      assert (H2 : 0 <= 0.5 * 1 * rho * pv ^ 2 * area / mass).
      { unfold Rdiv. apply Rmult_le_pos; [exact H1 | ].
        apply Rlt_le, Rinv_0_lt_compat. exact Hm. }
      unfold Rdiv at 1. apply Rmult_le_pos.
      + apply Rmult_le_pos; [exact H2 | lra].
      + apply Rlt_le, Rinv_0_lt_compat. exact Hpv'. }
  unfold py_max_R. destruct (Rlt_dec 0 (pv - dv)); lra.
Qed.

Lemma velocity_from_range (diameter mass : R) altitudes :
  0 < mass ->
  forall pa pv,
    0 <= pv ->
    Forall (fun v => 0 <= v <= pv)
      (velocity_from diameter mass pa pv altitudes)
    /\ non_increasing (pv :: velocity_from diameter mass pa pv altitudes).
Proof.
  intros Hm. induction altitudes as [ | a rest IH]; intros pa pv Hpv.
  - cbn. split; [constructor | exact I].
  - cbn [velocity_from].
    destruct (velocity_step_range diameter mass pa pv a Hm Hpv) as [H0 H1].
    destruct (IH a _ H0) as [Hall Hmono].
    split.
    + constructor; [split; assumption | ].
      eapply Forall_impl; [ | exact Hall].
      cbn. intros v [Hv0 Hv1]. lra.
    + cbn [non_increasing]. split; [exact H1 | exact Hmono].
Qed.

(** X30. Drag never speeds the body up: for a non-negative entry velocity
    and a body of positive diameter and density,
    [_calculate_velocity_profile] returns one velocity per altitude sample,
    starting at the entry velocity, never increasing along the trajectory
    and never negative; on an empty altitude array it fails. *)
Theorem velocity_profile_decreasing :
  forall (v0 diameter density : R) (altitude : list R),
    0 <= v0 -> 0 < diameter -> 0 < density ->
    match _calculate_velocity_profile v0 altitude diameter density with
    | None => altitude = []
    | Some profile =>
        List.length profile = List.length altitude
        /\ hd 0 profile = v0
        /\ Forall (fun v => 0 <= v <= v0) profile
        /\ non_increasing profile
    end.
Proof.
  intros v0 diameter density altitude Hv Hd Hrho.
  unfold _calculate_velocity_profile.
  destruct altitude as [ | a0 rest]; [reflexivity | ].
  assert (Hm : 0 < density * (4 / 3) * PI * (diameter / 2) ^ 3).
  { pose proof PI_RGT_0.
    assert (0 < (diameter / 2) ^ 3) by (apply pow_lt; lra).
    apply Rmult_lt_0_compat; [ | assumption].
    apply Rmult_lt_0_compat; [ | assumption].
    lra. }
  destruct (velocity_from_range diameter _ rest Hm a0 v0 Hv) as [Hall Hmono].
  split; [ | split; [reflexivity | split; [ | exact Hmono]]].
  - cbn [List.length]. f_equal.
    clear. generalize a0 v0.
    induction rest as [ | a rest IH]; intros pa pv; [reflexivity | ].
    cbn [velocity_from List.length]. f_equal. apply IH.
  - constructor; [lra | exact Hall].
Qed.

Lemma velocity_profile_decreasing_witness :
  match _calculate_velocity_profile 18600 [120; 119; 118] 19 3300 with
  | None => [120; 119; 118] = []
  | Some profile =>
      List.length profile = List.length [120; 119; 118]
      /\ hd 0 profile = 18600
      /\ Forall (fun v => 0 <= v <= 18600) profile
      /\ non_increasing profile
  end.
Proof.
  apply velocity_profile_decreasing; lra.
Defined.

End AtpRealtimeFacts.
